(** * QAMetricsSystem: the metrics engine of the code analysis tool

    A shallow embedding of [analyzeCode] and its four analyzers
    ([calculateCyclomaticComplexity], [calculateMaxNestingDepth],
    [findDuplicatedCode], [analyzeDocumentation]) together with the part of
    the JavaScript string and regular-expression semantics they rely on.

    Conventions.
    - A JavaScript string is the list of its UTF-16 code units ([N]).
    - A JavaScript number holding a counter, a depth or a line number is a
      [Z]; the ratio [documentationCoverage.percentage] is a double, an
      IEEE 754 binary64 value with the arithmetic of [SpecFloat].
    - A call takes [maxArguments] arguments at most, a bound that belongs to
      the engine running the code; beyond it the call throws.
    - An array is a list in array order: [push] appends at the end and
      [pop] removes the last element.
    - A [Map] is an association list in insertion order. *)

From Stdlib Require Import String Ascii.
From Stdlib Require Import List ZArith NArith QArith Qpower Qabs Lia Lqa Bool Sorted.
From Stdlib Require Import SpecFloat.
Import ListNotations.

Close Scope Q_scope.
Local Open Scope Z_scope.

(** ** Strings *)

Definition char := N.
Definition jsstring := list char.

(** Reading a literal of the development as a JavaScript string. *)
Definition str (s : string) : jsstring :=
  map N_of_ascii (list_ascii_of_string s).
Arguments str s%_string.

Definition in_range (lo hi c : N) : bool := ((lo <=? c) && (c <=? hi))%N.

(** [\w] without the [u] and [i] flags: [[A-Za-z0-9_]]. *)
Definition is_word_char (c : char) : bool :=
  (in_range 97 122 c || in_range 65 90 c || in_range 48 57 c || (c =? 95))%N.

(** LineTerminator: LF, CR, LS, PS. *)
Definition is_line_terminator (c : char) : bool :=
  ((c =? 10) || (c =? 13) || (c =? 8232) || (c =? 8233))%N.

(** WhiteSpace: TAB, VT, FF, SP, NBSP, ZWNBSP and the category Zs. *)
Definition is_white_space (c : char) : bool :=
  ((c =? 9) || (c =? 11) || (c =? 12) || (c =? 32) || (c =? 160)
   || (c =? 5760) || in_range 8192 8202 c || (c =? 8239) || (c =? 8287)
   || (c =? 12288) || (c =? 65279))%N.

(** [\s], which is also what [String.prototype.trim] strips. *)
Definition is_space (c : char) : bool :=
  is_white_space c || is_line_terminator c.

(** [.] without the [s] flag. *)
Definition is_dot (c : char) : bool := negb (is_line_terminator c).

(** The input after its longest run of characters of a class. *)
Fixpoint drop_while (p : char -> bool) (s : jsstring) : jsstring :=
  match s with
  | c :: s' => if p c then drop_while p s' else s
  | [] => []
  end.

Definition trimStart (s : jsstring) : jsstring := drop_while is_space s.

Definition trimEnd (s : jsstring) : jsstring := rev (trimStart (rev s)).

Definition trim (s : jsstring) : jsstring := trimEnd (trimStart s).

Fixpoint startsWith (s w : jsstring) {struct w} : bool :=
  match w with
  | [] => true
  | a :: w' =>
      match s with
      | c :: s' => (c =? a)%N && startsWith s' w'
      | [] => false
      end
  end.

(** [s.split('\n')]: the pieces between line feeds; never empty, the empty
    string gives one empty piece. *)
Fixpoint split_lines (s : jsstring) : list jsstring :=
  match s with
  | [] => [[]]
  | c :: s' =>
      if (c =? 10)%N then [] :: split_lines s'
      else match split_lines s' with
           | l :: ls => (c :: l) :: ls
           | [] => [[c]]
           end
  end.

(** ** Regular expressions

    The fragment of the ECMAScript pattern language the analyzers use, with
    a backtracking matcher in continuation-passing style.  The matcher
    carries the code unit before the current position ([None] at index 0),
    which is what [\b] and [^] look at. *)

Inductive regex : Type :=
| Lit (w : jsstring)           (* a literal run of characters *)
| Cls (p : char -> bool)       (* one character of a class *)
| Star (p : char -> bool)      (* greedy [c*] on a class *)
| Plus (p : char -> bool)      (* greedy [c+] on a class *)
| WordB                        (* [\b] *)
| Bol                          (* [^], no [m] flag *)
| Eol                          (* [$], no [m] flag *)
| Seq (r1 r2 : regex)
| Alt (r1 r2 : regex).

Definition cont := option char -> jsstring -> option jsstring.

Definition is_word_opt (c : option char) : bool :=
  match c with Some c => is_word_char c | None => false end.

(** [\b] holds when exactly one side is a word character. *)
Definition word_boundary (prev : option char) (s : jsstring) : bool :=
  xorb (is_word_opt prev) (is_word_opt (hd_error s)).

Fixpoint lit (w : jsstring) (prev : option char) (s : jsstring) (k : cont)
  : option jsstring :=
  match w with
  | [] => k prev s
  | a :: w' =>
      match s with
      | c :: s' => if (c =? a)%N then lit w' (Some c) s' k else None
      | [] => None
      end
  end.

(** Greedy iteration: take one more character first, fall back to the
    continuation when the rest fails. *)
Fixpoint star (p : char -> bool) (prev : option char) (s : jsstring) (k : cont)
  : option jsstring :=
  match s with
  | c :: s' =>
      if p c then
        match star p (Some c) s' k with
        | Some r => Some r
        | None => k prev s
        end
      else k prev s
  | [] => k prev s
  end.

Fixpoint rmatch (r : regex) (prev : option char) (s : jsstring) (k : cont)
  : option jsstring :=
  match r with
  | Lit w => lit w prev s k
  | Cls p =>
      match s with
      | c :: s' => if p c then k (Some c) s' else None
      | [] => None
      end
  | Star p => star p prev s k
  | Plus p =>
      match s with
      | c :: s' => if p c then star p (Some c) s' k else None
      | [] => None
      end
  | WordB => if word_boundary prev s then k prev s else None
  | Bol => match prev with None => k prev s | Some _ => None end
  | Eol => match s with [] => k prev s | _ :: _ => None end
  | Seq r1 r2 => rmatch r1 prev s (fun prev' s' => rmatch r2 prev' s' k)
  | Alt r1 r2 =>
      match rmatch r1 prev s k with
      | Some r => Some r
      | None => rmatch r2 prev s k
      end
  end.

(** A match of the whole pattern at the current position: the input left
    after it. *)
Definition match_here (r : regex) (prev : option char) (s : jsstring)
  : option jsstring :=
  rmatch r prev s (fun _ rest => Some rest).

(** [r.test(s)] for a pattern without the [g] flag: is there a match at
    some index, tried from left to right. *)
Fixpoint search (r : regex) (prev : option char) (s : jsstring) : bool :=
  match match_here r prev s with
  | Some _ => true
  | None =>
      match s with
      | c :: s' => search r (Some c) s'
      | [] => false
      end
  end.

Definition test (r : regex) (s : jsstring) : bool := search r None s.

(** The successive matches of a [g] pattern, as [String.prototype.match]
    collects them.  [skip] counts the characters of the previous match still
    to pass; an empty match moves on by one character. *)
Fixpoint scan (r : regex) (prev : option char) (s : jsstring) (skip : nat)
  : list jsstring :=
  match s with
  | [] =>
      match skip with
      | O => match match_here r prev [] with Some _ => [[]] | None => [] end
      | S _ => []
      end
  | c :: s' =>
      match skip with
      | O =>
          match match_here r prev s with
          | Some rest =>
              let n := (length s - length rest)%nat in
              firstn n s :: scan r (Some c) s' (n - 1)
          | None => scan r (Some c) s' 0
          end
      | S skip' => scan r (Some c) s' skip'
      end
  end.

(** [s.match(r)] with the [g] flag: [null] when there is no match. *)
Definition match_global (r : regex) (s : jsstring) : option (list jsstring) :=
  match scan r None s 0 with
  | [] => None
  | ms => Some ms
  end.

(** Literals of the patterns. *)
Definition kw (s : string) : regex := Lit (str s).
Arguments kw s%_string.

Definition chr (s : string) : char := hd 0%N (str s).
Arguments chr s%_string.

Definition is_char (a : char) (c : char) : bool := (c =? a)%N.

(** [r1|r2|...] and [r1 r2 ...]. *)
Fixpoint alts (rs : list regex) : regex :=
  match rs with
  | [] => Lit []
  | [r] => r
  | r :: rs' => Alt r (alts rs')
  end.

Fixpoint seqs (rs : list regex) : regex :=
  match rs with
  | [] => Lit []
  | [r] => r
  | r :: rs' => Seq r (seqs rs')
  end.

(** [/\bw\b/] for a word [w]. *)
Definition word_re (w : jsstring) : regex := seqs [WordB; Lit w; WordB].

(** [/w\s+\w+/] for a keyword [w]. *)
Definition decl_re (w : jsstring) : regex :=
  seqs [Lit w; Plus is_space; Plus is_word_char].

(** Equality of strings, code unit by code unit. *)
Fixpoint string_eqb (a b : jsstring) : bool :=
  match a, b with
  | [], [] => true
  | x :: a', y :: b' => (x =? y)%N && string_eqb a' b'
  | _, _ => false
  end.

(** ** Numbers

    A number that is not a counter is a double: [spec_float] with a
    mantissa of 53 bits and exponents up to 1024.  The operators round to
    nearest, ties to even. *)

Definition number : Type := spec_float.

(** An integer literal, or a counter, read as a double: the integer itself
    below [2 ^ 53], which no counter of the analyzers reaches. *)
Definition number_of_Z (z : Z) : number := binary_normalize 53 1024 z 0 false.

(** [x / y] *)
Definition number_div (x y : number) : number := SFdiv 53 1024 x y.

(** [x * y] *)
Definition number_mul (x y : number) : number := SFmul 53 1024 x y.

(** ** The report *)

Record ComplexityLocation : Type := {
  loc_line : Z;
  loc_code : jsstring;
  loc_depth : option Z
}.

Record Complexity : Type := {
  cc_total : Z;
  cc_locations : list ComplexityLocation
}.

Record Nesting : Type := {
  nd_max : Z;
  nd_locations : list ComplexityLocation
}.

Record LineRef : Type := { ref_line : Z }.

Record DuplicateBlock : Type := {
  dup_code : jsstring;
  dup_occurrences : Z;
  dup_locations : list LineRef
}.

Record Coverage : Type := {
  totalComplexLines : Z;
  documentedComplexLines : Z;
  percentage : number
}.

Record CodeMetrics : Type := {
  cyclomaticComplexity : Complexity;
  maxNestingDepth : Nesting;
  duplicatedCodeBlocks : list DuplicateBlock;
  documentationCoverage : Coverage
}.

(** [lines.forEach((line, index) => ...)] threading the variables the
    callback updates. *)
Fixpoint forEach {S : Type} (f : S -> jsstring -> Z -> S)
    (lines : list jsstring) (index : Z) (st : S) : S :=
  match lines with
  | [] => st
  | line :: rest => forEach f rest (index + 1) (f st line index)
  end.

(** [arr.map((item, i) => ...)] from index [i]. *)
Fixpoint mapi {A B : Type} (f : A -> Z -> B) (i : Z) (l : list A) : list B :=
  match l with
  | [] => []
  | a :: l' => f a i :: mapi f (i + 1) l'
  end.

(** [arr.length] as a number. *)
Definition len {A : Type} (l : list A) : Z := Z.of_nat (length l).

(** ** calculateCyclomaticComplexity *)

(** [/\b(if|while|for|case|catch)\b|&&|\|\||\?/g] *)
Definition controlFlowRe : regex :=
  alts [seqs [WordB;
              alts [kw "if"; kw "while"; kw "for"; kw "case"; kw "catch"];
              WordB];
        kw "&&"; kw "||"; kw "?"].

(** [/\belse\b/] *)
Definition elseRe : regex := word_re (str "else").

(** [/\belse\s+if\b/] *)
Definition elseIfRe : regex :=
  seqs [WordB; kw "else"; Plus is_space; kw "if"; WordB].

(** The variables the callback of [forEach] updates. *)
Record ccState : Type := {
  complexity : Z;
  locations : list ComplexityLocation
}.

(** [locations.push({line: index + 1, code: line.trim()})] *)
Definition cc_push (st : ccState) (line : jsstring) (index : Z) : list ComplexityLocation :=
  locations st ++
  [{| loc_line := index + 1; loc_code := trim line; loc_depth := None |}].

(** The callback: the control-flow matches first, then the else rule. *)
Definition cc_line (st : ccState) (line : jsstring) (index : Z) : ccState :=
  let st1 :=
    match match_global controlFlowRe line with
    | Some controlFlowMatches =>
        {| complexity := complexity st + len controlFlowMatches;
           locations := cc_push st line index |}
    | None => st
    end in
  if test elseRe line && negb (test elseIfRe line) then
    {| complexity := complexity st1 + 1;
       locations := cc_push st1 line index |}
  else st1.

Definition calculateCyclomaticComplexity (sourceCode : jsstring) : Complexity :=
  let lines := split_lines sourceCode in
  let st := forEach cc_line lines 0 {| complexity := 1; locations := [] |} in
  {| cc_total := complexity st; cc_locations := locations st |}.

(** ** calculateMaxNestingDepth *)

(** An entry of [stack]. *)
Record Frame : Type := { fr_line : Z; fr_code : jsstring }.

Record ndState : Type := {
  maxDepth : Z;
  currentDepth : Z;
  deepest : list ComplexityLocation;   (* the local [locations] *)
  stack : list Frame
}.

(** [/\b(if|for|while|switch|do)\b.*{/] *)
Definition openRe : regex :=
  seqs [WordB;
        alts [kw "if"; kw "for"; kw "while"; kw "switch"; kw "do"];
        WordB; Star is_dot; kw "{"].

(** [/\belse\b.*{/] *)
Definition openElseRe : regex :=
  seqs [WordB; kw "else"; WordB; Star is_dot; kw "{"].

(** [/}/g] *)
Definition closeRe : regex := kw "}".

(** The condition of the opening rule. *)
Definition opens (trimmedLine : jsstring) : bool :=
  test openRe trimmedLine || test openElseRe trimmedLine.

(** [stack.map((item, depth) => ({line, code, depth: depth + 1}))] *)
Definition snapshot (stack : list Frame) : list ComplexityLocation :=
  mapi (fun item depth =>
          {| loc_line := fr_line item; loc_code := fr_code item;
             loc_depth := Some (depth + 1) |}) 0 stack.

(** The opening rule for one line, the call of line 95 returning (see
    [Engine.nd_open] for the call itself). *)
Definition nd_open (st : ndState) (trimmedLine : jsstring) (index : Z) : ndState :=
  if opens trimmedLine then
    let currentDepth' := currentDepth st + 1 in
    let stack' := stack st ++ [{| fr_line := index + 1; fr_code := trimmedLine |}] in
    if currentDepth' >? maxDepth st then
      {| maxDepth := currentDepth'; currentDepth := currentDepth';
         deepest := snapshot stack'; stack := stack' |}
    else
      {| maxDepth := maxDepth st; currentDepth := currentDepth';
         deepest := deepest st; stack := stack' |}
  else st.

(** One round of the closing loop:
    [currentDepth = Math.max(0, currentDepth - 1)], then
    [if (stack.length > 0) stack.pop()]. *)
Definition nd_close (st : ndState) : ndState :=
  {| maxDepth := maxDepth st;
     currentDepth := Z.max 0 (currentDepth st - 1);
     deepest := deepest st;
     stack := if len (stack st) >? 0 then removelast (stack st) else stack st |}.

(** [(trimmedLine.match(/}/g) || []).length] *)
Definition closeBraces (trimmedLine : jsstring) : nat :=
  match match_global closeRe trimmedLine with
  | Some ms => length ms
  | None => O
  end.

(** The callback: the opening rule, then one closing round per brace. *)
Definition nd_line (st : ndState) (line : jsstring) (index : Z) : ndState :=
  let trimmedLine := trim line in
  Nat.iter (closeBraces trimmedLine) nd_close (nd_open st trimmedLine index).

Definition nd_init : ndState :=
  {| maxDepth := 0; currentDepth := 0; deepest := []; stack := [] |}.

Definition calculateMaxNestingDepth (lines : list jsstring) : Nesting :=
  let st := forEach nd_line lines 0 nd_init in
  {| nd_max := maxDepth st; nd_locations := deepest st |}.

(** ** findDuplicatedCode *)

(** [Map<string, number[]>], entries in insertion order. *)
Definition JsMap : Type := list (jsstring * list Z).

Fixpoint map_get (m : JsMap) (k : jsstring) : option (list Z) :=
  match m with
  | [] => None
  | (k', v) :: m' => if string_eqb k' k then Some v else map_get m' k
  end.

Definition map_has (m : JsMap) (k : jsstring) : bool :=
  match map_get m k with Some _ => true | None => false end.

(** [set] keeps the place of a key already present and appends a new one. *)
Fixpoint map_set (m : JsMap) (k : jsstring) (v : list Z) : JsMap :=
  match m with
  | [] => [(k, v)]
  | (k', v') :: m' =>
      if string_eqb k' k then (k', v) :: m' else (k', v') :: map_set m' k v
  end.

(** [m.get(k)!.push(x)]: the array stored under [k] grows in place; with no
    entry under [k] the call throws, which is [None] here. *)
Definition map_push (m : JsMap) (k : jsstring) (x : Z) : option JsMap :=
  match map_get m k with
  | Some arr => Some (map_set m k (arr ++ [x]))
  | None => None
  end.

Definition minLineLength : Z := 3.

(** The class [[\)\}\;]]. *)
Definition is_punct (c : char) : bool :=
  is_char (chr ")") c || is_char (chr "}") c || is_char (chr ";") c.

(** [/^[\)\}\;]+$/] *)
Definition trivialRegex : regex := seqs [Bol; Plus is_punct; Eol].

(** The body of the loop for line [i]. *)
Definition fd_line (duplicates : JsMap) (line : jsstring) (i : Z) : option JsMap :=
  let trimmedLine := trim line in
  if (len trimmedLine <? minLineLength) || test trivialRegex trimmedLine then
    Some duplicates
  else
    let duplicates :=
      if negb (map_has duplicates trimmedLine)
      then map_set duplicates trimmedLine []
      else duplicates in
    map_push duplicates trimmedLine (i + 1).

Fixpoint fd_loop (lines : list jsstring) (i : Z) (duplicates : JsMap) : option JsMap :=
  match lines with
  | [] => Some duplicates
  | line :: rest =>
      match fd_line duplicates line i with
      | Some duplicates' => fd_loop rest (i + 1) duplicates'
      | None => None
      end
  end.

(** [([code, locations]) => ({code, occurrences: locations.length,
    locations: locations.map((line) => ({line}))})] *)
Definition fd_block (entry : jsstring * list Z) : DuplicateBlock :=
  let '(code, locations) := entry in
  {| dup_code := code;
     dup_occurrences := len locations;
     dup_locations := map (fun line => {| ref_line := line |}) locations |}.

(** The loop, then the entries with more than one location. *)
Definition findDuplicatedCode (lines : list jsstring) : option (list DuplicateBlock) :=
  match fd_loop lines 0 [] with
  | Some duplicates =>
      Some (map fd_block
              (filter (fun entry => len (snd entry) >? 1) duplicates))
  | None => None
  end.

(** ** analyzeDocumentation *)

(** [/function\s+\w+/], [/class\s+\w+/], [/interface\s+\w+/], [/\bif\b/],
    [/\bfor\b/], [/\bwhile\b/], [/\bswitch\b/] *)
Definition complexPatterns : list regex :=
  [ decl_re (str "function"); decl_re (str "class"); decl_re (str "interface");
    word_re (str "if"); word_re (str "for"); word_re (str "while");
    word_re (str "switch") ].

Record docState : Type := {
  total : Z;                    (* the local [totalComplexLines] *)
  documented : Z;               (* the local [documentedComplexLines] *)
  lastLineWasComment : bool
}.

Definition isComment (line : jsstring) : bool :=
  startsWith line (str "//") || startsWith line (str "/*")
  || startsWith line (str "*").

Definition isComplex (line : jsstring) : bool :=
  existsb (fun pattern => test pattern line) complexPatterns.

(** The body of the loop for one line. *)
Definition doc_line (st : docState) (rawLine : jsstring) : docState :=
  let line := trim rawLine in
  let st1 :=
    if isComplex line then
      {| total := total st + 1;
         documented :=
           if lastLineWasComment st then documented st + 1 else documented st;
         lastLineWasComment := lastLineWasComment st |}
    else st in
  {| total := total st1; documented := documented st1;
     lastLineWasComment := isComment line |}.

Definition doc_init : docState :=
  {| total := 0; documented := 0; lastLineWasComment := false |}.

Definition analyzeDocumentation (lines : list jsstring) : Coverage :=
  let st := fold_left doc_line lines doc_init in
  {| totalComplexLines := total st;
     documentedComplexLines := documented st;
     percentage :=
       if total st =? 0 then number_of_Z 100
       else number_mul
              (number_div (number_of_Z (documented st)) (number_of_Z (total st)))
              (number_of_Z 100) |}.

(** ** The call of line 95

    [calculateMaxNestingDepth] above is the scan: what the function computes
    as long as [locations.push(...stack.map(...))] returns.  The spread
    passes one argument per frame, and an engine that accepts
    [maxArguments] arguments throws a RangeError when there are more.
    [Engine.calculateMaxNestingDepth] is the function with that call as the
    engine runs it; [None] is the exception. *)

Module Engine.

(** [locations.push(...items)] *)
Definition push_spread (maxArguments : N)
    (locations items : list ComplexityLocation) : option (list ComplexityLocation) :=
  if len items >? Z.of_N maxArguments then None else Some (locations ++ items).

(** The opening rule for one line: [locations.length = 0], then the
    spread. *)
Definition nd_open (maxArguments : N) (st : ndState) (trimmedLine : jsstring)
    (index : Z) : option ndState :=
  if opens trimmedLine then
    let currentDepth' := currentDepth st + 1 in
    let stack' := stack st ++ [{| fr_line := index + 1; fr_code := trimmedLine |}] in
    if currentDepth' >? maxDepth st then
      match push_spread maxArguments [] (snapshot stack') with
      | Some locations =>
          Some {| maxDepth := currentDepth'; currentDepth := currentDepth';
                  deepest := locations; stack := stack' |}
      | None => None
      end
    else
      Some {| maxDepth := maxDepth st; currentDepth := currentDepth';
              deepest := deepest st; stack := stack' |}
  else Some st.

(** The callback: the opening rule, then one closing round per brace. *)
Definition nd_line (maxArguments : N) (st : ndState) (line : jsstring)
    (index : Z) : option ndState :=
  let trimmedLine := trim line in
  match nd_open maxArguments st trimmedLine index with
  | Some st' => Some (Nat.iter (closeBraces trimmedLine) nd_close st')
  | None => None
  end.

(** [lines.forEach] with a callback that may throw. *)
Fixpoint forEach {S : Type} (f : S -> jsstring -> Z -> option S)
    (lines : list jsstring) (index : Z) (st : S) : option S :=
  match lines with
  | [] => Some st
  | line :: rest =>
      match f st line index with
      | Some st' => forEach f rest (index + 1) st'
      | None => None
      end
  end.

Definition calculateMaxNestingDepth (maxArguments : N) (lines : list jsstring)
    : option Nesting :=
  match forEach (nd_line maxArguments) lines 0 nd_init with
  | Some st => Some {| nd_max := maxDepth st; nd_locations := deepest st |}
  | None => None
  end.

End Engine.

(** ** analyzeCode *)

(** The four analyzers on the same text, in the order of the object
    literal; [None] if one of them throws. *)
Definition analyzeCode (maxArguments : N) (sourceCode : jsstring)
    : option CodeMetrics :=
  let lines := split_lines sourceCode in
  let complexity := calculateCyclomaticComplexity sourceCode in
  match Engine.calculateMaxNestingDepth maxArguments lines with
  | Some nesting =>
      match findDuplicatedCode lines with
      | Some duplicates =>
          Some {| cyclomaticComplexity := complexity;
                  maxNestingDepth := nesting;
                  duplicatedCodeBlocks := duplicates;
                  documentationCoverage := analyzeDocumentation lines |}
      | None => None
      end
  | None => None
  end.

(** ** The nesting scan, step by step

    Every state the scan goes through: after the opening rule of a line and
    after each round of its closing loop. *)

Fixpoint close_trace (n : nat) (st : ndState) : list ndState :=
  match n with
  | O => []
  | S n' => nd_close st :: close_trace n' (nd_close st)
  end.

Definition line_trace (st : ndState) (line : jsstring) (index : Z) : list ndState :=
  let trimmedLine := trim line in
  let opened := nd_open st trimmedLine index in
  opened :: close_trace (closeBraces trimmedLine) opened.
Arguments line_trace : simpl never.

Fixpoint scan_trace (lines : list jsstring) (index : Z) (st : ndState) : list ndState :=
  match lines with
  | [] => []
  | line :: rest =>
      line_trace st line index ++ scan_trace rest (index + 1) (nd_line st line index)
  end.

(** The states of the whole scan, the initial one first. *)
Definition nesting_trace (lines : list jsstring) : list ndState :=
  nd_init :: scan_trace lines 0 nd_init.

(** The scan after its first [n] lines. *)
Definition nesting_after (n : nat) (lines : list jsstring) : ndState :=
  forEach nd_line (firstn n lines) 0 nd_init.

(** Depth tags [first], [first + 1], ... *)
Fixpoint depth_tags (first : Z) (n : nat) : list (option Z) :=
  match n with
  | O => []
  | S n' => Some first :: depth_tags (first + 1) n'
  end.

(** * Notions used by the properties *)

(** ** Invariants of the nesting scan *)

(** What every state of the scan satisfies. *)
Definition nd_inv (st : ndState) : Prop :=
  len (stack st) = currentDepth st /\
  len (deepest st) = maxDepth st /\
  currentDepth st <= maxDepth st.

(** The scan remembers the first state that reached the running maximum. *)
Definition first_peak (tr : list ndState) (st : ndState) : Prop :=
  Forall (fun s => currentDepth s <= maxDepth st) tr /\
  (maxDepth st = 0 -> deepest st = []) /\
  (0 < maxDepth st ->
   exists before s after,
     tr = before ++ s :: after /\
     Forall (fun x => currentDepth x < maxDepth st) before /\
     currentDepth s = maxDepth st /\
     deepest st = snapshot (stack s)).

(** ** Lines kept and grouped by the duplicate detector *)

(** Pure punctuation: one or more characters, each of them [)], [}] or [;]. *)
Definition pure_punctuation (s : jsstring) : Prop :=
  s <> [] /\ Forall (fun c => c = chr ")" \/ c = chr "}" \/ c = chr ";") s.

(** The numbers, counted from [n], of the lines whose trimmed text is
    [code]. *)
Fixpoint line_numbers_of (code : jsstring) (lines : list jsstring) (n : Z) : list Z :=
  match lines with
  | [] => []
  | line :: rest =>
      if string_eqb (trim line) code
      then n :: line_numbers_of code rest (n + 1)
      else line_numbers_of code rest (n + 1)
  end.

(** A line the detector keeps. *)
Definition candidate (t : jsstring) : bool :=
  negb ((len t <? minLineLength) || test trivialRegex t).

(** The numbers, from [n], of the kept lines whose trimmed text is [code]. *)
Fixpoint candidate_numbers (code : jsstring) (lines : list jsstring) (n : Z) : list Z :=
  match lines with
  | [] => []
  | line :: rest =>
      if candidate (trim line) && string_eqb (trim line) code
      then n :: candidate_numbers code rest (n + 1)
      else candidate_numbers code rest (n + 1)
  end.

(** One kept line, as the loop records it. *)
Definition fd_add (m : JsMap) (t : jsstring) (x : Z) : JsMap :=
  map_set m t (match map_get m t with Some arr => arr ++ [x] | None => [x] end).

(** The array under a key once further numbers arrive. *)
Definition merge (old : option (list Z)) (new : list Z) : option (list Z) :=
  match old, new with
  | None, [] => None
  | None, _ => Some new
  | Some v, _ => Some (v ++ new)
  end.

(** ** Words, spaces and tokens at a position of a line *)

(** The code unit before the position reached after reading [u]. *)
Fixpoint last_opt (u : jsstring) (prev : option char) : option char :=
  match u with
  | [] => prev
  | c :: u' => last_opt u' (Some c)
  end.

(** A word: not empty, word characters at both ends. *)
Definition is_word (w : jsstring) : bool :=
  is_word_opt (hd_error w) && is_word_opt (last_opt w None).

(** [w] stands at the start of [s] as a whole word: no word character just
    before it and none just after it. *)
Definition whole_word_at (w : jsstring) (prev : option char) (s : jsstring) : bool :=
  negb (is_word_opt prev) && startsWith s w
  && negb (is_word_opt (hd_error (skipn (length w) s))).

(** [w] stands at the start of [s] and no word character follows it. *)
Definition tail_free (w : jsstring) (s : jsstring) : bool :=
  startsWith s w && negb (is_word_opt (hd_error (skipn (length w) s))).

(** The input left after the word found, if any. *)
Definition rest_after (s : jsstring) (w : option jsstring) : option jsstring :=
  match w with
  | Some w => Some (skipn (length w) s)
  | None => None
  end.

(** [f] holds at some position of [s], which starts after [prev]. *)
Fixpoint somewhere (f : option char -> jsstring -> bool)
    (prev : option char) (s : jsstring) : bool :=
  f prev s ||
  match s with
  | c :: s' => somewhere f (Some c) s'
  | [] => false
  end.

(** [s] has a whole-word occurrence of [w]. *)
Definition has_whole_word (w : jsstring) (s : jsstring) : bool :=
  somewhere (whole_word_at w) None s.

(** The number of whole-word occurrences of [w] in [s]. *)
Fixpoint count_whole_word_from (w : jsstring) (prev : option char) (s : jsstring) : nat :=
  match s with
  | [] => O
  | c :: s' =>
      ((if whole_word_at w prev s then 1 else 0) + count_whole_word_from w (Some c) s')%nat
  end.

(** The same for a whole line. *)
Definition count_whole_word (w : jsstring) (s : jsstring) : nat :=
  count_whole_word_from w None s.

(** The number of occurrences of [w] in [s], read from left to right, an
    occurrence starting where the one before it ended or later. *)
Fixpoint count_occurrences_from (w : jsstring) (s : jsstring) (skip : nat) : nat :=
  match s with
  | [] => O
  | c :: s' =>
      match skip with
      | O =>
          if startsWith s w
          then S (count_occurrences_from w s' (length w - 1))
          else count_occurrences_from w s' 0
      | S skip' => count_occurrences_from w s' skip'
      end
  end.

(** The same for a whole line. *)
Definition count_occurrences (w : jsstring) (s : jsstring) : nat :=
  count_occurrences_from w s 0.

(** The first character of [s] is a space. *)
Definition starts_with_space (s : jsstring) : bool :=
  match s with
  | c :: _ => is_space c
  | [] => false
  end.

(** After the position: one or more spaces, then [if] as the end of a
    word. *)
Definition if_follows (r : jsstring) : bool :=
  starts_with_space r && tail_free (str "if") (trimStart r).

(** [else], one or more spaces and [if] stand at the position, between two
    word boundaries. *)
Definition else_if_at (prev : option char) (s : jsstring) : bool :=
  negb (is_word_opt prev) && startsWith s (str "else")
  && if_follows (skipn 4 s).

(** [s] has an [else if] somewhere. *)
Definition has_else_if (s : jsstring) : bool := somewhere else_if_at None s.

(** [w], one or more spaces and a word character stand at the position. *)
Definition decl_at (w : jsstring) (s : jsstring) : bool :=
  startsWith s w && starts_with_space (skipn (length w) s)
  && is_word_opt (hd_error (trimStart (skipn (length w) s))).

(** [s] has a declaration introduced by [w] somewhere. *)
Definition has_decl (w : jsstring) (s : jsstring) : bool :=
  somewhere (fun _ s' => decl_at w s') None s.

(** ** Decision points and the else rule *)

(** The tokens of the control-flow pattern. *)
Definition keywords : list jsstring :=
  [str "if"; str "while"; str "for"; str "case"; str "catch"].

Definition operators : list jsstring := [str "&&"; str "||"; str "?"].

(** The token standing at a position, as the alternation tries them. *)
Definition token_at (prev : option char) (s : jsstring) : option jsstring :=
  match find (fun w => whole_word_at w prev s) keywords with
  | Some w => Some w
  | None => find (fun op => startsWith s op) operators
  end.

(** Whole-word occurrences of the five keywords plus occurrences of the
    three operators. *)
Definition decision_points_from (prev : option char) (s : jsstring) : nat :=
  (list_sum (map (fun w => count_whole_word_from w prev s) keywords) +
   list_sum (map (fun op => count_occurrences_from op s 0) operators))%nat.

(** The same for a whole line. *)
Definition decision_points (line : jsstring) : nat :=
  (list_sum (map (fun w => count_whole_word w line) keywords) +
   list_sum (map (fun op => count_occurrences op line) operators))%nat.

(** The else rule of the code: a whole-word [else] on the line and no
    [else if] anywhere on it. *)
Definition else_line (line : jsstring) : bool :=
  has_whole_word (str "else") line && negb (has_else_if line).

(** A bare [else]: a whole-word [else] that is not followed by spaces and
    [if]. *)
Definition bare_else_at (prev : option char) (s : jsstring) : bool :=
  whole_word_at (str "else") prev s && negb (if_follows (skipn 4 s)).

(** The line has a bare [else] somewhere. *)
Definition has_bare_else (line : jsstring) : bool := somewhere bare_else_at None line.

Definition sumZ (l : list Z) : Z := fold_right Z.add 0 l.

(** The total as the specification words it: the base path, the decision
    points of every line, and one for every line with a bare [else]. *)
Definition claimed_total (sourceCode : jsstring) : Z :=
  1 + sumZ (map (fun line =>
                   Z.of_nat (decision_points line)
                   + (if has_bare_else line then 1 else 0))
                (split_lines sourceCode)).

(** The total of the code: a line with a bare [else] counts for the else
    rule only when no [else if] stands on the same line. *)
Definition line_score (line : jsstring) : Z :=
  Z.of_nat (decision_points line)
  + (if has_bare_else line && negb (has_else_if line) then 1 else 0).

(** The entry a rule pushes for a line. *)
Definition the_location (line : jsstring) (index : Z) : ComplexityLocation :=
  {| loc_line := index + 1; loc_code := trim line; loc_depth := None |}.

(** What one line adds to the locations. *)
Definition line_entries (line : jsstring) (index : Z) : list ComplexityLocation :=
  (if (0 <? decision_points line)%nat then [the_location line index] else []) ++
  (if else_line line then [the_location line index] else []).

(** ** Complex and documented lines *)

(** A whole-word occurrence of [w] in [s], spelled out. *)
Definition whole_word_in (w s : jsstring) : Prop :=
  exists pre post,
    s = pre ++ w ++ post /\
    is_word_opt (last_opt pre None) = false /\
    is_word_opt (hd_error post) = false.

(** A named declaration in [s]: the keyword, one or more spaces and a word
    character. *)
Definition declaration_in (w s : jsstring) : Prop :=
  exists pre spaces c post,
    s = pre ++ w ++ spaces ++ c :: post /\
    spaces <> [] /\ forallb is_space spaces = true /\ is_word_char c = true.

(** The complex lines, and the pairs of a comment line with the complex line
    right after it. *)
Definition complex_lines (lines : list jsstring) : list jsstring :=
  filter (fun line => isComplex (trim line)) lines.

Definition documented_pairs (lines : list jsstring) : list (jsstring * jsstring) :=
  filter (fun pc => isComment (trim (fst pc)) && isComplex (trim (snd pc)))
         (combine lines (tl lines)).

(** The documented lines counted as the loop does, from a given flag. *)
Fixpoint documented_from (lastWasComment : bool) (lines : list jsstring) : Z :=
  match lines with
  | [] => 0
  | line :: rest =>
      (if isComplex (trim line) && lastWasComment then 1 else 0)
      + documented_from (isComment (trim line)) rest
  end.

(** ** Doubles

    What the properties say about a double is said about the rational it
    stands for. *)

Definition number_is (x : number) (q : Q) : Prop :=
  match x with
  | S754_zero _ => (q == 0)%Q
  | S754_finite s m e => (q == inject_Z (cond_Zopp s (Z.pos m)) * 2 ^ e)%Q
  | _ => False
  end.

(** [2 ^ -53], the relative error of one rounding to nearest at most. *)
Definition half_ulp : Q := 1 # 9007199254740992.

(** [2 ^ -52 + 2 ^ -106]: what two roundings to nearest add up to at
    most. *)
Definition two_roundings : Q :=
  (1 # 4503599627370496) + (1 # 81129638414606681695789005144064).

(** The exponent of the last place of a double with its first place at
    [e]. *)
Definition fexp64 (e : Z) : Z := Z.max (e - 53) (-1074).

(** A truncated mantissa with its round and sticky bits stands for the
    fraction [N / D]: the mantissa is its integer part, the round bit says
    whether the rest reaches one half, the sticky bit whether the rest is
    neither nothing nor one half. *)
Definition located (mrs : shr_record) (N D : Z) : Prop :=
  shr_m mrs = N / D /\
  shr_r mrs = (D <=? 2 * (N mod D)) /\
  shr_s mrs = negb ((N mod D =? 0) || (2 * (N mod D) =? D)).

(** The integer nearest to [N / D], the even one of two. *)
Definition rne (N D : Z) : Z :=
  let q := N / D in
  match 2 * (N mod D) ?= D with
  | Lt => q
  | Eq => if Z.even q then q else q + 1
  | Gt => q + 1
  end.

(** The double of value [M * 2 ^ E] for a mantissa [0 <= M <= 2 ^ 53], as
    rounding leaves it. *)
Definition pack (M E : Z) : number :=
  match (if M =? 2 ^ 53 then 2 ^ 52 else M),
        (if M =? 2 ^ 53 then E + 1 else E) with
  | Z0, _ => S754_zero false
  | Zpos m, e => if e <=? 971 then S754_finite false m e else S754_infinity false
  | Zneg _, _ => S754_nan
  end.

(** The percentage as the specification has it: the ratio itself. *)
Definition claimed_percentage (r : Coverage) : Prop :=
  if totalComplexLines r =? 0 then number_is (percentage r) 100
  else number_is (percentage r)
         (100 * inject_Z (documentedComplexLines r)
          / inject_Z (totalComplexLines r))%Q.

(** ** The report *)

(** The invariants of the report's data model. *)
Definition well_formed (r : CodeMetrics) : Prop :=
  1 <= cc_total (cyclomaticComplexity r) /\
  (0 <= nd_max (maxNestingDepth r) /\
   len (nd_locations (maxNestingDepth r)) = nd_max (maxNestingDepth r) /\
   map loc_depth (nd_locations (maxNestingDepth r)) =
     depth_tags 1 (Z.to_nat (nd_max (maxNestingDepth r)))) /\
  Forall (fun b =>
            2 <= dup_occurrences b /\
            dup_occurrences b = len (dup_locations b) /\
            StronglySorted Z.lt (map ref_line (dup_locations b)))
         (duplicatedCodeBlocks r) /\
  (0 <= documentedComplexLines (documentationCoverage r)
     <= totalComplexLines (documentationCoverage r)) /\
  (exists q, number_is (percentage (documentationCoverage r)) q /\
             (0 <= q /\ q <= 100)%Q).

(** ** Example inputs *)

(** A line feed. *)
Definition nl : jsstring := [10%N].

(** The nested example of the README: three blocks, one inside the other. *)
Definition nested_example : list jsstring :=
  [str "if (a) {"; str "  for (b) {"; str "    while (c) {";
   str "    }"; str "  }"; str "}"].

(** The same line at 2 and 5, between closing punctuation that repeats. *)
Definition duplicate_example : list jsstring :=
  [str "});"; str "  const x = 1;"; str "});"; str "y"; str "const x = 1;  ";
   str "});"].

(** A comment line, then a conditional. *)
Definition commented_example : jsstring := str "// comment" ++ nl ++ str "if (x) { }".

(** Three conditionals, the first one under a comment. *)
Definition one_of_three_example : list jsstring :=
  [str "// first"; str "if (a) { }"; str "if (b) { }"; str "if (c) { }"].

(** * The first version of the analyzers

    The functions of index.ts that differ from the ones above: the
    complexity is counted pattern by pattern on the whole text, and the
    nesting depth counts braces.  Its [findDuplicatedCode] and
    [analyzeDocumentation] are line for line the ones above. *)

Module IndexTs.

(** [/\bif\b/g], [/\belse\s+if\b/g], [/\bwhile\b/g], [/\bfor\b/g],
    [/\bcase\b/g], [/\bcatch\b/g], [/\b&&\b/g], [/\b\|\|\b/g], [/\?/g] *)
Definition decisionPatterns : list regex :=
  [ word_re (str "if"); elseIfRe; word_re (str "while"); word_re (str "for");
    word_re (str "case"); word_re (str "catch");
    seqs [WordB; kw "&&"; WordB]; seqs [WordB; kw "||"; WordB]; kw "?" ].

(** [sourceCode.match(pattern)] and the length added when it is not
    [null]. *)
Definition matches (pattern : regex) (sourceCode : jsstring) : Z :=
  match match_global pattern sourceCode with
  | Some ms => len ms
  | None => 0
  end.

Definition calculateCyclomaticComplexity (sourceCode : jsstring) : Z :=
  fold_left (fun complexity pattern => complexity + matches pattern sourceCode)
            decisionPatterns 1.

(** [/{/g] *)
Definition openRe : regex := kw "{".

Record depthState : Type := { maxDepth : Z; currentDepth : Z }.

(** The body of the loop: [currentDepth += openBraces - closeBraces], then
    [maxDepth = Math.max(maxDepth, currentDepth)]. *)
Definition depth_line (st : depthState) (line : jsstring) : depthState :=
  let openBraces := matches openRe line in
  let closeBraces := matches closeRe line in
  let currentDepth' := currentDepth st + (openBraces - closeBraces) in
  {| maxDepth := Z.max (maxDepth st) currentDepth';
     currentDepth := currentDepth' |}.

Definition calculateMaxNestingDepth (lines : list jsstring) : Z :=
  maxDepth (fold_left depth_line lines {| maxDepth := 0; currentDepth := 0 |}).

End IndexTs.

(** * More of the code *)

(** ** displayMetrics: the check of every reported block

    The renderer reads the lines of the source again by number and compares
    them with the code of the block. *)

(** [sourceCode.split('\n')[line - 1].trim()]: outside the array the element
    is [undefined] and [trim] throws, which is [None] here. *)
Definition line_at (sourceCode : jsstring) (line : Z) : option jsstring :=
  let lines := split_lines sourceCode in
  if line - 1 <? 0 then None
  else match nth_error lines (Z.to_nat (line - 1)) with
       | Some text => Some (trim text)
       | None => None
       end.

(** [locations.every(loc => ... duplicateCode === code.trim())]: stops at
    the first location that differs. *)
Fixpoint every_location (sourceCode code : jsstring) (locations : list LineRef)
  : option bool :=
  match locations with
  | [] => Some true
  | loc :: rest =>
      match line_at sourceCode (ref_line loc) with
      | Some duplicateCode =>
          if string_eqb duplicateCode (trim code)
          then every_location sourceCode code rest
          else Some false
      | None => None
      end
  end.

Definition isDuplication (sourceCode : jsstring) (block : DuplicateBlock) : option bool :=
  every_location sourceCode (dup_code block) (dup_locations block).

(** ** Notions for the further properties *)

(** [lines.join('\n')] *)
Fixpoint join_lines (lines : list jsstring) : jsstring :=
  match lines with
  | [] => []
  | [line] => line
  | line :: rest => line ++ nl ++ join_lines rest
  end.

(** [n] conditionals, each one opened inside the one before. *)
Definition nested_text (n : nat) : jsstring :=
  join_lines (repeat (str "if (x) {") n).

(** The first line number of a block, and of an entry of the map. *)
Definition first_location (b : DuplicateBlock) : Z :=
  hd 0 (map ref_line (dup_locations b)).

Definition entry_head (entry : jsstring * list Z) : Z := hd 0 (snd entry).

(** The entries of the map are in the order of their first lines, all of
    them among the first [i] lines. *)
Definition fd_ordered (m : JsMap) (i : Z) : Prop :=
  StronglySorted Z.lt (map entry_head m) /\
  Forall (fun entry => snd entry <> [] /\ entry_head entry <= i) m.

(** A location moved down by [k] lines. *)
Definition shift_location (k : Z) (loc : ComplexityLocation) : ComplexityLocation :=
  {| loc_line := loc_line loc + k; loc_code := loc_code loc;
     loc_depth := loc_depth loc |}.

(** The lines on which the opening rule fires. *)
Definition opening_lines (lines : list jsstring) : list jsstring :=
  filter (fun line => opens (trim line)) lines.

(** [number] is the 1-based number of an opening line of [lines] and [code]
    is its trimmed text. *)
Definition opening_line_at (lines : list jsstring) (number : Z) (code : jsstring) : Prop :=
  1 <= number <= len lines /\
  exists line,
    nth_error lines (Z.to_nat (number - 1)) = Some line /\
    code = trim line /\ opens (trim line) = true.

(** The frames of a stack are opening lines of [lines], deeper frames
    further down in the text. *)
Definition frames_ok (lines : list jsstring) (frames : list Frame) : Prop :=
  Forall (fun fr => opening_line_at lines (fr_line fr) (fr_code fr)) frames /\
  StronglySorted Z.lt (map fr_line frames).

(** What the scan keeps about the lines read so far. *)
Definition nd_frames (lines : list jsstring) (st : ndState) : Prop :=
  nd_inv st /\
  frames_ok lines (stack st) /\
  (exists frames, deepest st = snapshot frames /\ frames_ok lines frames) /\
  maxDepth st <= len (opening_lines lines).

(** The lines whose trimmed text is a comment. *)
Definition comment_lines (lines : list jsstring) : list jsstring :=
  filter (fun line => isComment (trim line)) lines.

(** The number of positions of [s] at which [f] holds. *)
Fixpoint count_where (f : option char -> jsstring -> bool)
    (prev : option char) (s : jsstring) : nat :=
  match s with
  | [] => O
  | c :: s' => ((if f prev s then 1 else 0) + count_where f (Some c) s')%nat
  end.

(** [op] stands at the position between two word characters. *)
Definition between_words_at (op : jsstring) (prev : option char) (s : jsstring) : bool :=
  is_word_opt prev && startsWith s op
  && is_word_opt (hd_error (skipn (length op) s)).

(** The number of [c] in a line, and the braces opened less the braces
    closed over some lines. *)
Definition count_char (c : char) (line : jsstring) : Z :=
  len (filter (N.eqb c) line).

Definition brace_balance (lines : list jsstring) : Z :=
  sumZ (map (fun line => count_char (chr "{") line - count_char (chr "}") line)
            lines).

(** * Properties *)

(** ** Lists and arrays *)

Lemma len_app {A : Type} (l1 l2 : list A) : len (l1 ++ l2) = len l1 + len l2.
Proof. unfold len. rewrite length_app. lia. Qed.

Lemma len_cons {A : Type} (a : A) (l : list A) : len (a :: l) = 1 + len l.
Proof. unfold len. simpl length. lia. Qed.

Lemma len_nonneg {A : Type} (l : list A) : 0 <= len l.
Proof. unfold len. lia. Qed.

Lemma len_removelast {A : Type} (l : list A) :
  l <> [] -> len (removelast l) = len l - 1.
Proof.
  intros Hne. destruct (exists_last Hne) as [l' [a ->]].
  rewrite removelast_last, len_app. unfold len. simpl. lia.
Qed.

Lemma last_cons {A : Type} (a d : A) (l : list A) : last (a :: l) d = last l a.
Proof.
  revert a d. induction l as [|b l IH]; intros a d; [reflexivity|].
  change (last (b :: l) d = last (b :: l) a). now rewrite !IH.
Qed.

Lemma last_app_cons {A : Type} (l1 l2 : list A) (a d : A) :
  last (l1 ++ a :: l2) d = last l2 a.
Proof.
  revert d. induction l1 as [|b l1 IH]; intros d; simpl app; [apply last_cons|].
  rewrite last_cons. apply IH.
Qed.

Lemma mapi_length {A B : Type} (f : A -> Z -> B) (l : list A) :
  forall i, length (mapi f i l) = length l.
Proof. induction l as [|a l IH]; intros i; simpl; [|rewrite IH]; reflexivity. Qed.

Lemma snapshot_len (st : list Frame) : len (snapshot st) = len st.
Proof. unfold snapshot, len. now rewrite mapi_length. Qed.

Lemma snapshot_tags (st : list Frame) :
  map loc_depth (snapshot st) = depth_tags 1 (length st).
Proof.
  unfold snapshot. change 1 with (0 + 1) at 2. generalize 0.
  induction st as [|a st IH]; intros i; simpl; [reflexivity|].
  now rewrite IH.
Qed.

(** ** The nesting state machine *)

Lemma nd_init_inv : nd_inv nd_init.
Proof. unfold nd_inv; simpl; unfold len; simpl; lia. Qed.

Lemma nd_open_inv (st : ndState) (t : jsstring) (index : Z) :
  nd_inv st -> nd_inv (nd_open st t index).
Proof.
  intros (Hs & Hd & Hle). unfold nd_open.
  destruct (opens t); [|repeat split; assumption].
  destruct (Z.gtb_spec (currentDepth st + 1) (maxDepth st)) as [Hgt | Hgt];
    unfold nd_inv; simpl; rewrite ?snapshot_len, ?len_app;
    change (len [_]) with 1; repeat split; lia.
Qed.

Lemma nd_close_positive (st : ndState) :
  nd_inv st -> 0 < currentDepth st ->
  currentDepth (nd_close st) = currentDepth st - 1 /\
  stack (nd_close st) = removelast (stack st) /\
  len (stack (nd_close st)) = len (stack st) - 1.
Proof.
  intros (Hs & _) Hpos. unfold nd_close; simpl.
  assert (Hgt : (len (stack st) >? 0) = true)
    by (destruct (Z.gtb_spec (len (stack st)) 0); [reflexivity | lia]).
  rewrite Hgt. repeat split; [lia|].
  apply len_removelast. intros Hnil. rewrite Hnil in Hs.
  unfold len in Hs; simpl in Hs; lia.
Qed.

Lemma nd_close_zero (st : ndState) :
  nd_inv st -> currentDepth st = 0 -> nd_close st = st.
Proof.
  intros (Hs & _) Hz. unfold nd_close.
  assert (Hgt : (len (stack st) >? 0) = false)
    by (destruct (Z.gtb_spec (len (stack st)) 0); [lia | reflexivity]).
  rewrite Hgt, Hz. destruct st; simpl in *. now rewrite Hz.
Qed.

Lemma nd_close_inv (st : ndState) : nd_inv st -> nd_inv (nd_close st).
Proof.
  intros Hinv. destruct (Z.eq_dec (currentDepth st) 0) as [Hz | Hnz].
  - now rewrite (nd_close_zero _ Hinv Hz).
  - pose proof (len_nonneg (stack st)) as Hn.
    destruct Hinv as (Hs & Hd & Hle).
    destruct (@nd_close_positive st) as (Hc & _ & Hl);
      [repeat split; assumption | lia |].
    unfold nd_inv. rewrite Hl, Hc. simpl. repeat split; lia.
Qed.

Lemma nd_iter_close_inv (n : nat) (st : ndState) :
  nd_inv st -> nd_inv (Nat.iter n nd_close st).
Proof. intros H; induction n; simpl; [assumption | now apply nd_close_inv]. Qed.

Lemma nd_line_inv (st : ndState) (line : jsstring) (index : Z) :
  nd_inv st -> nd_inv (nd_line st line index).
Proof. intros H. unfold nd_line. now apply nd_iter_close_inv, nd_open_inv. Qed.

Lemma forEach_nd_inv (lines : list jsstring) :
  forall index st, nd_inv st -> nd_inv (forEach nd_line lines index st).
Proof.
  induction lines as [|l ls IH]; intros index st H; simpl; [assumption|].
  now apply IH, nd_line_inv.
Qed.

Create HintDb nesting.
#[local] Hint Resolve nd_init_inv nd_open_inv nd_close_inv nd_iter_close_inv
  nd_line_inv forEach_nd_inv : nesting.

Lemma close_trace_inv (n : nat) :
  forall st, nd_inv st -> Forall nd_inv (close_trace n st).
Proof.
  induction n as [|n IH]; intros st H; simpl; constructor; auto with nesting.
Qed.

Lemma scan_trace_inv (lines : list jsstring) :
  forall index st, nd_inv st -> Forall nd_inv (scan_trace lines index st).
Proof.
  induction lines as [|l ls IH]; intros index st H; [constructor|].
  change (Forall nd_inv (line_trace st l index ++
                         scan_trace ls (index + 1) (nd_line st l index))).
  apply Forall_app; split.
  - unfold line_trace. constructor; [|apply close_trace_inv]; auto with nesting.
  - auto with nesting.
Qed.

Lemma nesting_trace_inv (lines : list jsstring) :
  Forall nd_inv (nesting_trace lines).
Proof.
  unfold nesting_trace. constructor; [apply nd_init_inv|].
  apply scan_trace_inv, nd_init_inv.
Qed.

Lemma close_trace_last (n : nat) :
  forall st, last (close_trace n st) st = Nat.iter n nd_close st.
Proof.
  induction n as [|n IH]; intros st; [reflexivity|].
  rewrite Nat.iter_succ_r, <- IH.
  change (close_trace (S n) st) with (nd_close st :: close_trace n (nd_close st)).
  apply last_cons.
Qed.

Lemma forEach_app {S : Type} (f : S -> jsstring -> Z -> S) (l1 l2 : list jsstring) :
  forall index st,
    forEach f (l1 ++ l2) index st = forEach f l2 (index + len l1) (forEach f l1 index st).
Proof.
  induction l1 as [|a l1 IH]; intros index st; simpl.
  - unfold len; simpl. now rewrite Z.add_0_r.
  - rewrite IH. f_equal. unfold len; simpl length. lia.
Qed.

Lemma scan_trace_last (lines : list jsstring) :
  forall index st,
    last (scan_trace lines index st) st = forEach nd_line lines index st.
Proof.
  induction lines as [|l ls IH]; intros index st; [reflexivity|].
  change (last (line_trace st l index ++
                scan_trace ls (index + 1) (nd_line st l index)) st
          = forEach nd_line ls (index + 1) (nd_line st l index)).
  rewrite <- IH. unfold line_trace.
  destruct (scan_trace ls (index + 1) (nd_line st l index)) as [|x tr] eqn:E.
  - rewrite app_nil_r, last_cons. apply close_trace_last.
  - simpl app. rewrite last_cons, last_app_cons. now rewrite last_cons.
Qed.

(** Closing [n] braces in a row: the depth is floored at zero and the stack
    loses its last [n] frames, or all of them. *)
Lemma nd_iter_close (n : nat) (st : ndState) :
  nd_inv st ->
  currentDepth (Nat.iter n nd_close st) = Z.max 0 (currentDepth st - Z.of_nat n) /\
  stack (Nat.iter n nd_close st) = firstn (length (stack st) - n) (stack st).
Proof.
  intros Hinv. induction n as [|n [IHd IHs]].
  - simpl. rewrite Nat.sub_0_r, firstn_all. destruct Hinv as (Hs & _).
    pose proof (len_nonneg (stack st)). split; [lia | reflexivity].
  - pose proof (nd_iter_close_inv n _ Hinv) as Hn.
    change (Nat.iter (S n) nd_close st) with (nd_close (Nat.iter n nd_close st)).
    destruct (Z.eq_dec (currentDepth (Nat.iter n nd_close st)) 0) as [Hz | Hnz].
    + rewrite (nd_close_zero _ Hn Hz). destruct Hinv as (Hs & _).
      unfold len in Hs. split; [lia|]. rewrite IHs.
      replace (length (stack st) - S n)%nat with O by lia.
      replace (length (stack st) - n)%nat with O by lia. reflexivity.
    + destruct Hn as (Hs' & Hrest). pose proof (len_nonneg (stack (Nat.iter n nd_close st))).
      destruct (@nd_close_positive (Nat.iter n nd_close st)) as (Hc & Hst & _);
        [repeat split; tauto | lia |].
      destruct Hinv as (Hs & _). unfold len in Hs.
      split; [lia|]. rewrite Hst, IHs.
      assert (Hlt : (n < length (stack st))%nat) by lia.
      rewrite <- (firstn_skipn (length (stack st) - S n)
                    (firstn (length (stack st) - n) (stack st))) at 1.
      rewrite firstn_firstn.
      replace (Nat.min (length (stack st) - S n) (length (stack st) - n))
        with (length (stack st) - S n)%nat by lia.
      assert (Hone : length (skipn (length (stack st) - S n)
                               (firstn (length (stack st) - n) (stack st))) = 1%nat).
      { rewrite length_skipn, length_firstn. lia. }
      destruct (skipn (length (stack st) - S n)
                  (firstn (length (stack st) - n) (stack st))) as [|x [|y r]];
        try discriminate.
      apply removelast_last.
Qed.

Lemma first_peak_init : first_peak [nd_init] nd_init.
Proof.
  repeat split.
  - constructor; [simpl; lia | constructor].
  - simpl. lia.
Qed.

Lemma first_peak_same (tr : list ndState) (st st' : ndState) :
  first_peak tr st ->
  maxDepth st' = maxDepth st -> deepest st' = deepest st ->
  currentDepth st' <= maxDepth st ->
  first_peak (tr ++ [st']) st'.
Proof.
  intros (Hall & Hz & Hpos) Hm Hd Hle. unfold first_peak. rewrite Hm, Hd.
  repeat split.
  - apply Forall_app; split; [assumption|]. constructor; [assumption | constructor].
  - assumption.
  - intros H. destruct (Hpos H) as (before & s & after & -> & Hb & Hc & Hs).
    exists before, s, (after ++ [st']). rewrite <- app_assoc. simpl.
    repeat split; assumption.
Qed.

Lemma first_peak_close (tr : list ndState) (st : ndState) :
  first_peak tr st -> nd_inv st -> first_peak (tr ++ [nd_close st]) (nd_close st).
Proof.
  intros Hp Hinv. apply first_peak_same with (st := st); try reflexivity; try assumption.
  destruct Hinv as (_ & Hd & Hle). pose proof (len_nonneg (deepest st)).
  simpl. lia.
Qed.

Lemma first_peak_open (tr : list ndState) (st : ndState) (t : jsstring) (index : Z) :
  first_peak tr st -> nd_inv st ->
  first_peak (tr ++ [nd_open st t index]) (nd_open st t index).
Proof.
  intros Hp Hinv. pose proof Hinv as (Hs & Hd & Hle). unfold nd_open.
  destruct (opens t).
  - destruct (Z.gtb_spec (currentDepth st + 1) (maxDepth st)) as [Hgt | Hgt].
    + destruct Hp as (Hall & _ & _). unfold first_peak. simpl.
      pose proof (len_nonneg (stack st)).
      split; [|split].
      * apply Forall_app; split.
        -- eapply Forall_impl; [|exact Hall]. simpl. intros; lia.
        -- constructor; [simpl; lia | constructor].
      * lia.
      * intros _. eexists tr, _, []. split; [reflexivity|].
        split; [|split; reflexivity].
        eapply Forall_impl; [|exact Hall]. simpl. intros; lia.
    + apply first_peak_same with (st := st); try reflexivity; assumption.
  - apply first_peak_same with (st := st); try reflexivity; assumption.
Qed.

Lemma first_peak_close_trace (n : nat) :
  forall tr st,
    first_peak tr st -> nd_inv st ->
    first_peak (tr ++ close_trace n st) (Nat.iter n nd_close st).
Proof.
  induction n as [|n IH]; intros tr st Hp Hinv.
  - simpl. now rewrite app_nil_r.
  - rewrite Nat.iter_succ_r.
    change (close_trace (S n) st) with ([nd_close st] ++ close_trace n (nd_close st)).
    rewrite app_assoc. apply IH; [now apply first_peak_close | now apply nd_close_inv].
Qed.

Lemma first_peak_scan (lines : list jsstring) :
  forall index tr st,
    first_peak tr st -> nd_inv st ->
    first_peak (tr ++ scan_trace lines index st) (forEach nd_line lines index st).
Proof.
  induction lines as [|l ls IH]; intros index tr st Hp Hinv.
  - simpl. now rewrite app_nil_r.
  - change (first_peak
              (tr ++ line_trace st l index ++
               scan_trace ls (index + 1) (nd_line st l index))
              (forEach nd_line ls (index + 1) (nd_line st l index))).
    rewrite app_assoc. apply IH; [|now apply nd_line_inv].
    unfold line_trace, nd_line.
    change (?a :: ?r) with ([a] ++ r). rewrite app_assoc.
    apply first_peak_close_trace; [now apply first_peak_open | now apply nd_open_inv].
Qed.

Lemma nesting_first_peak (lines : list jsstring) :
  first_peak (nesting_trace lines) (forEach nd_line lines 0 nd_init).
Proof.
  unfold nesting_trace. change (?a :: ?r) with ([a] ++ r).
  apply first_peak_scan; [apply first_peak_init | apply nd_init_inv].
Qed.

Lemma nesting_after_step (pre : list jsstring) (line : jsstring) (post : list jsstring) :
  nesting_after (S (length pre)) (pre ++ line :: post) =
  nd_line (nesting_after (length pre) (pre ++ line :: post)) line (len pre).
Proof.
  unfold nesting_after.
  replace (firstn (length pre) (pre ++ line :: post)) with pre
    by (rewrite firstn_app, Nat.sub_diag, firstn_all; simpl; now rewrite app_nil_r).
  replace (firstn (S (length pre)) (pre ++ line :: post)) with (pre ++ [line]).
  - rewrite forEach_app. reflexivity.
  - rewrite firstn_app. replace (S (length pre) - length pre)%nat with 1%nat by lia.
    rewrite firstn_all2 by lia. reflexivity.
Qed.

(** C9: throughout the scan of [calculateMaxNestingDepth] the stack has as
    many frames as [currentDepth] says, after every line and at every state
    in between; the depth is never below zero; and the recorded snapshot has
    as many entries as the running maximum. *)
Theorem nesting_stack_length_is_depth (lines : list jsstring) (n : nat) :
  let st := nesting_after n lines in
  len (stack st) = currentDepth st /\
  0 <= currentDepth st /\
  len (deepest st) = maxDepth st /\
  Forall (fun s => len (stack s) = currentDepth s /\ len (deepest s) = maxDepth s)
         (nesting_trace lines).
Proof.
  intros st.
  assert (Hinv : nd_inv st)
    by (unfold st; try unfold nesting_after; auto with nesting).
  destruct Hinv as (Hs & Hd & Hle). pose proof (len_nonneg (stack st)).
  repeat split; try assumption; try lia.
  eapply Forall_impl; [|apply nesting_trace_inv].
  intros s (H1 & H2 & _). now split.
Qed.

Lemma scan_closeRe (s : jsstring) :
  forall prev,
    length (scan closeRe prev s 0) = length (filter (N.eqb (chr "}")) s).
Proof.
  induction s as [|c s IH]; intros prev; [reflexivity|].
  cbn [scan filter]. unfold match_here, closeRe, kw. cbn [rmatch lit str map
    list_ascii_of_string]. rewrite (N.eqb_sym (chr "}") c).
  change (N_of_ascii "}") with (chr "}").
  destruct (c =? chr "}")%N.
  - replace (length (c :: s) - length s)%nat with 1%nat by (cbn [length]; lia).
    cbn [length Nat.sub]. now rewrite IH.
  - apply IH.
Qed.

(** The closing braces of a line are its [}] characters. *)
Lemma closeBraces_count (t : jsstring) :
  closeBraces t = length (filter (N.eqb (chr "}")) t).
Proof.
  unfold closeBraces, match_global. rewrite <- (scan_closeRe t None).
  now destruct (scan closeRe None t 0).
Qed.

(** C6: on the line after [pre], the opening rule runs first and the closing
    loop runs on its result, once per [}] of the line; the depth after the line
    is the opened depth minus the braces, floored at zero, and the stack
    loses that many frames or all of them.  At every state of the scan the
    depth is not negative, a closing brace at a positive depth lowers it by
    one and pops one frame, and a closing brace at depth zero changes
    nothing. *)
Theorem nesting_close_after_open (pre : list jsstring) (line : jsstring) (post : list jsstring) :
  let lines := pre ++ line :: post in
  let opened := nd_open (nesting_after (length pre) lines) (trim line) (len pre) in
  let after := nesting_after (S (length pre)) lines in
  closeBraces (trim line) = length (filter (N.eqb (chr "}")) (trim line)) /\
  after = Nat.iter (closeBraces (trim line)) nd_close opened /\
  currentDepth after =
    Z.max 0 (currentDepth opened - Z.of_nat (closeBraces (trim line))) /\
  stack after =
    firstn (length (stack opened) - closeBraces (trim line)) (stack opened) /\
  Forall (fun st =>
            0 <= currentDepth st /\
            (0 < currentDepth st ->
             currentDepth (nd_close st) = currentDepth st - 1 /\
             stack (nd_close st) = removelast (stack st) /\
             len (stack (nd_close st)) = len (stack st) - 1) /\
            (currentDepth st = 0 -> nd_close st = st))
         (nesting_trace lines).
Proof.
  intros lines opened after.
  assert (Hafter : after = Nat.iter (closeBraces (trim line)) nd_close opened)
    by (unfold after, lines; now rewrite nesting_after_step).
  assert (Hopen : nd_inv opened)
    by (unfold opened, nesting_after; auto with nesting).
  destruct (nd_iter_close (closeBraces (trim line)) _ Hopen) as (Hd & Hs).
  split; [apply closeBraces_count|].
  rewrite Hafter. repeat split; try assumption.
  eapply Forall_impl; [|apply nesting_trace_inv].
  intros st Hinv. pose proof (len_nonneg (stack st)).
  split; [destruct Hinv as (Hl & _); lia|]. split.
  - now apply nd_close_positive.
  - now apply nd_close_zero.
Qed.

Lemma nesting_close_after_open_witness :
  let after := nesting_after 1 [str "if (x) { }"] in
  maxDepth after = 1 /\ currentDepth after = 0 /\ stack after = [].
Proof.
  destruct (@nesting_close_after_open [] (str "if (x) { }") [])
    as (_ & _ & Hd & Hs & _).
  split; [vm_compute; reflexivity|]. split.
  - etransitivity; [exact Hd | vm_compute; reflexivity].
  - etransitivity; [exact Hs | vm_compute; reflexivity].
Defined.

(** C3: when [calculateMaxNestingDepth] reports a positive maximum, the
    locations are as many as the maximum, tagged 1, 2, ..., max in order,
    and they are the snapshot of the stack at the first state of the scan
    whose depth is the maximum: every earlier state is strictly shallower,
    so a later state of the same depth does not replace it.  With a maximum
    of zero there is no location.  No state of the scan is deeper than the
    reported maximum, and the result is read off the last state. *)
Theorem nesting_locations_first_peak (lines : list jsstring) :
  let r := calculateMaxNestingDepth lines in
  (0 < nd_max r ->
   len (nd_locations r) = nd_max r /\
   map loc_depth (nd_locations r) = depth_tags 1 (Z.to_nat (nd_max r)) /\
   exists before st after,
     nesting_trace lines = before ++ st :: after /\
     Forall (fun s => currentDepth s < nd_max r) before /\
     currentDepth st = nd_max r /\
     nd_locations r = snapshot (stack st)) /\
  (nd_max r = 0 -> nd_locations r = []) /\
  0 <= nd_max r /\
  Forall (fun s => currentDepth s <= nd_max r) (nesting_trace lines) /\
  nd_max r = maxDepth (last (nesting_trace lines) nd_init) /\
  nd_locations r = deepest (last (nesting_trace lines) nd_init).
Proof.
  intros r.
  assert (Hlast : last (nesting_trace lines) nd_init = forEach nd_line lines 0 nd_init).
  { unfold nesting_trace. rewrite last_cons. apply scan_trace_last. }
  rewrite Hlast. unfold r, calculateMaxNestingDepth. simpl.
  set (st := forEach nd_line lines 0 nd_init).
  assert (Hinv : nd_inv st)
    by (unfold st; try unfold nesting_after; auto with nesting).
  destruct (nesting_first_peak lines) as (Hall & Hzero & Hpos). fold st in Hall, Hzero, Hpos.
  destruct Hinv as (Hs & Hd & Hle). pose proof (len_nonneg (deepest st)).
  split; [|split; [assumption | split; [lia | split; [assumption | now split]]]].
  intros Hgt. destruct (Hpos Hgt) as (before & s & after & Htr & Hb & Hc & Hsnap).
  split; [assumption|]. split.
  - rewrite Hsnap, snapshot_tags. f_equal.
    rewrite Hsnap, snapshot_len in Hd. unfold len in Hd. lia.
  - now exists before, s, after.
Qed.

Lemma nesting_locations_first_peak_witness :
  let r := calculateMaxNestingDepth nested_example in
  nd_max r = 3 /\
  map loc_line (nd_locations r) = [1; 2; 3] /\
  map loc_depth (nd_locations r) = [Some 1; Some 2; Some 3].
Proof.
  pose proof (nesting_locations_first_peak nested_example) as (H & _).
  assert (Hpos : 0 < nd_max (calculateMaxNestingDepth nested_example))
    by (vm_compute; reflexivity).
  destruct (H Hpos) as (_ & Htags & _).
  split; [vm_compute; reflexivity|]. split; [vm_compute; reflexivity|].
  rewrite Htags. vm_compute. reflexivity.
Defined.

(** A second block as deep as the first leaves the recorded locations on
    the first. *)
Example nesting_first_of_equal_depths :
  calculateMaxNestingDepth [str "if (a) {"; str "}"; str "if (b) {"; str "}"] =
  {| nd_max := 1;
     nd_locations := [{| loc_line := 1; loc_code := str "if (a) {";
                         loc_depth := Some 1 |}] |}.
Proof. vm_compute. reflexivity. Qed.

(** ** Duplicates *)

Lemma string_eqb_eq (a b : jsstring) : string_eqb a b = true <-> a = b.
Proof.
  revert b. induction a as [|x a IH]; intros [|y b]; simpl; split; intros H;
    try reflexivity; try discriminate.
  - apply andb_true_iff in H. destruct H as [Hx Ha].
    apply N.eqb_eq in Hx. apply IH in Ha. now subst.
  - injection H as -> ->. rewrite N.eqb_refl. now apply IH.
Qed.

Lemma string_eqb_refl (a : jsstring) : string_eqb a a = true.
Proof. now apply string_eqb_eq. Qed.

Lemma string_eqb_neq (a b : jsstring) : a <> b -> string_eqb a b = false.
Proof.
  intros H. destruct (string_eqb a b) eqn:E; [|reflexivity].
  apply string_eqb_eq in E. contradiction.
Qed.

Lemma map_get_set_same (m : JsMap) (k : jsstring) (v : list Z) :
  map_get (map_set m k v) k = Some v.
Proof.
  induction m as [|[k' v'] m IH]; simpl.
  - now rewrite string_eqb_refl.
  - destruct (string_eqb k' k) eqn:E; simpl; rewrite E; [reflexivity | assumption].
Qed.

Lemma map_get_set_other (m : JsMap) (k k0 : jsstring) (v : list Z) :
  k <> k0 -> map_get (map_set m k v) k0 = map_get m k0.
Proof.
  intros Hne. induction m as [|[k' v'] m IH]; simpl.
  - now rewrite string_eqb_neq.
  - destruct (string_eqb k' k) eqn:E; simpl.
    + apply string_eqb_eq in E. subst k'. now rewrite string_eqb_neq.
    + now rewrite IH.
Qed.

Lemma map_set_set (m : JsMap) (k : jsstring) (v v' : list Z) :
  map_set (map_set m k v) k v' = map_set m k v'.
Proof.
  induction m as [|[k' w] m IH]; simpl.
  - now rewrite string_eqb_refl.
  - destruct (string_eqb k' k) eqn:E; simpl; rewrite E; [reflexivity | now rewrite IH].
Qed.

Lemma map_set_keys_in (m : JsMap) (k : jsstring) (v : list Z) (k0 : jsstring) :
  In k0 (map fst (map_set m k v)) -> k0 = k \/ In k0 (map fst m).
Proof.
  induction m as [|[k' w] m IH]; simpl.
  - intros [H | []]. now left.
  - destruct (string_eqb k' k) eqn:E; simpl.
    + intros H. now right.
    + intros [H | H]; [right; now left|].
      destruct (IH H) as [H1 | H1]; [now left | right; now right].
Qed.

Lemma map_set_NoDup (m : JsMap) (k : jsstring) (v : list Z) :
  NoDup (map fst m) -> NoDup (map fst (map_set m k v)).
Proof.
  induction m as [|[k' w] m IH]; simpl; intros Hnd.
  - constructor; [intros [] | constructor].
  - inversion Hnd as [|? ? Hnot Hnd']; subst.
    destruct (string_eqb k' k) eqn:E; simpl.
    + now constructor.
    + constructor; [|now apply IH].
      intros Hin. apply map_set_keys_in in Hin. destruct Hin as [-> | Hin].
      * now rewrite string_eqb_refl in E.
      * contradiction.
Qed.

Lemma map_get_in (m : JsMap) (k : jsstring) (v : list Z) :
  NoDup (map fst m) -> In (k, v) m -> map_get m k = Some v.
Proof.
  induction m as [|[k' w] m IH]; simpl; intros Hnd Hin; [contradiction|].
  inversion Hnd as [|? ? Hnot Hnd']; subst.
  destruct Hin as [Heq | Hin].
  - injection Heq as -> ->. now rewrite string_eqb_refl.
  - destruct (string_eqb k' k) eqn:E; [|now apply IH].
    apply string_eqb_eq in E. subst k'.
    exfalso. apply Hnot. apply (in_map fst) in Hin. exact Hin.
Qed.

Lemma fd_line_add (m : JsMap) (line : jsstring) (i : Z) :
  fd_line m line i =
  Some (if candidate (trim line) then fd_add m (trim line) (i + 1) else m).
Proof.
  unfold fd_line, candidate.
  destruct ((len (trim line) <? minLineLength) || test trivialRegex (trim line));
    simpl; [reflexivity|].
  unfold map_has, map_push, fd_add.
  destruct (map_get m (trim line)) as [arr|] eqn:E; simpl.
  - now rewrite E.
  - now rewrite map_get_set_same, map_set_set.
Qed.

Lemma map_get_fd_add (m : JsMap) (t : jsstring) (x : Z) (k : jsstring) :
  map_get (fd_add m t x) k =
  if string_eqb t k then merge (map_get m t) [x] else map_get m k.
Proof.
  unfold fd_add. destruct (string_eqb t k) eqn:E.
  - apply string_eqb_eq in E. subst k. rewrite map_get_set_same.
    now destruct (map_get m t).
  - apply map_get_set_other. intros ->. now rewrite string_eqb_refl in E.
Qed.

Lemma merge_cons (old : option (list Z)) (x : Z) (l : list Z) :
  merge (merge old [x]) l = merge old (x :: l).
Proof. destruct old; simpl; [now rewrite <- app_assoc | reflexivity]. Qed.

(** The map the loop builds: under each key, what was there followed by the
    numbers of the kept lines equal to the key. *)
Lemma fd_loop_spec (lines : list jsstring) :
  forall i m,
    NoDup (map fst m) ->
    exists m',
      fd_loop lines i m = Some m' /\
      NoDup (map fst m') /\
      forall k, map_get m' k = merge (map_get m k) (candidate_numbers k lines (i + 1)).
Proof.
  induction lines as [|line rest IH]; intros i m Hnd.
  - exists m. repeat split; [assumption|]. intros k. now destruct (map_get m k); simpl;
      rewrite ?app_nil_r.
  - simpl. rewrite fd_line_add.
    destruct (candidate (trim line)) eqn:Hc.
    + destruct (IH (i + 1) (fd_add m (trim line) (i + 1))) as (m' & Hloop & Hnd' & Hget).
      { now apply map_set_NoDup. }
      exists m'. repeat split; try assumption. intros k.
      rewrite Hget, map_get_fd_add. simpl.
      destruct (string_eqb (trim line) k) eqn:E; [|reflexivity].
      apply string_eqb_eq in E. subst k. apply merge_cons.
    + destruct (IH (i + 1) m Hnd) as (m' & Hloop & Hnd' & Hget).
      exists m'. repeat split; assumption.
Qed.

Lemma line_numbers_bound (code : jsstring) (lines : list jsstring) :
  forall n, Forall (fun x => n <= x) (line_numbers_of code lines n).
Proof.
  induction lines as [|l ls IH]; intros n; simpl; [constructor|].
  assert (H : Forall (fun x => n <= x) (line_numbers_of code ls (n + 1)))
    by (eapply Forall_impl; [|apply IH]; simpl; intros; lia).
  destruct (string_eqb (trim l) code); [constructor; [lia | exact H] | exact H].
Qed.

Lemma line_numbers_sorted (code : jsstring) (lines : list jsstring) :
  forall n, StronglySorted Z.lt (line_numbers_of code lines n).
Proof.
  induction lines as [|l ls IH]; intros n; simpl; [constructor|].
  destruct (string_eqb (trim l) code); [|apply IH].
  constructor; [apply IH|].
  eapply Forall_impl; [|apply line_numbers_bound]. simpl. intros; lia.
Qed.

Lemma candidate_numbers_in (code : jsstring) (lines : list jsstring) :
  forall n, candidate_numbers code lines n <> [] ->
            candidate code = true /\ exists line, In line lines /\ code = trim line.
Proof.
  induction lines as [|l ls IH]; intros n; simpl; [congruence|].
  destruct (candidate (trim l) && string_eqb (trim l) code) eqn:E.
  - intros _. apply andb_true_iff in E. destruct E as [Hc He].
    apply string_eqb_eq in He. subst code. split; [assumption|].
    exists l. split; [now left | reflexivity].
  - intros H. destruct (IH _ H) as (Hc & line & Hin & Heq).
    split; [assumption|]. exists line. split; [now right | assumption].
Qed.

Lemma candidate_numbers_all (code : jsstring) (lines : list jsstring) :
  candidate code = true ->
  forall n, candidate_numbers code lines n = line_numbers_of code lines n.
Proof.
  intros Hc. induction lines as [|l ls IH]; intros n; simpl; [reflexivity|].
  rewrite IH. destruct (string_eqb (trim l) code) eqn:E.
  - apply string_eqb_eq in E. rewrite E, Hc. reflexivity.
  - now rewrite andb_false_r.
Qed.

Lemma search_bol_inside (r : regex) (s : jsstring) :
  forall c, search (Seq Bol r) (Some c) s = false.
Proof. induction s as [|a s IH]; intros c; simpl; [reflexivity | apply IH]. Qed.

Lemma star_to_end (p : char -> bool) (k : cont) :
  (forall prev, k prev [] = Some []) ->
  (forall prev c s, k prev (c :: s) = None) ->
  forall s prev, star p prev s k = if forallb p s then Some [] else None.
Proof.
  intros Hnil Hcons s.
  induction s as [|c s IH]; intros prev; simpl; [apply Hnil|].
  destruct (p c); simpl; [|apply Hcons].
  rewrite IH, Hcons. now destruct (forallb p s).
Qed.

Lemma test_trivialRegex (s : jsstring) :
  test trivialRegex s = negb (Nat.eqb (length s) 0) && forallb is_punct s.
Proof.
  unfold test, trivialRegex. cbn [seqs].
  destruct s as [|c s]; [reflexivity|].
  cbn [search]. rewrite search_bol_inside.
  unfold match_here. cbn [rmatch length Nat.eqb negb andb forallb].
  destruct (is_punct c); [|reflexivity].
  rewrite star_to_end by (intros; reflexivity). now destruct (forallb is_punct s).
Qed.

Lemma is_punct_spec (c : char) :
  is_punct c = true <-> c = chr ")" \/ c = chr "}" \/ c = chr ";".
Proof.
  unfold is_punct, is_char. rewrite !orb_true_iff, !N.eqb_eq. tauto.
Qed.

Lemma test_trivialRegex_spec (s : jsstring) :
  test trivialRegex s = true <-> pure_punctuation s.
Proof.
  rewrite test_trivialRegex, andb_true_iff, negb_true_iff, Nat.eqb_neq, forallb_forall.
  unfold pure_punctuation. rewrite Forall_forall. split; intros [Hne Hall]; split.
  - intros ->. now apply Hne.
  - intros c Hc. now apply is_punct_spec, Hall.
  - intros Hl. apply Hne. now apply length_zero_iff_nil.
  - intros c Hc. now apply is_punct_spec, Hall.
Qed.

Lemma candidate_spec (t : jsstring) :
  candidate t = true <-> 3 <= len t /\ ~ pure_punctuation t.
Proof.
  unfold candidate, minLineLength.
  rewrite negb_true_iff, orb_false_iff, Z.ltb_ge, <- test_trivialRegex_spec.
  destruct (test trivialRegex t); intuition congruence.
Qed.

Lemma fd_block_in (m : JsMap) (b : DuplicateBlock) :
  In b (map fd_block (filter (fun entry => len (snd entry) >? 1) m)) ->
  exists v, In (dup_code b, v) m /\ 2 <= len v /\
            dup_occurrences b = len v /\ map ref_line (dup_locations b) = v.
Proof.
  intros Hin. apply in_map_iff in Hin. destruct Hin as ([k v] & <- & Hin).
  apply filter_In in Hin. destruct Hin as (Hin & Hlen). simpl in *.
  exists v. repeat split; try assumption.
  - destruct (Z.gtb_spec (len v) 1); [lia | discriminate].
  - rewrite map_map. simpl. apply map_id.
Qed.

Lemma filter_keys_NoDup (m : JsMap) (f : jsstring * list Z -> bool) :
  NoDup (map fst m) -> NoDup (map dup_code (map fd_block (filter f m))).
Proof.
  rewrite map_map.
  replace (map (fun x => dup_code (fd_block x)) (filter f m)) with (map fst (filter f m))
    by (apply map_ext; now intros [k v]).
  induction m as [|[k v] m IH]; simpl; intros Hnd; [constructor|].
  inversion Hnd as [|? ? Hnot Hnd']; subst.
  destruct (f (k, v)); [|now apply IH].
  simpl. constructor; [|now apply IH].
  intros Hin. apply Hnot. apply in_map_iff in Hin. destruct Hin as (e & He & Hin).
  apply filter_In in Hin. apply in_map_iff. exists e. tauto.
Qed.

(** What [findDuplicatedCode] returns, block by block. *)
Lemma findDuplicatedCode_spec (lines : list jsstring) :
  exists blocks,
    findDuplicatedCode lines = Some blocks /\
    NoDup (map dup_code blocks) /\
    forall b, In b blocks ->
      candidate (dup_code b) = true /\
      2 <= dup_occurrences b /\
      dup_occurrences b = len (dup_locations b) /\
      map ref_line (dup_locations b) = line_numbers_of (dup_code b) lines 1 /\
      exists line, In line lines /\ dup_code b = trim line.
Proof.
  destruct (@fd_loop_spec lines 0 []) as (m & Hloop & Hnd & Hget); [constructor|].
  unfold findDuplicatedCode. rewrite Hloop. eexists. split; [reflexivity|].
  split; [now apply filter_keys_NoDup|].
  intros b Hin. apply fd_block_in in Hin.
  destruct Hin as (v & Hin & Hlen & Hocc & Hlocs).
  pose proof (@map_get_in _ _ _ Hnd Hin) as Hv. rewrite Hget in Hv. simpl in Hv.
  assert (Hcn : candidate_numbers (dup_code b) lines 1 = v)
    by (destruct (candidate_numbers (dup_code b) lines 1); congruence).
  assert (Hne : candidate_numbers (dup_code b) lines 1 <> [])
    by (rewrite Hcn; intros ->; unfold len in Hlen; simpl in Hlen; lia).
  destruct (@candidate_numbers_in _ _ _ Hne) as (Hc & line & Hl & Ht).
  split; [assumption|]. split; [lia|]. split.
  - rewrite Hocc, <- Hlocs. unfold len. now rewrite length_map.
  - split; [|now exists line].
    now rewrite Hlocs, <- Hcn, candidate_numbers_all.
Qed.

Lemma line_numbers_of_In (code : jsstring) (lines : list jsstring) :
  forall k n,
    In n (line_numbers_of code lines k) <->
    k <= n /\
    exists line, nth_error lines (Z.to_nat (n - k)) = Some line /\ trim line = code.
Proof.
  induction lines as [|l ls IH]; intros k n.
  - simpl. split; [contradiction|]. intros (_ & line & H & _).
    now destruct (Z.to_nat (n - k)).
  - assert (Hrest : In n (line_numbers_of code ls (k + 1)) <->
                    k < n /\
                    exists line,
                      nth_error (l :: ls) (Z.to_nat (n - k)) = Some line /\
                      trim line = code).
    { rewrite IH. split.
      - intros (Hle & line & Hnth & Ht). split; [lia|]. exists line.
        replace (Z.to_nat (n - k)) with (S (Z.to_nat (n - (k + 1)))) by lia.
        now split.
      - intros (Hlt & line & Hnth & Ht). split; [lia|]. exists line.
        replace (Z.to_nat (n - k)) with (S (Z.to_nat (n - (k + 1)))) in Hnth by lia.
        now split. }
    cbn [line_numbers_of]. destruct (string_eqb (trim l) code) eqn:E.
    + apply string_eqb_eq in E. cbn [In]. rewrite Hrest. split.
      * intros [<- | (Hlt & H)]; [|split; [lia | exact H]].
        split; [lia|]. exists l. now rewrite Z.sub_diag.
      * intros (Hle & H). destruct (Z.eq_dec k n) as [-> | Hne]; [now left|].
        right. split; [lia | exact H].
    + rewrite Hrest. split.
      * intros (Hlt & H). split; [lia | exact H].
      * intros (Hle & line & Hnth & Ht).
        destruct (Z.eq_dec k n) as [-> | Hne]; [|split; [lia | now exists line]].
        rewrite Z.sub_diag in Hnth. simpl in Hnth. injection Hnth as ->.
        apply string_eqb_eq in Ht. congruence.
Qed.

(** C5: [findDuplicatedCode] returns, and every block it returns stands
    for at least two lines, its code is the trimmed text of a line, at least
    three characters long and not pure punctuation; the location numbers of
    a block are the numbers of exactly the lines whose trimmed text equals
    its code, character for character, in strictly ascending order; and no
    two blocks have the same code.  Closing punctuation repeated three times
    and a line of two characters repeated twice give no block, and neither
    do two lines that differ in case only. *)
Theorem duplicates_blocks_sound (lines : list jsstring) :
  (exists blocks,
     findDuplicatedCode lines = Some blocks /\
     NoDup (map dup_code blocks) /\
     forall b, In b blocks ->
       2 <= dup_occurrences b /\
       3 <= len (dup_code b) /\
       ~ pure_punctuation (dup_code b) /\
       test trivialRegex (dup_code b) = false /\
       (exists line, In line lines /\ dup_code b = trim line) /\
       (forall n, In n (map ref_line (dup_locations b)) <->
                  1 <= n /\
                  exists line,
                    nth_error lines (Z.to_nat (n - 1)) = Some line /\
                    trim line = dup_code b) /\
       StronglySorted Z.lt (map ref_line (dup_locations b))) /\
  findDuplicatedCode [str "});"; str "ab"; str "  });"; str "ab"; str "});"] = Some [] /\
  findDuplicatedCode [str "Total"; str "total"] = Some [].
Proof.
  split; [|split; vm_compute; reflexivity].
  destruct (findDuplicatedCode_spec lines) as (blocks & Hret & Hnd & Hall).
  exists blocks. split; [exact Hret|]. split; [exact Hnd|].
  intros b Hb. destruct (Hall b Hb) as (Hc & Hocc & _ & Hlocs & Hline).
  apply candidate_spec in Hc. destruct Hc as [Hlen Hpunct].
  split; [exact Hocc|]. split; [exact Hlen|]. split; [exact Hpunct|]. split.
  - destruct (test trivialRegex (dup_code b)) eqn:E; [|reflexivity].
    exfalso. now apply Hpunct, test_trivialRegex_spec.
  - split; [exact Hline|]. rewrite Hlocs. split; [|apply line_numbers_sorted].
    intros n. apply line_numbers_of_In.
Qed.

Lemma duplicates_blocks_sound_witness :
  exists b,
    findDuplicatedCode duplicate_example = Some [b] /\
    2 <= dup_occurrences b /\ 3 <= len (dup_code b) /\
    map ref_line (dup_locations b) = [2; 5].
Proof.
  destruct (duplicates_blocks_sound duplicate_example)
    as ((blocks & Hret & _ & Hall) & _).
  vm_compute in Hret. injection Hret as <-.
  eexists. split; [vm_compute; reflexivity|].
  destruct (Hall _ (or_introl eq_refl)) as (H2 & H3 & _).
  split; [exact H2|]. split; [exact H3|]. vm_compute. reflexivity.
Defined.

(** C10: in every block that [findDuplicatedCode] returns, [occurrences]
    is the number of recorded locations. *)
Theorem duplicates_occurrences_is_length (lines : list jsstring) :
  exists blocks,
    findDuplicatedCode lines = Some blocks /\
    Forall (fun b => dup_occurrences b = len (dup_locations b)) blocks.
Proof.
  destruct (findDuplicatedCode_spec lines) as (blocks & Hret & _ & Hall).
  exists blocks. split; [assumption|]. apply Forall_forall. intros b Hb.
  now destruct (Hall b Hb) as (_ & _ & H & _).
Qed.

(** ** The matcher on the patterns of the analyzers *)

Lemma startsWith_app (w rest : jsstring) : startsWith (w ++ rest) w = true.
Proof. induction w as [|a w IH]; simpl; [reflexivity|]. now rewrite N.eqb_refl. Qed.

Lemma startsWith_skipn (s w : jsstring) :
  startsWith s w = true -> s = w ++ skipn (length w) s.
Proof.
  revert s. induction w as [|a w IH]; intros s H; simpl in *; [reflexivity|].
  destruct s as [|c s]; [discriminate|].
  apply andb_true_iff in H. destruct H as [Hc Hs]. apply N.eqb_eq in Hc. subst c.
  simpl. f_equal. now apply IH.
Qed.

Lemma startsWith_hd (s w : jsstring) :
  w <> [] -> startsWith s w = true -> hd_error s = hd_error w.
Proof.
  intros Hne H. destruct w as [|a w]; [contradiction|].
  destruct s as [|c s]; simpl in *; [discriminate|].
  apply andb_true_iff in H. destruct H as [Hc _]. apply N.eqb_eq in Hc. now subst.
Qed.

Lemma skipn_app_length (w rest : jsstring) : skipn (length w) (w ++ rest) = rest.
Proof. induction w; simpl; auto. Qed.

Lemma lit_spec (w : jsstring) (k : cont) :
  forall prev s,
    lit w prev s k =
    if startsWith s w then k (last_opt w prev) (skipn (length w) s) else None.
Proof.
  induction w as [|a w IH]; intros prev s; simpl; [reflexivity|].
  destruct s as [|c s]; [reflexivity|].
  destruct (N.eqb_spec c a) as [->|Hne]; simpl; [apply IH | reflexivity].
Qed.

Lemma is_word_hd (w s : jsstring) :
  is_word w = true -> startsWith s w = true -> is_word_opt (hd_error s) = true.
Proof.
  unfold is_word. intros Hw Hs. apply andb_true_iff in Hw. destruct Hw as [Hh _].
  destruct w as [|a w]; [discriminate|].
  now rewrite (@startsWith_hd s (a :: w)) by (congruence || assumption).
Qed.

Lemma is_word_last (w : jsstring) (prev : option char) :
  is_word w = true -> is_word_opt (last_opt w prev) = true.
Proof.
  unfold is_word. intros Hw. apply andb_true_iff in Hw. destruct Hw as [_ Hl].
  destruct w as [|a w]; [discriminate | exact Hl].
Qed.

Lemma match_here_word_re (w : jsstring) (prev : option char) (s : jsstring) :
  is_word w = true ->
  match_here (word_re w) prev s =
  if whole_word_at w prev s then Some (skipn (length w) s) else None.
Proof.
  intros Hw. unfold match_here, word_re, whole_word_at. cbn [seqs rmatch].
  rewrite lit_spec. unfold word_boundary.
  destruct (startsWith s w) eqn:Hs.
  - rewrite (is_word_hd _ _ Hw Hs), (is_word_last _ prev Hw).
    destruct (is_word_opt prev); simpl; [reflexivity|].
    now destruct (is_word_opt (hd_error (skipn (length w) s))).
  - rewrite andb_false_r. simpl.
    now destruct (xorb (is_word_opt prev) (is_word_opt (hd_error s))).
Qed.

(** A pattern decided at each position by [f] is found where [f] holds
    somewhere. *)
Lemma search_somewhere (r : regex) (f : option char -> jsstring -> bool)
    (g : option char -> jsstring -> jsstring) :
  (forall prev s, match_here r prev s = if f prev s then Some (g prev s) else None) ->
  forall s prev, search r prev s = somewhere f prev s.
Proof.
  intros H. induction s as [|c s IH]; intros prev; simpl; rewrite H.
  - destruct (f prev []); reflexivity.
  - rewrite IH. destruct (f prev (c :: s)); reflexivity.
Qed.

Lemma test_word_re (w : jsstring) (s : jsstring) :
  is_word w = true -> test (word_re w) s = has_whole_word w s.
Proof.
  intros Hw. unfold test, has_whole_word.
  apply search_somewhere with (g := fun _ s => skipn (length w) s).
  intros prev s'. now apply match_here_word_re.
Qed.

(** *** Alternatives of words between two word boundaries *)

Lemma rmatch_word_alts (ws : list jsstring) (prev : option char) (s : jsstring) :
  ws <> [] -> forallb is_word ws = true ->
  rmatch (alts (map Lit ws)) prev s
         (fun prev' s' => rmatch WordB prev' s' (fun _ rest => Some rest)) =
  rest_after s (find (fun w => tail_free w s) ws).
Proof.
  assert (Hone : forall w, is_word w = true ->
            rmatch (Lit w) prev s
              (fun prev' s' => rmatch WordB prev' s' (fun _ rest => Some rest)) =
            if tail_free w s then Some (skipn (length w) s) else None).
  { intros w Hw. cbn [rmatch]. rewrite lit_spec. unfold tail_free, word_boundary.
    destruct (startsWith s w); [|reflexivity].
    rewrite (is_word_last _ prev Hw). simpl.
    now destruct (is_word_opt (hd_error (skipn (length w) s))). }
  induction ws as [|w ws IH]; intros Hne Hall; [contradiction|].
  simpl in Hall. apply andb_true_iff in Hall. destruct Hall as [Hw Hall].
  destruct ws as [|w' ws'].
  - simpl map. cbn [alts find]. rewrite Hone by assumption.
    now destruct (tail_free w s).
  - change (alts (map Lit (w :: w' :: ws')))
      with (Alt (Lit w) (alts (map Lit (w' :: ws')))).
    cbn [rmatch find]. cbn [rmatch] in Hone. rewrite Hone by assumption.
    destruct (tail_free w s); [reflexivity|].
    apply IH; [discriminate | assumption].
Qed.

Lemma find_whole_word (ws : list jsstring) (prev : option char) (s : jsstring) :
  forallb is_word ws = true ->
  (if word_boundary prev s
   then rest_after s (find (fun w => tail_free w s) ws) else None) =
  rest_after s (find (fun w => whole_word_at w prev s) ws).
Proof.
  intros Hall. induction ws as [|w ws IH]; simpl.
  - now destruct (word_boundary prev s).
  - simpl in Hall. apply andb_true_iff in Hall. destruct Hall as [Hw Hall].
    unfold whole_word_at at 1, tail_free at 1.
    destruct (startsWith s w) eqn:Hs.
    + unfold word_boundary in *. rewrite (is_word_hd _ _ Hw Hs) in *.
      destruct (is_word_opt prev); simpl in *.
      * now apply IH.
      * destruct (is_word_opt (hd_error (skipn (length w) s))); simpl;
          [now apply IH | reflexivity].
    + rewrite andb_false_r. simpl. now apply IH.
Qed.

(** [/\b(w1|w2|...)\b/] at one position: the first of the words standing
    there as a whole word. *)
Lemma match_here_word_alts (ws : list jsstring) (prev : option char) (s : jsstring) :
  ws <> [] -> forallb is_word ws = true ->
  match_here (seqs [WordB; alts (map Lit ws); WordB]) prev s =
  rest_after s (find (fun w => whole_word_at w prev s) ws).
Proof.
  intros Hne Hall. unfold match_here. cbn [seqs rmatch].
  rewrite rmatch_word_alts by assumption. now apply find_whole_word.
Qed.

(** *** The successive matches *)

Lemma scan_skip (r : regex) (u : jsstring) :
  forall prev rest,
    scan r prev (u ++ rest) (length u) = scan r (last_opt u prev) rest 0.
Proof.
  induction u as [|c u IH]; intros prev rest; [reflexivity|].
  simpl. apply IH.
Qed.

Lemma scan_match (r : regex) (prev : option char) (c : char) (u rest : jsstring) :
  match_here r prev (c :: u ++ rest) = Some rest ->
  scan r prev (c :: u ++ rest) 0 = (c :: u) :: scan r (Some c) (u ++ rest) (length u).
Proof.
  intros H. cbn [scan]. rewrite H.
  assert (Hn : (length (c :: u ++ rest) - length rest)%nat = S (length u)).
  { change (c :: u ++ rest) with ((c :: u) ++ rest). rewrite length_app.
    cbn [length]. lia. }
  rewrite Hn. replace (S (length u) - 1)%nat with (length u) by lia.
  f_equal. change (c :: u ++ rest) with ((c :: u) ++ rest).
  change (S (length u)) with (length (c :: u)).
  rewrite firstn_app, firstn_all, Nat.sub_diag. simpl. now rewrite app_nil_r.
Qed.

Lemma scan_no_match (r : regex) (prev : option char) (c : char) (s : jsstring) :
  match_here r prev (c :: s) = None ->
  scan r prev (c :: s) 0 = scan r (Some c) s 0.
Proof. intros H. cbn [scan]. now rewrite H. Qed.

(** *** The decision points of a line *)

Lemma match_here_controlFlowRe (prev : option char) (s : jsstring) :
  match_here controlFlowRe prev s = rest_after s (token_at prev s).
Proof.
  change (match_here controlFlowRe prev s) with
    (match match_here (seqs [WordB; alts (map Lit keywords); WordB]) prev s with
     | Some r => Some r
     | None =>
         match lit (str "&&") prev s (fun _ rest => Some rest) with
         | Some r => Some r
         | None =>
             match lit (str "||") prev s (fun _ rest => Some rest) with
             | Some r => Some r
             | None => lit (str "?") prev s (fun _ rest => Some rest)
             end
         end
     end).
  rewrite match_here_word_alts by (discriminate || reflexivity).
  unfold token_at. destruct (find (fun w => whole_word_at w prev s) keywords);
    [reflexivity|].
  rewrite !lit_spec. unfold operators. cbn [find].
  destruct (startsWith s (str "&&")); [reflexivity|].
  destruct (startsWith s (str "||")); [reflexivity|].
  destruct (startsWith s (str "?")); reflexivity.
Qed.

Lemma token_at_some (prev : option char) (s w : jsstring) :
  token_at prev s = Some w ->
  (In w keywords /\ whole_word_at w prev s = true) \/
  (In w operators /\ startsWith s w = true).
Proof.
  unfold token_at. intros H.
  destruct (find (fun w => whole_word_at w prev s) keywords) as [w'|] eqn:E.
  - injection H as ->. left. now apply find_some in E.
  - right. now apply find_some in H.
Qed.

Lemma strip_keyword (w : jsstring) (prev : option char) (rest : jsstring) :
  In w keywords ->
  whole_word_at w prev (w ++ rest) = true ->
  decision_points_from prev (w ++ rest) = S (decision_points_from (last_opt w prev) rest).
Proof.
  intros Hin H. unfold whole_word_at in H.
  rewrite startsWith_app, skipn_app_length, andb_true_r in H.
  apply andb_true_iff in H. destruct H as [Hp Hq].
  apply negb_true_iff in Hp. apply negb_true_iff in Hq.
  unfold keywords in Hin. cbn [In] in Hin.
  unfold decision_points_from, whole_word_at.
  repeat (destruct Hin as [<- | Hin];
          [cbn; unfold whole_word_at; rewrite ?Hp; cbn; rewrite ?Hq; cbn; lia|]).
  contradiction.
Qed.

Lemma strip_operator (op : jsstring) (prev : option char) (rest : jsstring) :
  In op operators ->
  decision_points_from prev (op ++ rest) = S (decision_points_from (last_opt op prev) rest).
Proof.
  intros Hin. unfold operators in Hin. cbn [In] in Hin.
  unfold decision_points_from, whole_word_at.
  repeat (destruct Hin as [<- | Hin];
          [cbn; unfold whole_word_at; destruct (is_word_opt prev); cbn; lia|]).
  contradiction.
Qed.

Lemma no_token (prev : option char) (c : char) (s : jsstring) :
  token_at prev (c :: s) = None ->
  decision_points_from prev (c :: s) = decision_points_from (Some c) s.
Proof.
  unfold token_at, keywords, operators. cbn [find]. intros H.
  repeat match type of H with
         | (match (if ?b then _ else _) with _ => _ end) = None =>
             destruct b eqn:?; [discriminate|]
         | (if ?b then _ else _) = None => destruct b eqn:?; [discriminate|]
         end.
  unfold decision_points_from, keywords, operators.
  cbn [map list_sum count_whole_word_from count_occurrences_from].
  repeat match goal with
         | E : ?b = false |- context [if ?b then _ else _] => rewrite E
         end.
  reflexivity.
Qed.

Lemma token_at_nil (prev : option char) : token_at prev [] = None.
Proof.
  unfold token_at, keywords, operators, whole_word_at. cbn.
  now destruct (is_word_opt prev).
Qed.

(** The matches of the control-flow pattern on a line are as many as its
    decision points. *)
Lemma scan_controlFlowRe (n : nat) :
  forall s prev,
    (length s <= n)%nat ->
    length (scan controlFlowRe prev s 0) = decision_points_from prev s.
Proof.
  induction n as [|n IH]; intros s prev Hlen.
  - destruct s; [|simpl in Hlen; lia].
    cbn [scan]. rewrite match_here_controlFlowRe, token_at_nil. reflexivity.
  - destruct s as [|c s].
    + cbn [scan]. rewrite match_here_controlFlowRe, token_at_nil. reflexivity.
    + destruct (token_at prev (c :: s)) as [w|] eqn:Htok.
      * assert (Hw : startsWith (c :: s) w = true /\ w <> [] /\
                     decision_points_from prev (w ++ skipn (length w) (c :: s)) =
                     S (decision_points_from (last_opt w prev) (skipn (length w) (c :: s)))).
        { destruct (token_at_some _ _ _ Htok) as [[Hin Hww] | [Hin Hs]].
          - pose proof Hww as Hs. unfold whole_word_at in Hs.
            apply andb_true_iff in Hs. destruct Hs as [Hs _].
            apply andb_true_iff in Hs. destruct Hs as [_ Hs].
            split; [assumption|]. split.
            + intros ->. unfold keywords in Hin. cbn in Hin.
              repeat (destruct Hin as [Hin | Hin]; [discriminate|]). contradiction.
            + apply strip_keyword; [assumption|].
              now rewrite <- (startsWith_skipn _ _ Hs).
          - split; [assumption|]. split.
            + intros ->. unfold operators in Hin. cbn in Hin.
              repeat (destruct Hin as [Hin | Hin]; [discriminate|]). contradiction.
            + now apply strip_operator. }
        destruct Hw as (Hs & Hne & Hstrip).
        pose proof (startsWith_skipn _ _ Hs) as Heq.
        set (rest := skipn (length w) (c :: s)) in *.
        destruct w as [|a u]; [contradiction|].
        assert (a = c) by (simpl in Heq; congruence). subst a.
        assert (Hs' : s = u ++ rest) by (simpl in Heq; congruence).
        rewrite Heq at 2. rewrite Hstrip.
        rewrite Hs'. rewrite scan_match.
        -- cbn [length]. f_equal. rewrite scan_skip. apply IH.
           rewrite Hs' in Hlen. simpl in Hlen. rewrite length_app in Hlen. lia.
        -- rewrite <- Hs'. rewrite match_here_controlFlowRe, Htok. reflexivity.
      * rewrite scan_no_match by (now rewrite match_here_controlFlowRe, Htok).
        rewrite no_token by assumption. apply IH. simpl in Hlen. lia.
Qed.

Lemma decision_points_from_start (line : jsstring) :
  decision_points_from None line = decision_points line.
Proof. reflexivity. Qed.

Lemma match_global_controlFlowRe (line : jsstring) :
  match match_global controlFlowRe line with
  | Some ms => len ms
  | None => 0
  end = Z.of_nat (decision_points line) /\
  (match_global controlFlowRe line = None <-> decision_points line = O).
Proof.
  pose proof (scan_controlFlowRe (length line) line None (Nat.le_refl _)) as H.
  rewrite decision_points_from_start in H. unfold match_global, len.
  destruct (scan controlFlowRe None line 0) as [|m ms]; rewrite <- H; simpl.
  - split; [reflexivity | tauto].
  - split; [reflexivity|]. split; [discriminate | lia].
Qed.

(** *** Runs of spaces and of word characters *)

Lemma space_not_word (c : char) : is_space c = true -> is_word_char c = false.
Proof.
  intros Hs. destruct (is_word_char c) eqn:Hw; [|reflexivity]. exfalso.
  unfold is_word_char, is_space, is_white_space, is_line_terminator, in_range in *.
  repeat rewrite ?orb_true_iff, ?andb_true_iff, ?N.eqb_eq, ?N.leb_le in Hs.
  repeat rewrite ?orb_true_iff, ?andb_true_iff, ?N.eqb_eq, ?N.leb_le in Hw.
  lia.
Qed.

Lemma star_run (p : char -> bool) (k : cont) :
  (forall prev c s, p c = true -> k prev (c :: s) = None) ->
  (forall prev prev' s, k prev s = k prev' s) ->
  forall s prev, star p prev s k = k prev (drop_while p s).
Proof.
  intros Hfail Hprev. induction s as [|c s IH]; intros prev; simpl; [reflexivity|].
  destruct (p c) eqn:Hc; [|reflexivity].
  rewrite IH, (Hprev (Some c) prev), (Hfail prev c s Hc).
  now destruct (k prev (drop_while p s)).
Qed.

Lemma star_any (p : char -> bool) (s : jsstring) :
  forall prev, star p prev s (fun _ rest => Some rest) = Some (drop_while p s).
Proof.
  induction s as [|c s IH]; intros prev; simpl; [reflexivity|].
  destruct (p c); [|reflexivity]. now rewrite IH.
Qed.

Lemma drop_while_space_cons (c : char) (s : jsstring) :
  is_space c = true -> trimStart (c :: s) = trimStart s.
Proof. intros H. unfold trimStart. simpl. now rewrite H. Qed.

Lemma match_here_elseIfRe (prev : option char) (s : jsstring) :
  match_here elseIfRe prev s =
  if else_if_at prev s
  then Some (skipn 2 (trimStart (skipn 4 s)))
  else None.
Proof.
  unfold match_here, elseIfRe, else_if_at, if_follows. cbn [seqs rmatch kw].
  rewrite lit_spec. change (length (str "else")) with 4%nat.
  destruct (startsWith s (str "else")) eqn:Hs.
  - unfold word_boundary at 1.
    rewrite (is_word_hd (str "else") s eq_refl Hs).
    destruct (is_word_opt prev); simpl negb; cbn [xorb andb]; [reflexivity|].
    destruct (skipn 4 s) as [|c r] eqn:Hr; [reflexivity|].
    cbn [starts_with_space]. destruct (is_space c) eqn:Hc; [|reflexivity].
    rewrite (drop_while_space_cons c r Hc). cbn [andb].
    rewrite star_run.
    + rewrite lit_spec. unfold tail_free, word_boundary.
      change (length (str "if")) with 2%nat. unfold trimStart.
      destruct (startsWith (drop_while is_space r) (str "if")); [|reflexivity].
      cbn [andb last_opt str map list_ascii_of_string]. simpl is_word_opt at 1.
      now destruct (is_word_opt (hd_error (skipn 2 (drop_while is_space r)))).
    + intros prev' c' s' Hc'. cbn [lit str map list_ascii_of_string].
      destruct (N.eqb_spec c' (N_of_ascii "i")) as [->|]; [|reflexivity].
      vm_compute in Hc'. discriminate.
    + intros p1 p2 s'. now rewrite !lit_spec.
  - rewrite andb_false_r. simpl. now destruct (word_boundary prev s).
Qed.

Lemma test_elseIfRe (s : jsstring) : test elseIfRe s = has_else_if s.
Proof.
  unfold test, has_else_if.
  apply search_somewhere with (g := fun _ s' => skipn 2 (trimStart (skipn 4 s'))).
  apply match_here_elseIfRe.
Qed.

Lemma test_elseRe (s : jsstring) : test elseRe s = has_whole_word (str "else") s.
Proof. now apply (test_word_re (str "else")). Qed.

Lemma match_here_decl_re (w : jsstring) (prev : option char) (s : jsstring) :
  w <> [] ->
  match_here (decl_re w) prev s =
  if decl_at w s
  then Some (drop_while is_word_char (trimStart (skipn (length w) s)))
  else None.
Proof.
  intros Hne. unfold match_here, decl_re, decl_at. cbn [seqs rmatch].
  rewrite lit_spec. destruct (startsWith s w); [|reflexivity]. cbn [andb].
  destruct (skipn (length w) s) as [|c r]; [reflexivity|].
  cbn [starts_with_space]. destruct (is_space c) eqn:Hc; [|reflexivity].
  rewrite (drop_while_space_cons c r Hc). cbn [andb].
  rewrite star_run.
  - unfold trimStart. destruct (drop_while is_space r) as [|a r']; [reflexivity|].
    cbn [hd_error is_word_opt]. destruct (is_word_char a) eqn:Ha; [|reflexivity].
    rewrite star_any. simpl. now rewrite Ha.
  - intros prev' c' s' Hc'. now rewrite (space_not_word c' Hc').
  - reflexivity.
Qed.

Lemma test_decl_re (w : jsstring) (s : jsstring) :
  w <> [] -> test (decl_re w) s = has_decl w s.
Proof.
  intros Hne. unfold test, has_decl.
  apply search_somewhere
    with (g := fun _ s' => drop_while is_word_char (trimStart (skipn (length w) s'))).
  intros prev s'. now apply match_here_decl_re.
Qed.

(** ** Cyclomatic complexity *)

Lemma bare_else_without_else_if (s : jsstring) :
  forall prev,
    somewhere else_if_at prev s = false ->
    somewhere bare_else_at prev s = somewhere (whole_word_at (str "else")) prev s.
Proof.
  assert (Hat : forall prev s', else_if_at prev s' = false ->
                 bare_else_at prev s' = whole_word_at (str "else") prev s').
  { intros prev s' H. unfold bare_else_at, else_if_at, whole_word_at in *.
    change (length (str "else")) with 4%nat.
    destruct (negb (is_word_opt prev) && startsWith s' (str "else")); simpl in *;
      [|reflexivity].
    rewrite H. now rewrite andb_true_r. }
  induction s as [|c s IH]; intros prev H; simpl in *;
    apply orb_false_iff in H; destruct H as [H1 H2].
  - now rewrite Hat.
  - now rewrite Hat, IH.
Qed.

Lemma else_line_bare (line : jsstring) :
  else_line line = has_bare_else line && negb (has_else_if line).
Proof.
  unfold else_line, has_bare_else, has_whole_word, has_else_if.
  destruct (somewhere else_if_at None line) eqn:E.
  - now rewrite !andb_false_r.
  - now rewrite bare_else_without_else_if.
Qed.

Lemma cc_line_spec (st : ccState) (line : jsstring) (index : Z) :
  complexity (cc_line st line index) = complexity st + line_score line /\
  locations (cc_line st line index) = locations st ++ line_entries line index.
Proof.
  unfold cc_line, line_score, line_entries.
  rewrite test_elseRe, test_elseIfRe. fold (else_line line).
  rewrite <- else_line_bare.
  destruct (match_global_controlFlowRe line) as [Hlen Hnone].
  destruct (match_global controlFlowRe line) as [ms|] eqn:Hm.
  - assert (Hpos : (0 <? decision_points line)%nat = true).
    { apply Nat.ltb_lt. destruct (decision_points line); [|lia].
      destruct Hnone as [_ Hn]. now specialize (Hn eq_refl). }
    rewrite Hpos, <- Hlen. unfold cc_push, the_location.
    destruct (else_line line); simpl; split; try lia;
      rewrite <- ?app_assoc; reflexivity.
  - destruct Hnone as [Hn _]. rewrite (Hn eq_refl). simpl.
    unfold cc_push, the_location.
    destruct (else_line line); simpl; split; try lia;
      rewrite ?app_nil_r; reflexivity.
Qed.

Lemma forEach_cc_line (lines : list jsstring) :
  forall index st,
    complexity (forEach cc_line lines index st) =
      complexity st + sumZ (map line_score lines) /\
    locations (forEach cc_line lines index st) =
      locations st ++ concat (mapi line_entries index lines).
Proof.
  induction lines as [|line rest IH]; intros index st; simpl.
  - split; [lia | now rewrite app_nil_r].
  - destruct (IH (index + 1) (cc_line st line index)) as [Hc Hl].
    destruct (cc_line_spec st line index) as [Hc1 Hl1].
    rewrite Hc, Hl, Hc1, Hl1. split; [lia | now rewrite app_assoc].
Qed.

Lemma sumZ_nonneg (l : list Z) : Forall (fun x => 0 <= x) l -> 0 <= sumZ l.
Proof. induction 1; simpl; lia. Qed.

Lemma line_score_nonneg (line : jsstring) : 0 <= line_score line.
Proof.
  unfold line_score.
  destruct (has_bare_else line && negb (has_else_if line)); lia.
Qed.

Lemma complexity_total (sourceCode : jsstring) :
  cc_total (calculateCyclomaticComplexity sourceCode) =
  1 + sumZ (map line_score (split_lines sourceCode)).
Proof.
  unfold calculateCyclomaticComplexity. simpl.
  now destruct (forEach_cc_line (split_lines sourceCode) 0
                  {| complexity := 1; locations := [] |}) as [-> _].
Qed.

Lemma complexity_at_least_one (sourceCode : jsstring) :
  1 <= cc_total (calculateCyclomaticComplexity sourceCode).
Proof.
  rewrite complexity_total.
  assert (0 <= sumZ (map line_score (split_lines sourceCode))); [|lia].
  apply sumZ_nonneg, Forall_forall. intros x Hx.
  apply in_map_iff in Hx. destruct Hx as (line & <- & _). apply line_score_nonneg.
Qed.

Lemma entries_bound (lines : list jsstring) :
  forall index,
    Forall (fun x => index + 1 <= x)
           (map loc_line (concat (mapi line_entries index lines))).
Proof.
  induction lines as [|line rest IH]; intros index; simpl; [constructor|].
  rewrite map_app. apply Forall_app. split.
  - unfold line_entries.
    destruct (0 <? decision_points line)%nat; destruct (else_line line); simpl;
      repeat constructor; lia.
  - eapply Forall_impl; [|apply IH]. simpl. intros; lia.
Qed.

Lemma entries_sorted (lines : list jsstring) :
  forall index,
    StronglySorted Z.le (map loc_line (concat (mapi line_entries index lines))).
Proof.
  induction lines as [|line rest IH]; intros index; simpl; [constructor|].
  rewrite map_app.
  assert (Hb : Forall (fun x => index + 1 <= x)
                 (map loc_line (concat (mapi line_entries (index + 1) rest))))
    by (eapply Forall_impl; [|apply entries_bound]; simpl; intros; lia).
  assert (Hcons : forall l,
             StronglySorted Z.le l -> Forall (fun x => index + 1 <= x) l ->
             StronglySorted Z.le (index + 1 :: l))
    by (intros l Hl Hf; now constructor).
  unfold line_entries.
  destruct (0 <? decision_points line)%nat; destruct (else_line line); simpl.
  - apply Hcons; [apply Hcons; [apply IH | exact Hb]|].
    constructor; [lia | exact Hb].
  - apply Hcons; [apply IH | exact Hb].
  - apply Hcons; [apply IH | exact Hb].
  - apply IH.
Qed.

(** C2, as the specification states it, fails: on a line that holds a bare
    [else] and, further on, an [else if], the else rule of the code adds
    nothing, where the specification counts the line. *)
Lemma claimed_total_counterexample :
  cc_total (calculateCyclomaticComplexity (str "else { } else if (x) {")) = 2 /\
  claimed_total (str "else { } else if (x) {") = 3 /\
  cc_total (calculateCyclomaticComplexity (str "else { } else if (x) {"))
    <> claimed_total (str "else { } else if (x) {").
Proof. repeat split; vm_compute; (reflexivity || discriminate). Qed.

(** C2, amended: the total is 1 plus, over all lines, the whole-word
    occurrences of [if], [while], [for], [case], [catch] and the occurrences
    of [&&], [||] and [?] (read from left to right, one occurrence starting
    where the one before ended or later), plus one for every line that has
    a bare [else] and no [else if] anywhere on it.  A keyword inside an
    identifier such as [ifValue] adds nothing, the line [if (a && b)] adds
    2, and the total is at least 1. *)
Theorem complexity_total_amended (sourceCode : jsstring) :
  cc_total (calculateCyclomaticComplexity sourceCode) =
    1 + sumZ (map (fun line =>
                     Z.of_nat (decision_points line)
                     + (if has_bare_else line && negb (has_else_if line)
                        then 1 else 0))
                  (split_lines sourceCode)) /\
  1 <= cc_total (calculateCyclomaticComplexity sourceCode) /\
  cc_total (calculateCyclomaticComplexity (str "ifValue")) = 1 /\
  cc_total (calculateCyclomaticComplexity (str "if (a && b)")) = 1 + 2.
Proof.
  split; [apply complexity_total|].
  split; [apply complexity_at_least_one|].
  split; vm_compute; reflexivity.
Qed.

(** C7: the locations of [calculateCyclomaticComplexity] are, line after
    line, one entry when the line has at least one decision point, however
    many, and one more entry when the else rule fires on it; so a line shows
    up once for each of the two rules that fire, twice at most, and the line
    numbers never go down. *)
Theorem complexity_locations_in_line_order (sourceCode : jsstring) :
  let locs := cc_locations (calculateCyclomaticComplexity sourceCode) in
  locs =
    concat (mapi (fun line index =>
                    (if (0 <? decision_points line)%nat
                     then [the_location line index] else []) ++
                    (if else_line line then [the_location line index] else []))
                 0 (split_lines sourceCode)) /\
  StronglySorted Z.le (map loc_line locs) /\
  map loc_line
      (cc_locations (calculateCyclomaticComplexity (str "if (a) {} else {}")))
    = [1; 1].
Proof.
  intros locs.
  assert (Hlocs : locs = concat (mapi line_entries 0 (split_lines sourceCode))).
  { unfold locs, calculateCyclomaticComplexity. simpl.
    now destruct (forEach_cc_line (split_lines sourceCode) 0
                    {| complexity := 1; locations := [] |}) as [_ ->]. }
  split; [exact Hlocs|]. split.
  - rewrite Hlocs. apply entries_sorted.
  - vm_compute. reflexivity.
Qed.

(** ** Documentation coverage *)

Lemma somewhere_spec (f : option char -> jsstring -> bool) (s : jsstring) :
  forall prev,
    somewhere f prev s = true <->
    exists pre post, s = pre ++ post /\ f (last_opt pre prev) post = true.
Proof.
  induction s as [|c s IH]; intros prev; simpl.
  - rewrite orb_false_r. split.
    + intros H. now exists [], [].
    + intros (pre & post & Heq & H). symmetry in Heq.
      apply app_eq_nil in Heq. destruct Heq as [-> ->]. exact H.
  - rewrite orb_true_iff, IH. split.
    + intros [H | (pre & post & -> & H)].
      * now exists [], (c :: s).
      * now exists (c :: pre), post.
    + intros (pre & post & Heq & H). destruct pre as [|a pre]; simpl in *.
      * left. now subst post.
      * right. injection Heq as -> ->. now exists pre, post.
Qed.

Lemma startsWith_iff (s w : jsstring) :
  startsWith s w = true <-> exists rest, s = w ++ rest.
Proof.
  split.
  - intros H. exists (skipn (length w) s). now apply startsWith_skipn.
  - intros (rest & ->). apply startsWith_app.
Qed.

Lemma has_whole_word_spec (w s : jsstring) :
  has_whole_word w s = true <-> whole_word_in w s.
Proof.
  unfold has_whole_word, whole_word_in. rewrite somewhere_spec. split.
  - intros (pre & post & -> & H). unfold whole_word_at in H.
    apply andb_true_iff in H. destruct H as [H Hafter].
    apply andb_true_iff in H. destruct H as [Hprev Hs].
    apply negb_true_iff in Hprev. apply negb_true_iff in Hafter.
    exists pre, (skipn (length w) post). repeat split; try assumption.
    f_equal. now apply startsWith_skipn.
  - intros (pre & post & -> & Hprev & Hafter). exists pre, (w ++ post).
    split; [reflexivity|]. unfold whole_word_at.
    now rewrite Hprev, startsWith_app, skipn_app_length, Hafter.
Qed.

Lemma drop_while_split (p : char -> bool) (s : jsstring) :
  exists u, s = u ++ drop_while p s /\ forallb p u = true.
Proof.
  induction s as [|c s (u & Heq & Hu)]; simpl.
  - now exists [].
  - destruct (p c) eqn:Hc.
    + exists (c :: u). simpl. rewrite Hc, Hu. split; [now f_equal | reflexivity].
    + now exists [].
Qed.

Lemma drop_while_app (p : char -> bool) (u : jsstring) (c : char) (post : jsstring) :
  forallb p u = true -> p c = false -> drop_while p (u ++ c :: post) = c :: post.
Proof.
  intros Hu Hc. induction u as [|a u IH]; simpl in *.
  - now rewrite Hc.
  - apply andb_true_iff in Hu. destruct Hu as [Ha Hu]. rewrite Ha. now apply IH.
Qed.

Lemma decl_at_spec (w s : jsstring) :
  decl_at w s = true <->
  exists spaces c post,
    s = w ++ spaces ++ c :: post /\
    spaces <> [] /\ forallb is_space spaces = true /\ is_word_char c = true.
Proof.
  unfold decl_at. split.
  - intros H. apply andb_true_iff in H. destruct H as [H Hword].
    apply andb_true_iff in H. destruct H as [Hs Hspace].
    apply startsWith_skipn in Hs. set (r := skipn (length w) s) in *.
    destruct (drop_while_split is_space r) as (u & Hr & Hu).
    unfold trimStart in Hword.
    destruct (drop_while is_space r) as [|c post]; [discriminate|].
    exists u, c, post. repeat split; try assumption.
    + now rewrite Hs, Hr at 1.
    + intros ->. simpl in Hr. rewrite Hr in Hspace. simpl in Hspace.
      simpl in Hword. now rewrite (space_not_word c Hspace) in Hword.
  - intros (spaces & c & post & -> & Hne & Hsp & Hc).
    rewrite startsWith_app, skipn_app_length. unfold trimStart.
    rewrite drop_while_app; try assumption.
    + simpl. rewrite Hc, andb_true_r.
      destruct spaces as [|a spaces]; [contradiction|].
      simpl in *. now apply andb_true_iff in Hsp.
    + destruct (is_space c) eqn:E; [|reflexivity].
      now rewrite (space_not_word c E) in Hc.
Qed.

Lemma has_decl_spec (w s : jsstring) :
  has_decl w s = true <-> declaration_in w s.
Proof.
  unfold has_decl, declaration_in. rewrite somewhere_spec. split.
  - intros (pre & post & -> & H). apply decl_at_spec in H.
    destruct H as (spaces & c & post' & -> & H).
    now exists pre, spaces, c, post'.
  - intros (pre & spaces & c & post & -> & H).
    exists pre, (w ++ spaces ++ c :: post). split; [reflexivity|].
    apply decl_at_spec. now exists spaces, c, post.
Qed.

Lemma isComplex_spec (t : jsstring) :
  isComplex t = true <->
  declaration_in (str "function") t \/ declaration_in (str "class") t \/
  declaration_in (str "interface") t \/
  whole_word_in (str "if") t \/ whole_word_in (str "for") t \/
  whole_word_in (str "while") t \/ whole_word_in (str "switch") t.
Proof.
  unfold isComplex, complexPatterns. cbn [existsb].
  rewrite !test_decl_re by discriminate.
  rewrite !test_word_re by reflexivity.
  rewrite !orb_true_iff, !has_decl_spec, !has_whole_word_spec. intuition discriminate.
Qed.

Lemma isComment_spec (t : jsstring) :
  isComment t = true <->
  (exists rest, t = str "//" ++ rest) \/ (exists rest, t = str "/*" ++ rest) \/
  (exists rest, t = str "*" ++ rest).
Proof.
  unfold isComment. rewrite !orb_true_iff, !startsWith_iff. tauto.
Qed.

Lemma fold_doc_line (lines : list jsstring) :
  forall st,
    total (fold_left doc_line lines st) = total st + len (complex_lines lines) /\
    documented (fold_left doc_line lines st) =
      documented st + documented_from (lastLineWasComment st) lines.
Proof.
  induction lines as [|line rest IH]; intros st.
  - simpl. change (len []) with 0. split; lia.
  - cbn [fold_left documented_from]. destruct (IH (doc_line st line)) as [Ht Hd].
    rewrite Ht, Hd. unfold doc_line, complex_lines. cbn [filter].
    destruct (isComplex (trim line)); cbn [total documented lastLineWasComment andb].
    + rewrite len_cons. destruct (lastLineWasComment st); split; lia.
    + split; lia.
Qed.

Lemma documented_from_pairs (rest : list jsstring) :
  forall line flag,
    documented_from flag (line :: rest) =
    (if isComplex (trim line) && flag then 1 else 0)
    + len (documented_pairs (line :: rest)).
Proof.
  induction rest as [|next rest IH]; intros line flag.
  - change (documented_pairs [line]) with (@nil (jsstring * jsstring)).
    simpl. change (len (@nil (jsstring * jsstring))) with 0. lia.
  - change (documented_from flag (line :: next :: rest))
      with ((if isComplex (trim line) && flag then 1 else 0)
            + documented_from (isComment (trim line)) (next :: rest)).
    rewrite IH. unfold documented_pairs. simpl combine. simpl tl.
    cbn [filter fst snd]. rewrite (andb_comm (isComplex (trim next))).
    destruct (isComment (trim line) && isComplex (trim next));
      rewrite ?len_cons; lia.
Qed.

Lemma documented_from_start (lines : list jsstring) :
  documented_from false lines = len (documented_pairs lines).
Proof.
  destruct lines as [|line rest]; [reflexivity|].
  rewrite documented_from_pairs, andb_false_r. lia.
Qed.

Lemma documented_from_bound (lines : list jsstring) :
  forall flag,
    0 <= documented_from flag lines <= len (complex_lines lines).
Proof.
  induction lines as [|line rest IH]; intros flag.
  - simpl. change (len []) with 0. lia.
  - specialize (IH (isComment (trim line))). unfold complex_lines in *.
    cbn [documented_from filter].
    destruct (isComplex (trim line)); cbn [andb].
    + rewrite len_cons. destruct flag; lia.
    + lia.
Qed.

(** *** Rounding to nearest

    The rounding of [SpecFloat] on a truncated mantissa is the rounding to
    the nearest integer of the fraction the mantissa was cut from. *)

Lemma div_mod_twice (N D : Z) :
  0 < D ->
  N / (2 * D) = N / D / 2 /\ N mod (2 * D) = D * ((N / D) mod 2) + N mod D.
Proof.
  intros HD.
  pose proof (Z.div_mod N D ltac:(lia)) as H1.
  pose proof (Z.mod_pos_bound N D HD) as H2.
  pose proof (Z.div_mod (N / D) 2 ltac:(lia)) as H3.
  pose proof (Z.mod_pos_bound (N / D) 2 ltac:(lia)) as H4.
  assert (HN : N = 2 * D * (N / D / 2) + (D * ((N / D) mod 2) + N mod D)) by nia.
  assert (Hr : 0 <= D * ((N / D) mod 2) + N mod D < 2 * D) by nia.
  split.
  - symmetry. apply (Z.div_unique_pos N (2 * D) _ _ Hr HN).
  - symmetry. apply (Z.mod_unique_pos N (2 * D) _ _ Hr HN).
Qed.

(** One shift to the right halves the fraction. *)
Lemma shr_1_located (mrs : shr_record) (N D : Z) :
  0 <= N -> 0 < D -> located mrs N D -> located (shr_1 mrs) N (2 * D).
Proof.
  intros HN HD [Hm [Hr Hs]].
  destruct (div_mod_twice N D HD) as [Hq Hrem].
  pose proof (Z.mod_pos_bound N D HD) as Hb.
  assert (Hq0 : 0 <= N / D) by (apply Z.div_pos; lia).
  destruct mrs as [m r s]. cbn [shr_m shr_r shr_s] in Hm, Hr, Hs.
  assert (Hrs : (r || s)%bool = negb (N mod D =? 0)).
  { rewrite Hr, Hs.
    destruct (Z.leb_spec D (2 * (N mod D))), (Z.eqb_spec (N mod D) 0),
      (Z.eqb_spec (2 * (N mod D)) D); cbn; try reflexivity; lia. }
  assert (Hcase :
    shr_1 {| shr_m := m; shr_r := r; shr_s := s |} =
    {| shr_m := m / 2; shr_r := Z.odd m; shr_s := (r || s)%bool |}).
  { destruct m as [|p|p]; [reflexivity | | lia].
    destruct p as [p|p|]; cbn [shr_1 Z.odd].
    - f_equal. rewrite Pos2Z.inj_xI.
      apply (Z.div_unique_pos _ 2 _ 1); lia.
    - f_equal. rewrite Pos2Z.inj_xO.
      apply (Z.div_unique_pos _ 2 _ 0); lia.
    - reflexivity. }
  rewrite Hcase, Hrs, Hm. unfold located. cbn [shr_m shr_r shr_s].
  rewrite Hq, Hrem, Zmod_odd.
  destruct (Z.odd (N / D));
    (split; [reflexivity | split]).
  - symmetry. apply Z.leb_le. lia.
  - f_equal.
    destruct (Z.eqb_spec (N mod D) 0), (Z.eqb_spec (D * 1 + N mod D) 0),
      (Z.eqb_spec (2 * (D * 1 + N mod D)) (2 * D)); cbn; try reflexivity; lia.
  - symmetry. apply Z.leb_gt. lia.
  - f_equal.
    destruct (Z.eqb_spec (N mod D) 0), (Z.eqb_spec (D * 0 + N mod D) 0),
      (Z.eqb_spec (2 * (D * 0 + N mod D)) (2 * D)); cbn; try reflexivity; lia.
Qed.

Lemma iter_shr_1_located (p : positive) (mrs : shr_record) (N D : Z) :
  0 <= N -> 0 < D -> located mrs N D ->
  located (iter_pos shr_1 p mrs) N (D * 2 ^ Z.pos p).
Proof.
  intros HN. revert mrs D.
  induction p as [p IH|p IH|]; intros mrs D HD H; cbn [iter_pos].
  - replace (D * 2 ^ Z.pos p~1) with (2 * D * 2 ^ Z.pos p * 2 ^ Z.pos p).
    + apply IH; [| apply IH; [lia |]].
      * assert (0 < 2 ^ Z.pos p) by (apply Z.pow_pos_nonneg; lia). nia.
      * now apply shr_1_located.
    + replace (Z.pos p~1) with (Z.pos p + Z.pos p + 1) by lia.
      rewrite !Z.pow_add_r, Z.pow_1_r by lia. ring.
  - replace (D * 2 ^ Z.pos p~0) with (D * 2 ^ Z.pos p * 2 ^ Z.pos p).
    + apply IH; [| apply IH; assumption].
      assert (0 < 2 ^ Z.pos p) by (apply Z.pow_pos_nonneg; lia). nia.
    + replace (Z.pos p~0) with (Z.pos p + Z.pos p) by lia.
      rewrite Z.pow_add_r by lia. ring.
  - replace (D * 2 ^ 1) with (2 * D) by (rewrite Z.pow_1_r; ring).
    now apply shr_1_located.
Qed.

Lemma shr_located (mrs : shr_record) (e n : Z) (N D : Z) :
  0 <= N -> 0 < D -> located mrs N D ->
  located (fst (shr mrs e n)) N (D * 2 ^ Z.max 0 n) /\
  snd (shr mrs e n) = e + Z.max 0 n.
Proof.
  intros HN HD H. destruct n as [|p|p]; cbn [shr fst snd].
  - rewrite Z.max_id, Z.pow_0_r, Z.mul_1_r, Z.add_0_r. now split.
  - rewrite Z.max_r by lia. split; [now apply iter_shr_1_located | reflexivity].
  - rewrite Z.max_l by lia. rewrite Z.pow_0_r, Z.mul_1_r, Z.add_0_r. now split.
Qed.

(** Rounding a located mantissa is rounding its fraction. *)
Lemma round_nearest_even_located (mrs : shr_record) (N D : Z) :
  0 < D -> located mrs N D ->
  round_nearest_even (shr_m mrs) (loc_of_shr_record mrs) = rne N D.
Proof.
  intros HD [Hm [Hr Hs]]. destruct mrs as [m r s].
  cbn [shr_m shr_r shr_s] in *. unfold rne. rewrite <- Hm.
  destruct (Z.compare_spec (2 * (N mod D)) D) as [E|E|E];
    destruct (Z.leb_spec D (2 * (N mod D))), (Z.eqb_spec (N mod D) 0),
      (Z.eqb_spec (2 * (N mod D)) D); cbn in Hr, Hs; subst r s;
    cbn [loc_of_shr_record round_nearest_even]; try reflexivity; try lia.
Qed.

Lemma located_of_loc_exact (m : Z) : located (shr_record_of_loc m loc_Exact) m 1.
Proof.
  unfold located. cbn. rewrite Z.div_1_r, Z.mod_1_r. cbn. repeat split.
Qed.

Lemma rne_le (N D k : Z) : 0 < D -> N <= k * D -> rne N D <= k.
Proof.
  intros HD H. unfold rne.
  pose proof (Z.div_mod N D ltac:(lia)) as H1.
  pose proof (Z.mod_pos_bound N D HD) as H2.
  assert (N mod D = 0 -> N / D <= k) by nia.
  assert (N mod D <> 0 -> N / D + 1 <= k) by nia.
  destruct (Z.compare_spec (2 * (N mod D)) D); try destruct (Z.even _); nia.
Qed.

Lemma rne_ge (N D k : Z) : 0 < D -> k * D <= N -> k <= rne N D.
Proof.
  intros HD H. unfold rne.
  pose proof (Z.div_mod N D ltac:(lia)) as H1.
  pose proof (Z.mod_pos_bound N D HD) as H2.
  assert (k <= N / D) by nia.
  destruct (Z.compare_spec (2 * (N mod D)) D); try destruct (Z.even _); nia.
Qed.

Lemma rne_exact (D k : Z) : 0 < D -> rne (k * D) D = k.
Proof.
  intros HD. apply Z.le_antisymm; [apply rne_le | apply rne_ge]; lia.
Qed.

Lemma rne_error (N D : Z) : 0 < D -> - D <= 2 * (D * rne N D - N) <= D.
Proof.
  intros HD. unfold rne.
  pose proof (Z.div_mod N D ltac:(lia)) as H1.
  pose proof (Z.mod_pos_bound N D HD) as H2.
  destruct (Z.compare_spec (2 * (N mod D)) D); try destruct (Z.even _); nia.
Qed.

Lemma digits2_pos_bounds (p : positive) :
  2 ^ Z.pos (digits2_pos p) <= 2 * Z.pos p < 2 * 2 ^ Z.pos (digits2_pos p).
Proof.
  induction p as [p IH|p IH|]; cbn [digits2_pos].
  - rewrite Pos2Z.inj_succ, Z.pow_succ_r by lia. lia.
  - rewrite Pos2Z.inj_succ, Z.pow_succ_r by lia. lia.
  - cbn. lia.
Qed.

Lemma Zdigits2_bounds (m : Z) :
  0 < m -> 0 < Zdigits2 m /\ 2 ^ (Zdigits2 m - 1) <= m < 2 ^ Zdigits2 m.
Proof.
  intros Hm. destruct m as [|p|p]; try lia. cbn [Zdigits2].
  pose proof (digits2_pos_bounds p) as H.
  replace (Z.pos (digits2_pos p)) with (Z.succ (Z.pos (digits2_pos p) - 1)) in H at 1 by lia.
  rewrite Z.pow_succ_r in H by lia. lia.
Qed.

Lemma Zdigits2_le (m d : Z) : 0 <= d -> 0 <= m < 2 ^ d -> Zdigits2 m <= d.
Proof.
  intros Hd Hm. destruct (Z.eq_dec m 0) as [->|Hn]; [cbn; lia|].
  destruct (Zdigits2_bounds m ltac:(lia)) as [H0 [H1 _]].
  destruct (Z.le_gt_cases (Zdigits2 m) d) as [|Hgt]; [assumption|].
  assert (2 ^ d <= 2 ^ (Zdigits2 m - 1)) by (apply Z.pow_le_mono_r; lia).
  lia.
Qed.

Lemma shr_m_of_loc (m : Z) (l : location) : shr_m (shr_record_of_loc m l) = m.
Proof. destruct l as [|[]]; reflexivity. Qed.

(** [binary_round_aux] on a mantissa located at [N / D] with exponent [ex]:
    the fraction is rounded at the exponent [E] of the last place of the
    result. *)
Lemma binary_round_aux_located (mx ex : Z) (lx : location) (N D : Z) :
  0 <= N -> 0 < D -> located (shr_record_of_loc mx lx) N D ->
  let E := Z.max ex (fexp64 (Zdigits2 mx + ex)) in
  let M := rne N (D * 2 ^ (E - ex)) in
  binary_round_aux 53 1024 false mx ex lx = pack M E /\
  0 <= M <= 2 ^ 53 /\
  (0 < mx -> E = Zdigits2 mx + ex - 53 -> 2 ^ 52 <= M).
Proof.
  intros HN HD Hloc E M.
  assert (Hmx : mx = N / D) by (destruct Hloc as [H _]; now rewrite shr_m_of_loc in H).
  assert (Hmx0 : 0 <= mx) by (subst mx; apply Z.div_pos; lia).
  pose proof (Z.div_mod N D ltac:(lia)) as Hdm.
  pose proof (Z.mod_pos_bound N D HD) as Hrem.
  assert (HE : E - ex = Z.max 0 (fexp64 (Zdigits2 mx + ex) - ex)) by (unfold E; lia).
  assert (HEge : Zdigits2 mx + ex - 53 <= E /\ -1074 <= E /\ ex <= E)
    by (unfold E, fexp64; lia).
  assert (Hpow : 0 < 2 ^ (E - ex)) by (apply Z.pow_pos_nonneg; lia).
  assert (HM : 0 <= M <= 2 ^ 53).
  { split.
    - apply rne_ge; nia.
    - apply rne_le; [nia|].
      assert (mx + 1 <= 2 ^ (53 + (E - ex))).
      { destruct (Z.eq_dec mx 0) as [->|Hn].
        - assert (0 < 2 ^ (53 + (E - ex))) by (apply Z.pow_pos_nonneg; lia). lia.
        - destruct (Zdigits2_bounds mx ltac:(lia)) as [H0 [_ H2]].
          assert (2 ^ Zdigits2 mx <= 2 ^ (53 + (E - ex)))
            by (apply Z.pow_le_mono_r; lia).
          lia. }
      rewrite Z.pow_add_r in H by lia. nia. }
  assert (Hlow : 0 < mx -> E = Zdigits2 mx + ex - 53 -> 2 ^ 52 <= M).
  { intros Hpos HEq. apply rne_ge; [nia|].
    destruct (Zdigits2_bounds mx Hpos) as [H0 [H1 _]].
    replace (Zdigits2 mx - 1) with (52 + (E - ex)) in H1 by lia.
    rewrite Z.pow_add_r in H1 by lia. nia. }
  split; [| split; assumption].
  unfold binary_round_aux, shr_fexp.
  change (fexp 53 1024) with fexp64. change (1024 - 53) with 971.
  destruct (shr_located (shr_record_of_loc mx lx) ex
              (fexp64 (Zdigits2 mx + ex) - ex) N D HN HD Hloc) as [Hl1 He1].
  destruct (shr (shr_record_of_loc mx lx) ex (fexp64 (Zdigits2 mx + ex) - ex))
    as [mrs' e'].
  cbn [fst snd] in Hl1, He1. rewrite <- HE in Hl1, He1.
  replace (ex + (E - ex)) with E in He1 by lia. subst e'.
  rewrite (round_nearest_even_located mrs' N (D * 2 ^ (E - ex))) by (assumption || nia).
  fold M. unfold pack.
  destruct (Z.eqb_spec M (2 ^ 53)) as [HMe|HMn].
  - rewrite HMe.
    replace (fexp64 (Zdigits2 (2 ^ 53) + E) - E) with 1
      by (change (Zdigits2 (2 ^ 53)) with 54; unfold fexp64; lia).
    cbn [shr_record_of_loc shr]. reflexivity.
  - assert (Hd : Zdigits2 M <= 53) by (apply Zdigits2_le; lia).
    assert (Hn2 : fexp64 (Zdigits2 M + E) - E <= 0) by (unfold fexp64; lia).
    destruct (fexp64 (Zdigits2 M + E) - E) as [|p|p] eqn:En; try lia;
      cbn [shr_record_of_loc shr shr_m]; reflexivity.
Qed.


Lemma two_neq_0 : ~ (2 == 0)%Q.
Proof. discriminate. Qed.

Lemma pow2_pos (e : Z) : (0 < 2 ^ e)%Q.
Proof. apply Qpower_0_lt. reflexivity. Qed.

Lemma pow2_inject (n : Z) : 0 <= n -> (inject_Z (2 ^ n) == 2 ^ n)%Q.
Proof. intros Hn. now rewrite Zpower_Qpower. Qed.

Lemma pack_finite (M E : Z) :
  0 < M <= 2 ^ 53 -> E < 971 ->
  exists (m : positive) (e : Z),
    pack M E = S754_finite false m e /\
    E <= e <= E + 1 /\ Z.pos m * 2 ^ (e - E) = M /\
    (2 ^ 52 <= M -> 2 ^ 52 <= Z.pos m < 2 ^ 53).
Proof.
  intros HM HE. unfold pack.
  destruct (Z.eqb_spec M (2 ^ 53)) as [->|Hn].
  - exists (Z.to_pos (2 ^ 52)), (E + 1).
    change (2 ^ 52) with (Z.pos (Z.to_pos (2 ^ 52))) at 1.
    cbv iota beta. destruct (Z.leb_spec (E + 1) 971); [|lia].
    split; [reflexivity|]. split; [lia|].
    replace (E + 1 - E) with 1 by lia. split; [reflexivity|]. intros _. cbn. lia.
  - destruct M as [|m|m]; try lia. exists m, E.
    destruct (Z.leb_spec E 971); [|lia].
    split; [reflexivity|]. split; [lia|].
    rewrite Z.sub_diag, Z.pow_0_r, Z.mul_1_r. split; [reflexivity|]. lia.
Qed.

Lemma pow2_split (a b : Z) : (2 ^ (a + b) == 2 ^ a * 2 ^ b)%Q.
Proof. apply Qpower_plus, two_neq_0. Qed.

(** The same about the ratio [x = N / D * 2 ^ ex]: the result is on the
    same side of every multiple of [2 ^ E] as [x], and within half of
    [2 ^ E] of [x]. *)
Lemma binary_round_aux_value (mx ex : Z) (lx : location) (N D : Z) (x : Q) :
  0 <= N -> 0 < D -> located (shr_record_of_loc mx lx) N D ->
  (x * inject_Z D == inject_Z N * 2 ^ ex)%Q ->
  let E := Z.max ex (fexp64 (Zdigits2 mx + ex)) in
  exists M : Z,
    binary_round_aux 53 1024 false mx ex lx = pack M E /\
    0 <= M <= 2 ^ 53 /\
    (forall k : Z, (x <= inject_Z k * 2 ^ E)%Q -> M <= k) /\
    (forall k : Z, (inject_Z k * 2 ^ E <= x)%Q -> k <= M) /\
    (- (2 ^ E) <= 2 * (inject_Z M * 2 ^ E - x) <= 2 ^ E)%Q /\
    (0 < mx -> E = Zdigits2 mx + ex - 53 ->
     2 ^ 52 <= M /\ (2 ^ 52 * 2 ^ E <= x)%Q).
Proof.
  intros HN HD Hloc Hx E.
  destruct (binary_round_aux_located mx ex lx N D HN HD Hloc) as [Hr [HM Hlow]].
  fold E in Hr, HM, Hlow.
  set (D' := D * 2 ^ (E - ex)) in *.
  set (M := rne N D') in *.
  assert (HEex : 0 <= E - ex) by (unfold E; lia).
  assert (Hpow : 0 < 2 ^ (E - ex)) by (apply Z.pow_pos_nonneg; lia).
  assert (HD' : 0 < D') by (unfold D'; nia).
  pose proof (pow2_pos E) as HP. pose proof (pow2_pos ex) as HPx.
  pose proof (pow2_pos (E - ex)) as HPd.
  assert (HDQ : (0 < inject_Z D)%Q) by (rewrite <- (Zlt_Qlt 0); exact HD).
  assert (Hx' : (x * inject_Z D' == inject_Z N * 2 ^ E)%Q).
  { unfold D'. rewrite inject_Z_mult, pow2_inject by lia.
    replace E with (ex + (E - ex)) at 2 by lia. rewrite pow2_split.
    rewrite Qmult_assoc, Hx. ring. }
  assert (HD'Q : (0 < inject_Z D')%Q) by (rewrite <- (Zlt_Qlt 0); exact HD').
  exists M. split; [exact Hr|]. split; [exact HM|].
  assert (Hup : forall k : Z, (x <= inject_Z k * 2 ^ E)%Q -> N <= k * D').
  { intros k Hk. rewrite Zle_Qle, inject_Z_mult.
    apply (Qmult_le_r _ _ (2 ^ E)%Q HP). rewrite <- Hx'.
    setoid_replace (inject_Z k * inject_Z D' * 2 ^ E)%Q
      with ((inject_Z k * 2 ^ E) * inject_Z D')%Q by ring.
    apply Qmult_le_compat_r; [exact Hk | now apply Qlt_le_weak]. }
  assert (Hdn : forall k : Z, (inject_Z k * 2 ^ E <= x)%Q -> k * D' <= N).
  { intros k Hk. rewrite Zle_Qle, inject_Z_mult.
    apply (Qmult_le_r _ _ (2 ^ E)%Q HP). rewrite <- Hx'.
    setoid_replace (inject_Z k * inject_Z D' * 2 ^ E)%Q
      with ((inject_Z k * 2 ^ E) * inject_Z D')%Q by ring.
    apply Qmult_le_compat_r; [exact Hk | now apply Qlt_le_weak]. }
  split; [intros k Hk; apply rne_le; auto|].
  split; [intros k Hk; apply rne_ge; auto|].
  split.
  - pose proof (rne_error N D' HD') as [He1 He2]. fold M in He1, He2.
    rewrite Zle_Qle in He1, He2.
    rewrite inject_Z_opp in He1.
    unfold Z.sub in He1, He2.
    rewrite !inject_Z_mult, inject_Z_plus, inject_Z_opp, inject_Z_mult in He1, He2.
    fold (Qminus (inject_Z D' * inject_Z M) (inject_Z N)) in He1, He2.
    change (inject_Z 2) with 2%Q in He1, He2.
    assert (Hs : (2 * (inject_Z M * 2 ^ E - x) * inject_Z D' ==
                  2 * (inject_Z D' * inject_Z M - inject_Z N) * 2 ^ E)%Q).
    { setoid_replace (2 * (inject_Z M * 2 ^ E - x) * inject_Z D')%Q
        with (2 * (inject_Z M * 2 ^ E * inject_Z D' - x * inject_Z D'))%Q by ring.
      rewrite Hx'. ring. }
    split.
    + apply (Qmult_le_r _ _ (inject_Z D') HD'Q). rewrite Hs.
      setoid_replace (- 2 ^ E * inject_Z D')%Q with (- inject_Z D' * 2 ^ E)%Q by ring.
      apply Qmult_le_compat_r; [exact He1 | now apply Qlt_le_weak].
    + apply (Qmult_le_r _ _ (inject_Z D') HD'Q). rewrite Hs.
      setoid_replace (2 ^ E * inject_Z D')%Q with (inject_Z D' * 2 ^ E)%Q by ring.
      apply Qmult_le_compat_r; [exact He2 | now apply Qlt_le_weak].
  - intros Hpos HEq. split; [now apply Hlow|].
    assert (Hmx : mx = N / D) by (destruct Hloc as [H _]; now rewrite shr_m_of_loc in H).
    pose proof (Z.div_mod N D ltac:(lia)) as Hdm.
    pose proof (Z.mod_pos_bound N D HD) as Hrem.
    assert (HND : 2 ^ 52 * D' <= N).
    { destruct (Zdigits2_bounds mx Hpos) as [H0 [H1 _]].
      replace (Zdigits2 mx - 1) with (52 + (E - ex)) in H1 by lia.
      rewrite Z.pow_add_r in H1 by lia. unfold D'. nia. }
    rewrite Zle_Qle, inject_Z_mult in HND.
    apply (Qmult_le_r _ _ (inject_Z D') HD'Q). rewrite Hx'.
    setoid_replace (2 ^ 52 * 2 ^ E * inject_Z D')%Q
      with (2 ^ 52 * inject_Z D' * 2 ^ E)%Q by ring.
    apply Qmult_le_compat_r; [exact HND | now apply Qlt_le_weak].
Qed.

Lemma Zdigits2_ge (m d : Z) : 0 < d -> 2 ^ (d - 1) <= m -> d <= Zdigits2 m.
Proof.
  intros Hd Hm.
  assert (0 < 2 ^ (d - 1)) by (apply Z.pow_pos_nonneg; lia).
  destruct (Zdigits2_bounds m ltac:(lia)) as [H0 [_ H2]].
  destruct (Z.le_gt_cases d (Zdigits2 m)) as [|Hgt]; [assumption|].
  assert (2 ^ Zdigits2 m <= 2 ^ (d - 1)) by (apply Z.pow_le_mono_r; lia).
  lia.
Qed.

(** In the normal range the result is a normal double within [2 ^ -53] of
    [x], relatively. *)
Lemma binary_round_aux_normal (mx ex : Z) (lx : location) (N D : Z) (x : Q) :
  0 <= N -> 0 < D -> located (shr_record_of_loc mx lx) N D ->
  (x * inject_Z D == inject_Z N * 2 ^ ex)%Q ->
  2 ^ 52 <= mx ->
  let E := Zdigits2 mx + ex - 53 in
  -1074 <= E < 970 ->
  exists (m : positive) (e : Z),
    binary_round_aux 53 1024 false mx ex lx = S754_finite false m e /\
    2 ^ 52 <= Z.pos m < 2 ^ 53 /\ E <= e <= E + 1 /\
    (x * (1 - half_ulp) <= inject_Z (Z.pos m) * 2 ^ e <= x * (1 + half_ulp))%Q /\
    (forall k : Z, (x <= inject_Z k * 2 ^ E)%Q ->
                   (inject_Z (Z.pos m) * 2 ^ e <= inject_Z k * 2 ^ E)%Q) /\
    (forall k : Z, (inject_Z k * 2 ^ E <= x)%Q ->
                   (inject_Z k * 2 ^ E <= inject_Z (Z.pos m) * 2 ^ e)%Q).
Proof.
  intros HN HD Hloc Hx Hmx E HE.
  assert (Hdig : 53 <= Zdigits2 mx) by (apply Zdigits2_ge; [lia | exact Hmx]).
  destruct (binary_round_aux_value mx ex lx N D x HN HD Hloc Hx)
    as [M [Hr [HM [Hup [Hdn [Herr Hnorm]]]]]].
  assert (HEE : Z.max ex (fexp64 (Zdigits2 mx + ex)) = E)
    by (unfold E, fexp64; lia).
  rewrite HEE in *.
  destruct Hnorm as [HM52 Hx52]; [lia | reflexivity |].
  destruct (pack_finite M E ltac:(lia) ltac:(lia)) as [m [e [Hp [He [Hme Hm]]]]].
  exists m, e. rewrite Hr, Hp. split; [reflexivity|].
  split; [now apply Hm|]. split; [exact He|].
  assert (Hq : (inject_Z (Z.pos m) * 2 ^ e == inject_Z M * 2 ^ E)%Q).
  { rewrite <- Hme, inject_Z_mult, pow2_inject by lia.
    replace e with (e - E + E) at 1 by lia. rewrite pow2_split. ring. }
  pose proof (pow2_pos E) as HP.
  split; [| split].
  - rewrite Hq. unfold half_ulp.
    change (2 ^ 52)%Q with (4503599627370496)%Q in Hx52.
    split; lra.
  - intros k Hk. rewrite Hq.
    apply Qmult_le_compat_r; [| now apply Qlt_le_weak].
    rewrite <- Zle_Qle. now apply Hup.
  - intros k Hk. rewrite Hq.
    apply Qmult_le_compat_r; [| now apply Qlt_le_weak].
    rewrite <- Zle_Qle. now apply Hdn.
Qed.

(** The location that a division computes is the one of its quotient. *)
Lemma new_location_located (N D : Z) :
  0 <= N -> 0 < D ->
  located (shr_record_of_loc (N / D) (new_location D (N mod D))) N D.
Proof.
  intros HN HD. pose proof (Z.mod_pos_bound N D HD) as Hb.
  unfold located. rewrite shr_m_of_loc. split; [reflexivity|].
  unfold new_location, new_location_even, new_location_odd.
  destruct (Z.even D) eqn:Ev.
  - destruct (Z.eqb_spec (N mod D) 0) as [E0|E0].
    + rewrite E0. cbn [shr_record_of_loc shr_r shr_s].
      split; [symmetry; apply Z.leb_gt; lia | reflexivity].
    + destruct (Z.compare_spec (2 * (N mod D)) D);
        cbn [shr_record_of_loc shr_r shr_s];
        destruct (Z.leb_spec D (2 * (N mod D))),
          (Z.eqb_spec (2 * (N mod D)) D); cbn; split; try reflexivity; lia.
  - assert (Hodd : 2 * (N mod D) <> D).
    { intros Heq. rewrite <- Heq, Z.even_mul in Ev. discriminate. }
    destruct (Z.eqb_spec (N mod D) 0) as [E0|E0].
    + rewrite E0. cbn [shr_record_of_loc shr_r shr_s].
      split; [symmetry; apply Z.leb_gt; lia | reflexivity].
    + destruct (Z.compare_spec (2 * (N mod D) + 1) D);
        cbn [shr_record_of_loc shr_r shr_s];
        destruct (Z.leb_spec D (2 * (N mod D))),
          (Z.eqb_spec (2 * (N mod D)) D); cbn; split; try reflexivity; lia.
Qed.

Lemma Zdigits2_53 (m : Z) : 2 ^ 52 <= m < 2 ^ 53 -> Zdigits2 m = 53.
Proof.
  intros H. apply Z.le_antisymm.
  - apply Zdigits2_le; lia.
  - apply Zdigits2_ge; lia.
Qed.

(** Division of two positive normal doubles whose quotient is in the normal
    range: the quotient rounded to nearest. *)
Lemma number_div_normal (m1 m2 : positive) (e1 e2 : Z) (x : Q) :
  2 ^ 52 <= Z.pos m1 < 2 ^ 53 -> 2 ^ 52 <= Z.pos m2 < 2 ^ 53 ->
  -1000 <= e1 - e2 <= 900 ->
  (x * inject_Z (Z.pos m2) == inject_Z (Z.pos m1) * 2 ^ (e1 - e2))%Q ->
  exists (m : positive) (e : Z),
    number_div (S754_finite false m1 e1) (S754_finite false m2 e2) =
      S754_finite false m e /\
    2 ^ 52 <= Z.pos m < 2 ^ 53 /\ e1 - e2 - 53 <= e <= e1 - e2 - 51 /\
    (x * (1 - half_ulp) <= inject_Z (Z.pos m) * 2 ^ e <= x * (1 + half_ulp))%Q /\
    (forall k : Z, (x <= inject_Z k * 2 ^ (e1 - e2 - 52))%Q ->
       (inject_Z (Z.pos m) * 2 ^ e <= inject_Z k * 2 ^ (e1 - e2 - 52))%Q) /\
    (forall k : Z, (inject_Z k * 2 ^ (e1 - e2 - 52) <= x)%Q ->
       (inject_Z k * 2 ^ (e1 - e2 - 52) <= inject_Z (Z.pos m) * 2 ^ e)%Q).
Proof.
  intros H1 H2 He Hx.
  unfold number_div, SFdiv, SFdiv_core_binary.
  change (fexp 53 1024) with fexp64.
  rewrite (Zdigits2_53 (Z.pos m1) H1), (Zdigits2_53 (Z.pos m2) H2).
  replace (Z.min (fexp64 (53 + e1 - (53 + e2))) (e1 - e2)) with (e1 - e2 - 53)
    by (unfold fexp64; lia).
  replace (e1 - e2 - (e1 - e2 - 53)) with 53 by lia.
  cbv iota beta.
  rewrite Z.shiftl_mul_pow2 by lia.
  set (N := Z.pos m1 * 2 ^ 53). set (D := Z.pos m2).
  assert (HN : 0 <= N) by (unfold N; lia).
  assert (HD : 0 < D) by (unfold D; lia).
  unfold Z.div_eucl at 1. fold (Z.div_eucl N D).
  pose proof (new_location_located N D HN HD) as Hloc.
  unfold Z.div, Z.modulo in Hloc.
  destruct (Z.div_eucl N D) as [q r] eqn:Eq.
  assert (Hq : q = N / D) by (unfold Z.div; now rewrite Eq).
  cbn [xorb].
  assert (Hqb : 2 ^ 52 <= q < 2 ^ 54).
  { subst q. unfold N, D.
    change (2 ^ 52) with 4503599627370496 in *.
    change (2 ^ 53) with 9007199254740992 in *.
    change (2 ^ 54) with 18014398509481984.
    split.
    - apply Z.div_le_lower_bound; lia.
    - apply Z.div_lt_upper_bound; lia. }
  assert (Hx' : (x * inject_Z D == inject_Z N * 2 ^ (e1 - e2 - 53))%Q).
  { unfold N, D. rewrite Hx, inject_Z_mult.
    replace (e1 - e2) with (53 + (e1 - e2 - 53)) at 1 by lia.
    rewrite pow2_split. change (inject_Z (2 ^ 53)) with (2 ^ 53)%Q. ring. }
  assert (Hdq : 53 <= Zdigits2 q <= 54).
  { split; [apply Zdigits2_ge | apply Zdigits2_le]; lia. }
  destruct (binary_round_aux_normal q (e1 - e2 - 53) (new_location D r) N D x
              HN HD Hloc Hx' ltac:(lia) ltac:(lia))
    as [m [e [Hr [Hm [Hee [Herr [Hup Hdn]]]]]]].
  exists m, e. split; [exact Hr|]. split; [exact Hm|]. split; [lia|].
  split; [exact Herr|].
  set (E := Zdigits2 q + (e1 - e2 - 53) - 53) in *.
  assert (HkE : forall k : Z,
            (inject_Z k * 2 ^ (e1 - e2 - 52) ==
             inject_Z (k * 2 ^ (e1 - e2 - 52 - E)) * 2 ^ E)%Q).
  { intros k. rewrite inject_Z_mult, pow2_inject by (unfold E; lia).
    replace (e1 - e2 - 52) with (e1 - e2 - 52 - E + E) at 1 by lia.
    rewrite pow2_split. ring. }
  split; intros k Hk; rewrite HkE in *; [now apply Hup | now apply Hdn].
Qed.


(** Multiplication of two positive normal doubles whose product is in the
    normal range: the product rounded to nearest. *)
Lemma number_mul_normal (m1 m2 : positive) (e1 e2 : Z) (x : Q) :
  2 ^ 52 <= Z.pos m1 < 2 ^ 53 -> 2 ^ 52 <= Z.pos m2 < 2 ^ 53 ->
  -1100 <= e1 + e2 <= 900 ->
  (x == inject_Z (Z.pos m1) * 2 ^ e1 * (inject_Z (Z.pos m2) * 2 ^ e2))%Q ->
  exists (m : positive) (e : Z),
    number_mul (S754_finite false m1 e1) (S754_finite false m2 e2) =
      S754_finite false m e /\
    2 ^ 52 <= Z.pos m < 2 ^ 53 /\ e1 + e2 + 52 <= e <= e1 + e2 + 54 /\
    (x * (1 - half_ulp) <= inject_Z (Z.pos m) * 2 ^ e <= x * (1 + half_ulp))%Q /\
    (forall k : Z, (x <= inject_Z k * 2 ^ (e1 + e2 + 53))%Q ->
       (inject_Z (Z.pos m) * 2 ^ e <= inject_Z k * 2 ^ (e1 + e2 + 53))%Q) /\
    (forall k : Z, (inject_Z k * 2 ^ (e1 + e2 + 53) <= x)%Q ->
       (inject_Z k * 2 ^ (e1 + e2 + 53) <= inject_Z (Z.pos m) * 2 ^ e)%Q).
Proof.
  intros H1 H2 He Hx.
  unfold number_mul, SFmul. cbn [xorb].
  set (N := Z.pos (m1 * m2)).
  assert (HNb : 2 ^ 104 <= N < 2 ^ 106).
  { unfold N. rewrite Pos2Z.inj_mul.
    change (2 ^ 52) with 4503599627370496 in *.
    change (2 ^ 53) with 9007199254740992 in *.
    change (2 ^ 104) with (4503599627370496 * 4503599627370496).
    change (2 ^ 106) with (9007199254740992 * 9007199254740992).
    nia. }
  assert (HN : 0 <= N) by (unfold N; lia).
  assert (Hx' : (x * inject_Z 1 == inject_Z N * 2 ^ (e1 + e2))%Q).
  { unfold N. rewrite Pos2Z.inj_mul, inject_Z_mult, Hx, pow2_split.
    change (inject_Z 1) with 1%Q. ring. }
  assert (Hdq : 105 <= Zdigits2 N <= 106).
  { split; [apply Zdigits2_ge | apply Zdigits2_le]; lia. }
  assert (H52 : 2 ^ 52 <= N).
  { assert (2 ^ 52 <= 2 ^ 104) by (apply Z.pow_le_mono_r; lia). lia. }
  destruct (binary_round_aux_normal N (e1 + e2) loc_Exact N 1 x
              HN ltac:(lia) (located_of_loc_exact N) Hx' H52 ltac:(lia))
    as [m [e [Hr [Hm [Hee [Herr [Hup Hdn]]]]]]].
  exists m, e. split; [exact Hr|]. split; [exact Hm|]. split; [lia|].
  split; [exact Herr|].
  set (E := Zdigits2 N + (e1 + e2) - 53) in *.
  assert (HkE : forall k : Z,
            (inject_Z k * 2 ^ (e1 + e2 + 53) ==
             inject_Z (k * 2 ^ (e1 + e2 + 53 - E)) * 2 ^ E)%Q).
  { intros k. rewrite inject_Z_mult, pow2_inject by (unfold E; lia).
    replace (e1 + e2 + 53) with (e1 + e2 + 53 - E + E) at 1 by lia.
    rewrite pow2_split. ring. }
  split; intros k Hk; rewrite HkE in *; [now apply Hup | now apply Hdn].
Qed.

Lemma iter_xO (d m : positive) : Z.pos (Pos.iter xO m d) = Z.pos m * 2 ^ Z.pos d.
Proof.
  induction d as [|d IH] using Pos.peano_ind.
  - cbn. lia.
  - rewrite Pos.iter_succ, Pos2Z.inj_xO, IH, Pos2Z.inj_succ, Z.pow_succ_r by lia.
    ring.
Qed.

Lemma shl_align_spec (mx : positive) (ex ex' : Z) :
  snd (shl_align mx ex ex') = Z.min ex ex' /\
  Z.pos (fst (shl_align mx ex ex')) = Z.pos mx * 2 ^ (ex - Z.min ex ex').
Proof.
  unfold shl_align. destruct (ex' - ex) as [|d|d] eqn:Ed; cbn [fst snd].
  - rewrite Z.min_l by lia. rewrite Z.sub_diag. split; [reflexivity | lia].
  - rewrite Z.min_l by lia. rewrite Z.sub_diag. split; [reflexivity | lia].
  - rewrite Z.min_r by lia. split; [reflexivity|].
    rewrite iter_xO. f_equal. f_equal. lia.
Qed.

(** A positive integer below [2 ^ 53] is a double, exactly. *)
Lemma number_of_Z_exact (z : Z) :
  0 < z < 2 ^ 53 ->
  exists m : positive,
    number_of_Z z = S754_finite false m (Zdigits2 z - 53) /\
    2 ^ 52 <= Z.pos m < 2 ^ 53 /\
    Z.pos m = z * 2 ^ (53 - Zdigits2 z).
Proof.
  intros Hz. destruct z as [|p|p]; try lia.
  destruct (Zdigits2_bounds (Z.pos p) ltac:(lia)) as [Hk0 [Hk1 Hk2]].
  assert (Hk : Zdigits2 (Z.pos p) <= 53) by (apply Zdigits2_le; lia).
  set (k := Zdigits2 (Z.pos p)) in *.
  unfold number_of_Z, binary_normalize, binary_round.
  change (fexp 53 1024) with fexp64.
  change (Z.pos (digits2_pos p)) with k.
  destruct (shl_align_spec p 0 (fexp64 (k + 0))) as [Hez Hmz].
  destruct (shl_align p 0 (fexp64 (k + 0))) as [mz ez]. cbn [fst snd] in Hez, Hmz.
  assert (Hez' : ez = k - 53) by (unfold fexp64 in Hez; lia).
  clear Hez. subst ez.
  replace (0 - Z.min 0 (fexp64 (k + 0))) with (53 - k) in Hmz by (unfold fexp64; lia).
  assert (Hmzb : 2 ^ 52 <= Z.pos mz < 2 ^ 53).
  { rewrite Hmz.
    assert (A : 2 ^ 52 = 2 ^ (k - 1) * 2 ^ (53 - k))
      by (rewrite <- Z.pow_add_r by lia; f_equal; lia).
    assert (B : 2 ^ 53 = 2 ^ k * 2 ^ (53 - k))
      by (rewrite <- Z.pow_add_r by lia; f_equal; lia).
    rewrite A, B.
    assert (0 < 2 ^ (53 - k)) by (apply Z.pow_pos_nonneg; lia). nia. }
  exists mz. split; [| split; [exact Hmzb | exact Hmz]].
  destruct (binary_round_aux_located (Z.pos mz) (k - 53) loc_Exact (Z.pos mz) 1
              ltac:(lia) ltac:(lia) (located_of_loc_exact _)) as [Hr _].
  rewrite Hr. rewrite (Zdigits2_53 _ Hmzb).
  replace (Z.max (k - 53) (fexp64 (53 + (k - 53)))) with (k - 53)
    by (unfold fexp64; lia).
  rewrite Z.sub_diag, Z.pow_0_r.
  replace (rne (Z.pos mz) (1 * 1)) with (Z.pos mz)
    by (symmetry; rewrite <- (Z.mul_1_r (Z.pos mz)) at 1; apply rne_exact; lia).
  unfold pack.
  destruct (Z.eqb_spec (Z.pos mz) (2 ^ 53)) as [E|E]; [lia|].
  destruct (Z.leb_spec (k - 53) 971); [reflexivity | lia].
Qed.

Lemma Zdigits2_mono (a b : Z) : 0 < a <= b -> Zdigits2 a <= Zdigits2 b.
Proof.
  intros H. destruct (Zdigits2_bounds b ltac:(lia)) as [H0 [_ H2]].
  apply Zdigits2_le; lia.
Qed.

(** [(d / t) * 100] for counters [0 < d <= t < 2 ^ 53]. *)
Lemma percent_value (d t : Z) :
  0 < d <= t -> t < 2 ^ 53 ->
  exists (m : positive) (e : Z),
    number_mul (number_div (number_of_Z d) (number_of_Z t)) (number_of_Z 100) =
      S754_finite false m e /\
    2 ^ 52 <= Z.pos m < 2 ^ 53 /\
    let q := (inject_Z (Z.pos m) * 2 ^ e)%Q in
    let exact := (100 * inject_Z d / inject_Z t)%Q in
    (0 < q /\ q <= 100 /\ Qabs (q - exact) <= exact * two_roundings)%Q.
Proof.
  intros Hd Ht.
  destruct (number_of_Z_exact d ltac:(lia)) as [m1 [Hn1 [Hb1 Hm1]]].
  destruct (number_of_Z_exact t ltac:(lia)) as [m2 [Hn2 [Hb2 Hm2]]].
  destruct (Zdigits2_bounds d ltac:(lia)) as [Hkd _].
  destruct (Zdigits2_bounds t ltac:(lia)) as [Hkt _].
  assert (Hkd53 : Zdigits2 d <= 53) by (apply Zdigits2_le; lia).
  assert (Hkt53 : Zdigits2 t <= 53) by (apply Zdigits2_le; lia).
  pose proof (Zdigits2_mono d t Hd) as Hmono.
  set (kd := Zdigits2 d) in *. set (kt := Zdigits2 t) in *.
  set (x1 := (inject_Z d / inject_Z t)%Q).
  assert (HtQ : (0 < inject_Z t)%Q) by (rewrite <- (Zlt_Qlt 0); lia).
  assert (HdQ : (0 < inject_Z d)%Q) by (rewrite <- (Zlt_Qlt 0); lia).
  assert (Hdt : (inject_Z d <= inject_Z t)%Q) by (rewrite <- Zle_Qle; lia).
  assert (Hx1t : (x1 * inject_Z t == inject_Z d)%Q).
  { unfold x1. field. intros H0. rewrite H0 in HtQ. now apply (Qlt_irrefl 0). }
  assert (Hx1pos : (0 < x1)%Q).
  { apply (Qmult_lt_r _ _ (inject_Z t) HtQ). rewrite Hx1t. lra. }
  assert (Hx1le : (x1 <= 1)%Q).
  { apply (Qmult_le_r _ _ (inject_Z t) HtQ). rewrite Hx1t. lra. }
  assert (Hx1 : (x1 * inject_Z (Z.pos m2) ==
                 inject_Z (Z.pos m1) * 2 ^ (kd - 53 - (kt - 53)))%Q).
  { rewrite Hm1, Hm2, !inject_Z_mult, !pow2_inject by lia.
    rewrite Qmult_assoc, Hx1t.
    replace (53 - kt) with (53 - kd + (kd - 53 - (kt - 53))) by lia.
    rewrite pow2_split. ring. }
  destruct (number_div_normal m1 m2 (kd - 53) (kt - 53) x1 Hb1 Hb2 ltac:(lia) Hx1)
    as [m [e [Hdiv [Hmb [He [[Herr1 Herr2] [Hup1 _]]]]]]].
  set (q1 := (inject_Z (Z.pos m) * 2 ^ e)%Q) in *.
  assert (Hq1le : (q1 <= 1)%Q).
  { set (c := kd - 53 - (kt - 53) - 52) in *.
    assert (H1 : (1 == inject_Z (2 ^ (- c)) * 2 ^ c)%Q).
    { rewrite pow2_inject by (unfold c; lia).
      rewrite <- pow2_split. replace (- c + c) with 0 by lia. reflexivity. }
    rewrite H1. apply Hup1. now rewrite <- H1. }
  assert (H100 : number_of_Z 100 = S754_finite false 7036874417766400 (-46))
    by reflexivity.
  assert (Hh : (inject_Z (Z.pos 7036874417766400) * 2 ^ (-46) == 100)%Q)
    by reflexivity.
  destruct (number_mul_normal m 7036874417766400 e (-46)
              (q1 * (inject_Z (Z.pos 7036874417766400) * 2 ^ (-46)))%Q
              Hmb ltac:(cbn; lia) ltac:(lia) ltac:(reflexivity))
    as [m' [e' [Hmul [Hmb' [He' [[Herr3 Herr4] [Hup2 _]]]]]]].
  exists m', e'. split.
  { now rewrite Hn1, Hn2, Hdiv, H100. }
  split; [exact Hmb'|].
  cbv zeta. set (q := (inject_Z (Z.pos m') * 2 ^ e')%Q) in *.
  rewrite Hh in Herr3, Herr4.
  assert (Hqle : (q <= 100)%Q).
  { set (c := e + -46 + 53) in *.
    assert (H1 : (100 == inject_Z (100 * 2 ^ (- c)) * 2 ^ c)%Q).
    { rewrite inject_Z_mult, pow2_inject by (unfold c; lia).
      rewrite <- Qmult_assoc, <- pow2_split.
      replace (- c + c) with 0 by lia. reflexivity. }
    rewrite H1. apply Hup2. rewrite Hh, <- H1. lra. }
  assert (Hex : (100 * inject_Z d / inject_Z t == 100 * x1)%Q).
  { unfold x1. field. intros H0. rewrite H0 in HtQ. now apply (Qlt_irrefl 0). }
  rewrite Hex. unfold half_ulp in *. unfold two_roundings.
  split; [lra|]. split; [exact Hqle|].
  apply Qabs_Qle_condition. split; lra.
Qed.

(** A positive integer is never read as zero. *)
Lemma number_of_Z_positive (z : Z) :
  0 < z ->
  (exists m e, number_of_Z z = S754_finite false m e) \/
  number_of_Z z = S754_infinity false.
Proof.
  intros Hz. destruct z as [|p|p]; try lia.
  unfold number_of_Z, binary_normalize, binary_round.
  change (fexp 53 1024) with fexp64.
  destruct (shl_align_spec p 0 (fexp64 (Z.pos (digits2_pos p) + 0))) as [Hez Hmz].
  destruct (shl_align p 0 (fexp64 (Z.pos (digits2_pos p) + 0))) as [mz ez].
  cbn [fst snd] in Hez, Hmz.
  assert (Hez' : -1074 <= ez) by (unfold fexp64 in Hez; lia).
  destruct (binary_round_aux_located (Z.pos mz) ez loc_Exact (Z.pos mz) 1
              ltac:(lia) ltac:(lia) (located_of_loc_exact _)) as [Hr [HM _]].
  rewrite Hr.
  set (E := Z.max ez (fexp64 (Zdigits2 (Z.pos mz) + ez))) in *.
  set (M := rne (Z.pos mz) (1 * 2 ^ (E - ez))) in *.
  assert (HMpos : 1 <= M).
  { assert (0 <= E - ez) by (unfold E; lia).
    apply rne_ge.
    - assert (0 < 2 ^ (E - ez)) by (apply Z.pow_pos_nonneg; lia). lia.
    - destruct (Zdigits2_bounds (Z.pos mz) ltac:(lia)) as [H0 [H1 _]].
      assert (2 ^ (E - ez) <= 2 ^ (Zdigits2 (Z.pos mz) - 1))
        by (apply Z.pow_le_mono_r; unfold E, fexp64; lia).
      lia. }
  unfold pack.
  destruct (Z.eqb_spec M (2 ^ 53)) as [HMe|HMn].
  - change (2 ^ 52) with (Z.pos (Z.to_pos (2 ^ 52))). cbv iota beta.
    destruct (E + 1 <=? 971); [left; eauto | now right].
  - destruct M as [|m|m]; try lia.
    destruct (E <=? 971); [left; eauto | now right].
Qed.

(** No documented line: [(0 / t) * 100] is [+0]. *)
Lemma percent_zero (t : Z) :
  0 < t ->
  number_mul (number_div (number_of_Z 0) (number_of_Z t)) (number_of_Z 100) =
    number_of_Z 0.
Proof.
  intros Ht.
  destruct (number_of_Z_positive t Ht) as [[m [e H]]|H]; rewrite H; reflexivity.
Qed.

(** Every complex line documented: [(t / t) * 100] is [100]. *)
Lemma percent_full (t : Z) :
  0 < t < 2 ^ 53 ->
  number_mul (number_div (number_of_Z t) (number_of_Z t)) (number_of_Z 100) =
    number_of_Z 100.
Proof.
  intros Ht.
  destruct (number_of_Z_exact t Ht) as [m1 [Hn1 [Hb1 Hm1]]].
  set (k := Zdigits2 t) in *.
  assert (Hx : (1 * inject_Z (Z.pos m1) ==
                inject_Z (Z.pos m1) * 2 ^ (k - 53 - (k - 53)))%Q).
  { rewrite Z.sub_diag. change (2 ^ 0)%Q with 1%Q. ring. }
  destruct (number_div_normal m1 m1 (k - 53) (k - 53) 1 Hb1 Hb1 ltac:(lia) Hx)
    as [m [e [Hdiv [Hmb [He [_ [Hup Hdn]]]]]]].
  replace (k - 53 - (k - 53) - 52) with (-52) in Hup, Hdn by lia.
  assert (H1 : (1 == inject_Z (2 ^ 52) * 2 ^ (-52))%Q) by reflexivity.
  assert (Hq : (inject_Z (Z.pos m) * 2 ^ e == 1)%Q).
  { apply Qle_antisym.
    - rewrite H1. apply Hup. rewrite <- H1. apply Qle_refl.
    - rewrite H1. apply Hdn. rewrite <- H1. apply Qle_refl. }
  assert (Hme : Z.pos m = 2 ^ 52 /\ e = -52).
  { assert (Hz : (inject_Z (Z.pos m) == inject_Z (2 ^ (- e)))%Q).
    { rewrite pow2_inject by lia.
      rewrite <- (Qmult_1_l (2 ^ (- e))), <- Hq, <- Qmult_assoc, <- pow2_split.
      replace (e + - e) with 0 by lia. change (2 ^ 0)%Q with 1%Q. ring. }
    apply (proj1 (inject_Z_injective _ _)) in Hz.
    assert (Hc : e = -53 \/ e = -52 \/ e = -51) by lia.
    destruct Hc as [-> | [-> | ->]]; cbn in Hz, Hmb |- *; lia. }
  destruct Hme as [Hm He']. subst e.
  rewrite Hn1, Hdiv.
  assert (Hmm : m = Z.to_pos (2 ^ 52)) by lia. subst m.
  reflexivity.
Qed.


(** The double [(d / t) * 100] and the ratio it stands for. *)
Lemma percent_is (d t : Z) :
  0 <= d <= t -> 0 < t < 2 ^ 53 ->
  exists q,
    number_is (number_mul (number_div (number_of_Z d) (number_of_Z t))
                          (number_of_Z 100)) q /\
    (0 <= q /\ q <= 100)%Q /\
    (Qabs (q - 100 * inject_Z d / inject_Z t)
     <= 100 * inject_Z d / inject_Z t * two_roundings)%Q.
Proof.
  intros Hd Ht. destruct (Z.eq_dec d 0) as [-> | Hnz].
  - exists 0%Q. rewrite percent_zero by lia. split; [reflexivity|].
    split; [split; discriminate|].
    assert (H0 : (100 * inject_Z 0 / inject_Z t == 0)%Q).
    { unfold Qdiv. change (inject_Z 0) with 0%Q. ring. }
    rewrite H0. discriminate.
  - destruct (percent_value d t ltac:(lia) ltac:(lia))
      as [m [e [Hp [_ [Hpos [Hle Herr]]]]]].
    exists (inject_Z (Z.pos m) * 2 ^ e)%Q. rewrite Hp.
    split; [cbn [number_is cond_Zopp]; reflexivity|].
    split; [split; [now apply Qlt_le_weak | exact Hle] | exact Herr].
Qed.

(** *** The counters and the percentage *)

(** The counters of [analyzeDocumentation]. *)
Lemma analyzeDocumentation_spec (lines : list jsstring) :
  let r := analyzeDocumentation lines in
  totalComplexLines r = len (complex_lines lines) /\
  documentedComplexLines r = len (documented_pairs lines) /\
  0 <= documentedComplexLines r <= totalComplexLines r /\
  totalComplexLines r <= len lines.
Proof.
  unfold analyzeDocumentation. cbn zeta.
  destruct (fold_doc_line lines doc_init) as [Ht Hd]. simpl in Ht, Hd.
  pose proof (documented_from_bound lines false) as Hb.
  cbn [totalComplexLines documentedComplexLines percentage].
  rewrite Ht, Hd, documented_from_start in *.
  repeat split; try lia.
  unfold complex_lines, len. apply inj_le, filter_length_le.
Qed.

(** The percentage of [analyzeDocumentation] from its counters. *)
Lemma analyzeDocumentation_percentage (lines : list jsstring) :
  let r := analyzeDocumentation lines in
  percentage r =
    if totalComplexLines r =? 0 then number_of_Z 100
    else number_mul
           (number_div (number_of_Z (documentedComplexLines r))
                       (number_of_Z (totalComplexLines r)))
           (number_of_Z 100).
Proof. reflexivity. Qed.

Lemma percentage_in_range (lines : list jsstring) :
  len lines < 2 ^ 53 ->
  exists q, number_is (percentage (analyzeDocumentation lines)) q /\
            (0 <= q /\ q <= 100)%Q.
Proof.
  intros Hlen.
  destruct (analyzeDocumentation_spec lines) as (_ & _ & Hle & Hn).
  pose proof (analyzeDocumentation_percentage lines) as Hp. cbv zeta in Hp.
  rewrite Hp.
  destruct (Z.eqb_spec (totalComplexLines (analyzeDocumentation lines)) 0) as [Hz | Hnz].
  - exists 100%Q. split; [reflexivity | split; discriminate].
  - destruct (percent_is (documentedComplexLines (analyzeDocumentation lines))
                (totalComplexLines (analyzeDocumentation lines))
                ltac:(lia) ltac:(lia)) as (q & Hq & Hr & _).
    now exists q.
Qed.

(** C4, as the specification states it, fails: with one of three complex
    lines documented the percentage is the double 33.33333333333333, which
    is not the ratio 100 * 1 / 3, and not the double nearest to that ratio
    either, which is what 100 * 1 / 3 gives in doubles. *)
Lemma claimed_percentage_counterexample :
  ~ claimed_percentage (analyzeDocumentation one_of_three_example) /\
  percentage (analyzeDocumentation one_of_three_example) <>
    number_div (number_mul (number_of_Z 100) (number_of_Z 1)) (number_of_Z 3).
Proof.
  split.
  - unfold claimed_percentage.
    replace (analyzeDocumentation one_of_three_example)
      with {| totalComplexLines := 3; documentedComplexLines := 1;
              percentage := S754_finite false 4691249611844266 (-47) |}
      by (vm_compute; reflexivity).
    cbn [totalComplexLines documentedComplexLines percentage Z.eqb number_is].
    intros H. vm_compute in H. discriminate H.
  - vm_compute. discriminate.
Qed.

(** C4, amended: [analyzeDocumentation] counts as complex the lines whose
    trimmed text has a named function, class or interface declaration or a
    whole-word [if], [for], [while] or [switch]; [totalComplexLines] is the
    number of complex lines and [documentedComplexLines] the number of
    complex lines whose preceding line, trimmed, begins with [//], [/*] or
    [*]; documented is at most total.  The percentage is 100 when there is
    no complex line and otherwise the double [(documented / total) * 100],
    the quotient and then the product rounded to nearest: it stands for a
    ratio within [2 ^ -52 + 2 ^ -106] of 100 * documented / total,
    relatively, is exactly 0 when no complex line is documented and exactly
    100 when every one is, and lies between 0 and 100.  A comment line
    followed by [if (x) { }] gives 1, 1 and 100.  The array of lines has
    fewer than [2 ^ 53] elements, as every array has. *)
Theorem documentation_coverage_amended (lines : list jsstring) :
  len lines < 2 ^ 53 ->
  let r := analyzeDocumentation lines in
  (forall t, isComplex t = true <->
             declaration_in (str "function") t \/ declaration_in (str "class") t \/
             declaration_in (str "interface") t \/
             whole_word_in (str "if") t \/ whole_word_in (str "for") t \/
             whole_word_in (str "while") t \/ whole_word_in (str "switch") t) /\
  (forall t, isComment t = true <->
             (exists rest, t = str "//" ++ rest) \/
             (exists rest, t = str "/*" ++ rest) \/
             (exists rest, t = str "*" ++ rest)) /\
  totalComplexLines r = len (filter (fun line => isComplex (trim line)) lines) /\
  documentedComplexLines r =
    len (filter (fun pc => isComment (trim (fst pc)) && isComplex (trim (snd pc)))
                (combine lines (tl lines))) /\
  0 <= documentedComplexLines r <= totalComplexLines r /\
  (totalComplexLines r = 0 -> percentage r = number_of_Z 100) /\
  (totalComplexLines r <> 0 ->
   percentage r =
     number_mul (number_div (number_of_Z (documentedComplexLines r))
                            (number_of_Z (totalComplexLines r)))
                (number_of_Z 100) /\
   (documentedComplexLines r = 0 -> percentage r = number_of_Z 0) /\
   (documentedComplexLines r = totalComplexLines r ->
    percentage r = number_of_Z 100) /\
   exists q,
     number_is (percentage r) q /\
     (Qabs (q - 100 * inject_Z (documentedComplexLines r)
                / inject_Z (totalComplexLines r))
      <= 100 * inject_Z (documentedComplexLines r)
         / inject_Z (totalComplexLines r) * two_roundings)%Q) /\
  (exists q, number_is (percentage r) q /\ (0 <= q /\ q <= 100)%Q) /\
  analyzeDocumentation (split_lines commented_example) =
    {| totalComplexLines := 1; documentedComplexLines := 1;
       percentage := number_of_Z 100 |}.
Proof.
  intros Hlen r. split; [apply isComplex_spec|]. split; [apply isComment_spec|].
  destruct (analyzeDocumentation_spec lines) as (Ht & Hd & Hle & Hn).
  pose proof (analyzeDocumentation_percentage lines) as Hp.
  cbv zeta in Hp. fold r in Ht, Hd, Hle, Hn, Hp.
  split; [exact Ht|]. split; [exact Hd|]. split; [exact Hle|].
  split; [|split; [|split; [now apply percentage_in_range | vm_compute; reflexivity]]].
  - intros Hz. rewrite Hp, Hz. reflexivity.
  - intros Hnz. apply Z.eqb_neq in Hnz as Hb. rewrite Hb in Hp.
    split; [exact Hp|]. split; [|split].
    + intros H0. rewrite Hp, H0. apply percent_zero. lia.
    + intros Hfull. rewrite Hp, Hfull. apply percent_full. lia.
    + rewrite Hp.
      destruct (percent_is (documentedComplexLines r) (totalComplexLines r)
                  ltac:(lia) ltac:(lia)) as (q & Hq & _ & Herr).
      now exists q.
Qed.

Lemma documentation_coverage_amended_witness :
  let r := analyzeDocumentation one_of_three_example in
  len one_of_three_example < 2 ^ 53 /\
  totalComplexLines r <> 0 /\
  exists q,
    number_is (percentage r) q /\
    (Qabs (q - 100 * inject_Z (documentedComplexLines r)
               / inject_Z (totalComplexLines r))
     <= 100 * inject_Z (documentedComplexLines r)
        / inject_Z (totalComplexLines r) * two_roundings)%Q.
Proof.
  intros r.
  assert (Hlen : len one_of_three_example < 2 ^ 53) by (vm_compute; reflexivity).
  assert (H : totalComplexLines r <> 0) by (vm_compute; discriminate).
  split; [exact Hlen|]. split; [exact H|].
  exact (proj2 (proj2 (proj2
    (proj1 (proj2 (proj2 (proj2 (proj2 (proj2 (proj2
       (documentation_coverage_amended one_of_three_example Hlen))))))) H)))).
Defined.

(** ** The line splitter and the whole report *)

Lemma split_lines_length (s : jsstring) :
  length (split_lines s) = S (length (filter (N.eqb 10) s)).
Proof.
  induction s as [|c s IH]; [reflexivity|]. cbn [split_lines filter].
  rewrite (N.eqb_sym 10 c). destruct (c =? 10)%N.
  - cbn [length]. now rewrite IH.
  - destruct (split_lines s); cbn [length] in *; [discriminate | exact IH].
Qed.

Lemma nesting_result_shape (lines : list jsstring) :
  let r := calculateMaxNestingDepth lines in
  0 <= nd_max r /\
  len (nd_locations r) = nd_max r /\
  map loc_depth (nd_locations r) = depth_tags 1 (Z.to_nat (nd_max r)).
Proof.
  unfold calculateMaxNestingDepth. simpl.
  set (st := forEach nd_line lines 0 nd_init).
  assert (Hinv : nd_inv st)
    by (unfold st; try unfold nesting_after; auto with nesting).
  destruct (nesting_first_peak lines) as (_ & Hzero & Hpos). fold st in Hzero, Hpos.
  destruct Hinv as (_ & Hd & _). pose proof (len_nonneg (deepest st)) as Hn.
  split; [lia|]. split; [assumption|].
  destruct (Z.eq_dec (maxDepth st) 0) as [Hz | Hnz].
  - rewrite (Hzero Hz), Hz. reflexivity.
  - destruct Hpos as (before & s & after & _ & _ & _ & Hsnap); [lia|].
    rewrite Hsnap, snapshot_tags. f_equal.
    rewrite Hsnap, snapshot_len in Hd. unfold len in Hd. lia.
Qed.

(** C8, as the specification states it, fails: the empty text is split
    into one line, not into none. *)
Lemma split_lines_empty_counterexample : split_lines (str "") <> [].
Proof. discriminate. Qed.

(** C8, amended: the empty text gives exactly one line, the empty one;
    no text gives zero lines, the lines being one more than the line feeds
    of the text. *)
Theorem split_lines_empty_is_one_line :
  split_lines (str "") = [str ""] /\
  forall s, length (split_lines s) = S (length (filter (N.eqb 10) s)).
Proof. split; [reflexivity | apply split_lines_length]. Qed.

(** * Further properties *)

(** ** Trimming and splitting *)

Lemma drop_while_head (p : char -> bool) (s : jsstring) :
  match drop_while p s with
  | c :: _ => p c = false
  | [] => True
  end.
Proof.
  induction s as [|c s IH]; simpl; [exact I|].
  destruct (p c) eqn:E; [exact IH | exact E].
Qed.

Lemma drop_while_fixed (p : char -> bool) (s : jsstring) :
  match s with c :: _ => p c = false | [] => True end ->
  drop_while p s = s.
Proof. destruct s as [|c s]; simpl; [reflexivity|]. now intros ->. Qed.

Lemma drop_while_idem (p : char -> bool) (s : jsstring) :
  drop_while p (drop_while p s) = drop_while p s.
Proof. apply drop_while_fixed, drop_while_head. Qed.

Lemma trimEnd_prefix (s : jsstring) :
  exists spaces, s = trimEnd s ++ spaces /\ forallb is_space spaces = true.
Proof.
  unfold trimEnd, trimStart.
  destruct (drop_while_split is_space (rev s)) as (u & Heq & Hu).
  exists (rev u). split.
  - rewrite <- rev_app_distr, <- Heq. now rewrite rev_involutive.
  - rewrite forallb_forall in *. intros c Hc. apply Hu. now apply in_rev.
Qed.

Lemma trimEnd_idem (s : jsstring) : trimEnd (trimEnd s) = trimEnd s.
Proof.
  unfold trimEnd, trimStart. rewrite rev_involutive. now rewrite drop_while_idem.
Qed.

Lemma trimStart_trimEnd (s : jsstring) :
  match s with c :: _ => is_space c = false | [] => True end ->
  trimStart (trimEnd s) = trimEnd s.
Proof.
  intros Hs. apply drop_while_fixed.
  destruct (trimEnd_prefix s) as (spaces & Heq & _).
  destruct (trimEnd s) as [|c t]; [exact I|].
  rewrite Heq in Hs. exact Hs.
Qed.

(** Trimming twice is trimming once. *)
Lemma trim_idem (s : jsstring) : trim (trim s) = trim s.
Proof.
  unfold trim. rewrite (trimStart_trimEnd (trimStart s)).
  - apply trimEnd_idem.
  - apply (drop_while_head is_space s).
Qed.

Lemma split_lines_nonempty (s : jsstring) : split_lines s <> [].
Proof.
  intros H. apply (f_equal (@length jsstring)) in H.
  rewrite split_lines_length in H. discriminate.
Qed.

Lemma join_lines_cons (line next : jsstring) (rest : list jsstring) :
  join_lines (line :: next :: rest) = line ++ nl ++ join_lines (next :: rest).
Proof. reflexivity. Qed.

Lemma join_split_lines (s : jsstring) : join_lines (split_lines s) = s.
Proof.
  induction s as [|c s IH]; [reflexivity|]. cbn [split_lines].
  pose proof (split_lines_nonempty s) as Hne.
  destruct (N.eqb_spec c 10) as [-> | Hc].
  - destruct (split_lines s) as [|l ls]; [contradiction|].
    rewrite join_lines_cons, IH. reflexivity.
  - destruct (split_lines s) as [|l ls]; [contradiction|].
    destruct ls as [|l' ls]; [simpl in *; now rewrite IH|].
    rewrite join_lines_cons. rewrite join_lines_cons in IH.
    simpl. now rewrite <- IH.
Qed.

Lemma split_lines_no_lf (s : jsstring) :
  Forall (fun line => ~ In 10%N line) (split_lines s).
Proof.
  induction s as [|c s IH]; cbn [split_lines].
  - constructor; [intros [] | constructor].
  - destruct (N.eqb_spec c 10) as [-> | Hc].
    + constructor; [intros [] | exact IH].
    + destruct (split_lines s) as [|l ls]; [repeat constructor; simpl; intuition|].
      inversion IH as [|? ? Hl Hls]; subst. constructor; [|exact Hls].
      simpl. intros [H | H]; [now apply Hc | now apply Hl].
Qed.

Lemma split_lines_line (line rest : jsstring) :
  ~ In 10%N line -> split_lines (line ++ nl ++ rest) = line :: split_lines rest.
Proof.
  induction line as [|c line IH]; intros Hno; [reflexivity|].
  simpl in Hno. cbn [app split_lines].
  destruct (N.eqb_spec c 10) as [-> | Hc]; [exfalso; apply Hno; now left|].
  rewrite IH by (intros H; apply Hno; now right). reflexivity.
Qed.

Lemma split_lines_single (line : jsstring) :
  ~ In 10%N line -> split_lines line = [line].
Proof.
  induction line as [|c line IH]; intros Hno; [reflexivity|].
  simpl in Hno. cbn [split_lines].
  destruct (N.eqb_spec c 10) as [-> | Hc]; [exfalso; apply Hno; now left|].
  rewrite IH by (intros H; apply Hno; now right). reflexivity.
Qed.

Lemma split_join_lines (lines : list jsstring) :
  lines <> [] -> Forall (fun line => ~ In 10%N line) lines ->
  split_lines (join_lines lines) = lines.
Proof.
  induction lines as [|line rest IH]; intros Hne Hall; [contradiction|].
  inversion Hall as [|? ? Hl Hrest]; subst.
  destruct rest as [|next rest]; [now apply split_lines_single|].
  rewrite join_lines_cons, split_lines_line by assumption.
  f_equal. apply IH; [discriminate | assumption].
Qed.

(** X1: the splitter and joining with line feeds are inverse to each other:
    the lines of a text hold no line feed and joined again they give the
    text back, and a non-empty list of lines without line feeds is what the
    splitter returns on their join. *)
Theorem split_lines_join_inverse (sourceCode : jsstring) (lines : list jsstring) :
  join_lines (split_lines sourceCode) = sourceCode /\
  Forall (fun line => ~ In 10%N line) (split_lines sourceCode) /\
  (lines <> [] -> Forall (fun line => ~ In 10%N line) lines ->
   split_lines (join_lines lines) = lines).
Proof.
  split; [apply join_split_lines|]. split; [apply split_lines_no_lf|].
  apply split_join_lines.
Qed.

Lemma split_lines_join_inverse_witness :
  split_lines (join_lines nested_example) = nested_example.
Proof.
  apply (split_lines_join_inverse [] nested_example); [discriminate|].
  unfold nested_example. repeat constructor; vm_compute; intuition discriminate.
Defined.

(** ** The renderer's check of the duplicate blocks *)

Lemma line_at_numbered (sourceCode code : jsstring) (n : Z) :
  In n (line_numbers_of code (split_lines sourceCode) 1) ->
  line_at sourceCode n = Some code.
Proof.
  intros H. apply line_numbers_of_In in H. destruct H as (Hle & line & Hnth & Ht).
  unfold line_at. destruct (Z.ltb_spec (n - 1) 0); [lia|].
  now rewrite Hnth, Ht.
Qed.

Lemma every_location_same (sourceCode code : jsstring) (locations : list LineRef) :
  trim code = code ->
  (forall loc, In loc locations -> line_at sourceCode (ref_line loc) = Some code) ->
  every_location sourceCode code locations = Some true.
Proof.
  intros Ht. induction locations as [|loc rest IH]; intros Hall; [reflexivity|].
  cbn [every_location]. rewrite (Hall loc) by now left.
  rewrite Ht, string_eqb_refl. apply IH. intros l Hl. apply Hall. now right.
Qed.

(** X2: for every block that [analyzeCode] reports, the check of
    [displayMetrics] on the same source reads every location without
    throwing and finds the code of the block there, so the warning about
    inexact duplicates is never printed; the code of a block is already
    trimmed. *)
Theorem reported_blocks_pass_display_check
    (maxArguments : N) (sourceCode : jsstring) (r : CodeMetrics)
    (b : DuplicateBlock) :
  analyzeCode maxArguments sourceCode = Some r ->
  In b (duplicatedCodeBlocks r) ->
  isDuplication sourceCode b = Some true /\ trim (dup_code b) = dup_code b.
Proof.
  unfold analyzeCode. intros Hr Hb.
  destruct (Engine.calculateMaxNestingDepth maxArguments (split_lines sourceCode))
    as [nesting|]; [|discriminate].
  destruct (findDuplicatedCode_spec (split_lines sourceCode))
    as (blocks & Hret & _ & Hall).
  rewrite Hret in Hr. injection Hr as <-. simpl in Hb.
  destruct (Hall b Hb) as (_ & _ & _ & Hlocs & line & _ & Hcode).
  assert (Ht : trim (dup_code b) = dup_code b) by (rewrite Hcode; apply trim_idem).
  split; [|exact Ht].
  apply every_location_same; [exact Ht|].
  intros loc Hloc. apply line_at_numbered. rewrite <- Hlocs.
  now apply in_map.
Qed.

Lemma reported_blocks_pass_display_check_witness :
  exists r b,
    analyzeCode 65535 (join_lines duplicate_example) = Some r /\
    In b (duplicatedCodeBlocks r) /\
    isDuplication (join_lines duplicate_example) b = Some true.
Proof.
  eexists. eexists.
  split; [vm_compute; reflexivity|]. split; [left; reflexivity|].
  eapply (reported_blocks_pass_display_check 65535 (join_lines duplicate_example));
    [vm_compute; reflexivity | left; reflexivity].
Defined.

(** ** Indentation *)

Lemma fd_line_trim (m : JsMap) (line : jsstring) (i : Z) :
  fd_line m (trim line) i = fd_line m line i.
Proof. unfold fd_line. now rewrite trim_idem. Qed.

Lemma nd_line_trim (st : ndState) (line : jsstring) (i : Z) :
  nd_line st (trim line) i = nd_line st line i.
Proof. unfold nd_line. now rewrite trim_idem. Qed.

Lemma doc_line_trim (st : docState) (line : jsstring) :
  doc_line st (trim line) = doc_line st line.
Proof. unfold doc_line. now rewrite trim_idem. Qed.

Lemma fd_loop_trim (lines : list jsstring) :
  forall i m, fd_loop (map trim lines) i m = fd_loop lines i m.
Proof.
  induction lines as [|line rest IH]; intros i m; [reflexivity|].
  cbn [map fd_loop]. rewrite fd_line_trim.
  destruct (fd_line m line i); [apply IH | reflexivity].
Qed.

Lemma forEach_nd_line_trim (lines : list jsstring) :
  forall i st, forEach nd_line (map trim lines) i st = forEach nd_line lines i st.
Proof.
  induction lines as [|line rest IH]; intros i st; [reflexivity|].
  cbn [map forEach]. rewrite nd_line_trim. apply IH.
Qed.

Lemma fold_doc_line_trim (lines : list jsstring) :
  forall st, fold_left doc_line (map trim lines) st = fold_left doc_line lines st.
Proof.
  induction lines as [|line rest IH]; intros st; [reflexivity|].
  cbn [map fold_left]. rewrite doc_line_trim. apply IH.
Qed.

(** X3: white space at the start and at the end of the lines does not
    matter to the nesting depth, the duplicate blocks and the documentation
    coverage: on the trimmed lines the three analyzers return what they
    return on the lines themselves. *)
Theorem analyzers_ignore_indentation (lines : list jsstring) :
  calculateMaxNestingDepth (map trim lines) = calculateMaxNestingDepth lines /\
  findDuplicatedCode (map trim lines) = findDuplicatedCode lines /\
  analyzeDocumentation (map trim lines) = analyzeDocumentation lines.
Proof.
  unfold calculateMaxNestingDepth, findDuplicatedCode, analyzeDocumentation.
  now rewrite forEach_nd_line_trim, fd_loop_trim, fold_doc_line_trim.
Qed.

(** ** More on the duplicate blocks *)

Lemma map_get_some_in (m : JsMap) (k : jsstring) (v : list Z) :
  map_get m k = Some v -> In (k, v) m.
Proof.
  induction m as [|[k' v'] m IH]; simpl; [discriminate|].
  destruct (string_eqb k' k) eqn:E.
  - intros H. injection H as ->. apply string_eqb_eq in E. subst. now left.
  - intros H. right. now apply IH.
Qed.

Lemma two_elements {A : Type} (a b : A) (l : list A) :
  In a l -> In b l -> a <> b -> (2 <= length l)%nat.
Proof.
  destruct l as [|x [|y l]]; simpl; try lia; try contradiction.
  intros [-> | []] [-> | []] H. contradiction.
Qed.

(** X4: [findDuplicatedCode] misses no repetition: two different lines
    with the same trimmed text, at least three characters long and not pure
    punctuation, are reported in one block whose code is that text and whose
    locations hold both line numbers. *)
Theorem duplicates_blocks_complete
    (lines : list jsstring) (i j : nat) (first second : jsstring) :
  nth_error lines i = Some first ->
  nth_error lines j = Some second ->
  i <> j ->
  trim first = trim second ->
  3 <= len (trim first) ->
  ~ pure_punctuation (trim first) ->
  exists blocks b,
    findDuplicatedCode lines = Some blocks /\
    In b blocks /\
    dup_code b = trim first /\
    In (Z.of_nat i + 1) (map ref_line (dup_locations b)) /\
    In (Z.of_nat j + 1) (map ref_line (dup_locations b)).
Proof.
  intros Hi Hj Hne Hsame Hlen Hpunct.
  set (code := trim first) in *.
  assert (Hc : candidate code = true) by (apply candidate_spec; now split).
  assert (Hin : forall (k : nat) (line : jsstring),
             nth_error lines k = Some line -> trim line = code ->
             In (Z.of_nat k + 1) (line_numbers_of code lines 1)).
  { intros k line Hk Ht. apply line_numbers_of_In. split; [lia|].
    exists line. replace (Z.to_nat (Z.of_nat k + 1 - 1)) with k by lia. now split. }
  pose proof (Hin i first Hi eq_refl) as H1.
  pose proof (Hin j second Hj (eq_sym Hsame)) as H2.
  assert (Htwo : (2 <= length (line_numbers_of code lines 1))%nat)
    by (apply (two_elements _ _ _ H1 H2); lia).
  destruct (fd_loop_spec lines 0 []) as (m & Hloop & _ & Hget); [constructor|].
  specialize (Hget code). simpl in Hget.
  rewrite (candidate_numbers_all code lines Hc) in Hget.
  destruct (line_numbers_of code lines 1) as [|n ns] eqn:Hnums;
    [simpl in Htwo; lia|].
  apply map_get_some_in in Hget.
  unfold findDuplicatedCode. rewrite Hloop.
  eexists. exists (fd_block (code, n :: ns)).
  split; [reflexivity|]. split.
  - apply in_map, filter_In. split; [exact Hget|]. cbn [snd].
    destruct (Z.gtb_spec (len (n :: ns)) 1); [reflexivity|].
    unfold len in *. lia.
  - cbn [fd_block dup_code dup_locations]. rewrite map_map. cbn [ref_line].
    rewrite map_id. repeat split; assumption.
Qed.

Lemma duplicates_blocks_complete_witness :
  exists blocks b,
    findDuplicatedCode duplicate_example = Some blocks /\
    In b blocks /\ dup_code b = str "const x = 1;" /\
    In 2 (map ref_line (dup_locations b)) /\ In 5 (map ref_line (dup_locations b)).
Proof.
  apply (duplicates_blocks_complete duplicate_example 1 4
           (str "  const x = 1;") (str "const x = 1;  "));
    try reflexivity; try discriminate.
  intros [_ H]. vm_compute in H. inversion H as [|? ? Hc _]; subst.
  destruct Hc as [Hc | [Hc | Hc]]; discriminate.
Defined.

Lemma fd_add_cons_same (k t : jsstring) (v : list Z) (m : JsMap) (x : Z) :
  string_eqb k t = true -> fd_add ((k, v) :: m) t x = (k, v ++ [x]) :: m.
Proof. intros E. unfold fd_add. cbn [map_get map_set]. now rewrite E. Qed.

Lemma fd_add_cons_other (k t : jsstring) (v : list Z) (m : JsMap) (x : Z) :
  string_eqb k t = false -> fd_add ((k, v) :: m) t x = (k, v) :: fd_add m t x.
Proof. intros E. unfold fd_add. cbn [map_get map_set]. now rewrite E. Qed.

Lemma fd_add_heads (m : JsMap) (t : jsstring) (x : Z) :
  Forall (fun entry => snd entry <> []) m ->
  map entry_head (fd_add m t x) =
  map entry_head m ++ (if map_has m t then [] else [x]).
Proof.
  unfold map_has. induction m as [|[k v] m IH]; intros Hall; [reflexivity|].
  inversion Hall as [|? ? Hne Hall']; subst. cbn [snd] in Hne.
  destruct (string_eqb k t) eqn:E.
  - rewrite fd_add_cons_same by assumption. cbn [map_get]. rewrite E.
    cbn [map]. rewrite app_nil_r. f_equal.
    destruct v; [contradiction | reflexivity].
  - rewrite fd_add_cons_other by assumption. cbn [map_get]. rewrite E.
    cbn [map]. now rewrite IH.
Qed.

Lemma fd_add_bounded (m : JsMap) (t : jsstring) (x : Z) :
  Forall (fun entry => snd entry <> [] /\ entry_head entry <= x) m ->
  Forall (fun entry => snd entry <> [] /\ entry_head entry <= x) (fd_add m t x).
Proof.
  induction m as [|[k v] m IH]; intros Hall.
  - repeat constructor; [discriminate | cbn; lia].
  - inversion Hall as [|? ? (Hne & Hle) Hall']; subst. cbn [snd] in Hne.
    destruct (string_eqb k t) eqn:E.
    + rewrite fd_add_cons_same by assumption. constructor; [|exact Hall'].
      cbn [snd]. split; [intros H; now apply app_eq_nil in H as [_ H]|].
      destruct v; [contradiction | exact Hle].
    + rewrite fd_add_cons_other by assumption. constructor; [now split | now apply IH].
Qed.

Lemma sorted_snoc (l : list Z) (x : Z) :
  StronglySorted Z.lt l -> Forall (fun y => y < x) l ->
  StronglySorted Z.lt (l ++ [x]).
Proof.
  induction 1 as [|a l Hs IH Ha]; intros Hall; simpl.
  - repeat constructor.
  - inversion Hall as [|? ? Hax Hall']; subst. constructor; [now apply IH|].
    apply Forall_app. split; [exact Ha | now constructor].
Qed.

Lemma fd_add_ordered (m : JsMap) (t : jsstring) (i : Z) :
  fd_ordered m i -> fd_ordered (fd_add m t (i + 1)) (i + 1).
Proof.
  intros (Hs & Hall). split.
  - rewrite fd_add_heads
      by (eapply Forall_impl; [|exact Hall]; now intros e (H & _)).
    destruct (map_has m t); [now rewrite app_nil_r|].
    apply sorted_snoc; [exact Hs|].
    apply Forall_forall. intros h Hh. apply in_map_iff in Hh.
    destruct Hh as (e & <- & He). rewrite Forall_forall in Hall.
    destruct (Hall e He). lia.
  - apply fd_add_bounded. eapply Forall_impl; [|exact Hall].
    intros e (H1 & H2). split; [exact H1 | lia].
Qed.

Lemma fd_loop_ordered (lines : list jsstring) :
  forall i m,
    fd_ordered m i ->
    exists m', fd_loop lines i m = Some m' /\ fd_ordered m' (i + len lines).
Proof.
  induction lines as [|line rest IH]; intros i m Hord.
  - exists m. change (len []) with 0. now rewrite Z.add_0_r.
  - cbn [fd_loop]. rewrite fd_line_add. rewrite len_cons.
    replace (i + (1 + len rest)) with (i + 1 + len rest) by lia.
    destruct (candidate (trim line)).
    + apply IH. now apply fd_add_ordered.
    + apply IH. destruct Hord as (Hs & Hall). split; [exact Hs|].
      eapply Forall_impl; [|exact Hall]. intros e (H1 & H2). split; [exact H1 | lia].
Qed.

Lemma sorted_filter (f : jsstring * list Z -> bool) (m : JsMap) :
  StronglySorted Z.lt (map entry_head m) ->
  StronglySorted Z.lt (map entry_head (filter f m)).
Proof.
  induction m as [|e m IH]; intros Hs; [constructor|].
  inversion Hs as [|? ? Hs' Hlt]; subst. cbn [filter].
  destruct (f e); [|now apply IH].
  cbn [map]. constructor; [now apply IH|].
  apply Forall_forall. intros h Hh. apply in_map_iff in Hh.
  destruct Hh as (e' & <- & He'). apply filter_In in He'. destruct He' as [He' _].
  rewrite Forall_forall in Hlt. apply Hlt. now apply in_map.
Qed.

Lemma first_location_block (entry : jsstring * list Z) :
  first_location (fd_block entry) = entry_head entry.
Proof.
  destruct entry as [k v]. unfold first_location, entry_head.
  cbn [fd_block dup_locations snd]. rewrite map_map. cbn [ref_line].
  now rewrite map_id.
Qed.

(** X5: the blocks of [findDuplicatedCode] come in the order in which
    their codes first appear in the file: from one block to the next the
    first location strictly grows; and the first location of a block is at
    least 1 and at most the number of lines. *)
Theorem duplicates_in_order_of_first_line (lines : list jsstring) :
  exists blocks,
    findDuplicatedCode lines = Some blocks /\
    StronglySorted Z.lt (map first_location blocks) /\
    Forall (fun b => 1 <= first_location b <= len lines) blocks.
Proof.
  destruct (fd_loop_ordered lines 0 []) as (m & Hloop & Hs & Hall).
  { split; constructor. }
  unfold findDuplicatedCode. rewrite Hloop. eexists. split; [reflexivity|].
  split.
  - rewrite map_map.
    erewrite map_ext by (intros; apply first_location_block).
    now apply sorted_filter.
  - apply Forall_forall. intros b Hb.
    destruct (findDuplicatedCode_spec lines) as (blocks & Hret & _ & Hspec).
    unfold findDuplicatedCode in Hret. rewrite Hloop in Hret.
    injection Hret as <-. destruct (Hspec b Hb) as (_ & Hocc & Hlen & Hlocs & _).
    split.
    + unfold first_location. rewrite Hlocs.
      pose proof (line_numbers_bound (dup_code b) lines 1) as Hb1.
      rewrite Hlen in Hocc. unfold len in Hocc.
      rewrite <- (length_map ref_line (dup_locations b)), Hlocs in Hocc.
      destruct (line_numbers_of (dup_code b) lines 1) as [|n ns];
        [simpl in Hocc; lia|].
      inversion Hb1; subst. assumption.
    + apply in_map_iff in Hb. destruct Hb as (e & <- & He).
      apply filter_In in He. destruct He as [He _].
      rewrite first_location_block. rewrite Forall_forall in Hall.
      destruct (Hall e He) as (_ & Hle). lia.
Qed.

Lemma NoDup_map_inj {A B : Type} (f : A -> B) (l : list A) (a b : A) :
  NoDup (map f l) -> In a l -> In b l -> f a = f b -> a = b.
Proof.
  induction l as [|x l IH]; intros Hnd Ha Hb Hf; [contradiction|].
  cbn [map] in Hnd. inversion Hnd as [|? ? Hnot Hnd']; subst.
  destruct Ha as [-> | Ha]; destruct Hb as [-> | Hb].
  - reflexivity.
  - exfalso. apply Hnot. rewrite Hf. now apply in_map.
  - exfalso. apply Hnot. rewrite <- Hf. now apply in_map.
  - now apply IH.
Qed.

(** X15: no line is reported in two blocks: blocks of
    [findDuplicatedCode] that share a line number are the same block. *)
Theorem duplicates_blocks_disjoint
    (lines : list jsstring) (blocks : list DuplicateBlock)
    (b1 b2 : DuplicateBlock) (n : Z) :
  findDuplicatedCode lines = Some blocks ->
  In b1 blocks -> In b2 blocks ->
  In n (map ref_line (dup_locations b1)) ->
  In n (map ref_line (dup_locations b2)) ->
  b1 = b2.
Proof.
  intros Hret H1 H2 Hn1 Hn2.
  destruct (findDuplicatedCode_spec lines) as (blocks' & Hret' & Hnd & Hall).
  rewrite Hret in Hret'. injection Hret' as <-.
  destruct (Hall b1 H1) as (_ & _ & _ & Hl1 & _).
  destruct (Hall b2 H2) as (_ & _ & _ & Hl2 & _).
  rewrite Hl1 in Hn1. rewrite Hl2 in Hn2.
  apply line_numbers_of_In in Hn1. apply line_numbers_of_In in Hn2.
  destruct Hn1 as (_ & line1 & Hnth1 & Ht1). destruct Hn2 as (_ & line2 & Hnth2 & Ht2).
  rewrite Hnth1 in Hnth2. injection Hnth2 as <-.
  apply (NoDup_map_inj dup_code blocks); try assumption. congruence.
Qed.

Lemma duplicates_blocks_disjoint_witness :
  fd_block (str "const x = 1;", [2; 5]) = fd_block (str "const x = 1;", [2; 5]).
Proof.
  apply (duplicates_blocks_disjoint duplicate_example
           [fd_block (str "const x = 1;", [2; 5])] _ _ 5).
  - vm_compute. reflexivity.
  - left. reflexivity.
  - left. reflexivity.
  - vm_compute. right. left. reflexivity.
  - vm_compute. right. left. reflexivity.
Defined.

(** ** More on the cyclomatic complexity *)

Lemma split_lines_lf (a b : jsstring) :
  split_lines (a ++ nl ++ b) = split_lines a ++ split_lines b.
Proof.
  induction a as [|c a IH]; [reflexivity|].
  cbn [app split_lines]. rewrite IH.
  pose proof (split_lines_nonempty a) as Hne.
  destruct (c =? 10)%N; [reflexivity|].
  destruct (split_lines a); [contradiction | reflexivity].
Qed.

Lemma sumZ_app (l1 l2 : list Z) : sumZ (l1 ++ l2) = sumZ l1 + sumZ l2.
Proof. induction l1 as [|x l1 IH]; simpl; [reflexivity | rewrite IH; lia]. Qed.

Lemma mapi_app {A B : Type} (f : A -> Z -> B) (l1 l2 : list A) :
  forall i, mapi f i (l1 ++ l2) = mapi f i l1 ++ mapi f (i + len l1) l2.
Proof.
  induction l1 as [|a l1 IH]; intros i; simpl.
  - change (len []) with 0. now rewrite Z.add_0_r.
  - rewrite IH, len_cons.
    now replace (i + (1 + len l1)) with (i + 1 + len l1) by lia.
Qed.

Lemma line_entries_shift (line : jsstring) (i k : Z) :
  line_entries line (i + k) = map (shift_location k) (line_entries line i).
Proof.
  unfold line_entries, the_location, shift_location.
  replace (i + k + 1) with (i + 1 + k) by lia.
  now destruct (0 <? decision_points line)%nat; destruct (else_line line).
Qed.

Lemma entries_shift (lines : list jsstring) (k : Z) :
  forall i,
    concat (mapi line_entries (i + k) lines) =
    map (shift_location k) (concat (mapi line_entries i lines)).
Proof.
  induction lines as [|line rest IH]; intros i; [reflexivity|].
  cbn [mapi concat]. rewrite map_app, <- IH, line_entries_shift.
  now replace (i + k + 1) with (i + 1 + k) by lia.
Qed.

Lemma complexity_locations (sourceCode : jsstring) :
  cc_locations (calculateCyclomaticComplexity sourceCode) =
  concat (mapi line_entries 0 (split_lines sourceCode)).
Proof.
  unfold calculateCyclomaticComplexity. simpl.
  now destruct (forEach_cc_line (split_lines sourceCode) 0
                  {| complexity := 1; locations := [] |}) as [_ ->].
Qed.

(** X6: the complexity of two texts put one after the other, with a line
    feed in between, is the sum of their complexities less the base path
    counted twice; the locations are those of the first text followed by
    those of the second, moved down by the number of lines of the first. *)
Theorem complexity_of_concatenation (a b : jsstring) :
  cc_total (calculateCyclomaticComplexity (a ++ nl ++ b)) =
    cc_total (calculateCyclomaticComplexity a)
    + cc_total (calculateCyclomaticComplexity b) - 1 /\
  cc_locations (calculateCyclomaticComplexity (a ++ nl ++ b)) =
    cc_locations (calculateCyclomaticComplexity a) ++
    map (shift_location (len (split_lines a)))
        (cc_locations (calculateCyclomaticComplexity b)).
Proof.
  rewrite !complexity_total, !complexity_locations, split_lines_lf.
  rewrite map_app, sumZ_app, mapi_app. split; [lia|].
  rewrite concat_app. f_equal. apply entries_shift.
Qed.

Lemma line_entries_score (line : jsstring) (index : Z) :
  len (line_entries line index) <= line_score line /\
  (line_entries line index = [] <-> line_score line = 0).
Proof.
  unfold line_entries, line_score. rewrite <- else_line_bare.
  destruct (Nat.ltb_spec 0 (decision_points line)); destruct (else_line line);
    cbn [app]; rewrite ?len_cons; change (len []) with 0;
    (split; [lia | split; intros; (discriminate || lia || reflexivity)]).
Qed.

Lemma entries_total (lines : list jsstring) :
  forall index,
    len (concat (mapi line_entries index lines)) <= sumZ (map line_score lines) /\
    (concat (mapi line_entries index lines) = [] <-> sumZ (map line_score lines) = 0).
Proof.
  induction lines as [|line rest IH]; intros index.
  - simpl. change (len []) with 0. split; [lia | tauto].
  - cbn [mapi concat map sumZ fold_right]. fold (sumZ (map line_score rest)).
    destruct (IH (index + 1)) as (Hle & Hnil).
    destruct (line_entries_score line index) as (Hle1 & Hnil1).
    pose proof (line_score_nonneg line).
    assert (0 <= sumZ (map line_score rest)).
    { apply sumZ_nonneg, Forall_forall. intros x Hx. apply in_map_iff in Hx.
      destruct Hx as (l & <- & _). apply line_score_nonneg. }
    rewrite len_app. split; [lia|]. split.
    + intros Happ. apply app_eq_nil in Happ. destruct Happ as [H1 H2].
      apply Hnil1 in H1. apply Hnil in H2. lia.
    + intros Hsum. assert (H1 : line_score line = 0) by lia.
      assert (H2 : sumZ (map line_score rest) = 0) by lia.
      apply Hnil1 in H1. apply Hnil in H2. now rewrite H1, H2.
Qed.

(** X7: [calculateCyclomaticComplexity] returns no location exactly when
    the total is the base 1, and never more locations than the total
    exceeds 1: every location stands for at least one counted path. *)
Theorem complexity_locations_and_total (sourceCode : jsstring) :
  let r := calculateCyclomaticComplexity sourceCode in
  (cc_locations r = [] <-> cc_total r = 1) /\
  len (cc_locations r) <= cc_total r - 1.
Proof.
  intros r. unfold r. rewrite complexity_total, complexity_locations.
  destruct (entries_total (split_lines sourceCode) 0) as (Hle & Hnil).
  split; [|lia]. rewrite Hnil. split; lia.
Qed.

Lemma entries_in (lines : list jsstring) (loc : ComplexityLocation) :
  forall index,
    In loc (concat (mapi line_entries index lines)) ->
    exists line,
      index + 1 <= loc_line loc /\
      nth_error lines (Z.to_nat (loc_line loc - (index + 1))) = Some line /\
      loc = the_location line (loc_line loc - 1) /\
      ((0 < decision_points line)%nat \/ else_line line = true).
Proof.
  induction lines as [|line rest IH]; intros index Hin; [contradiction|].
  cbn [mapi concat] in Hin. apply in_app_or in Hin. destruct Hin as [Hin | Hin].
  - exists line. unfold line_entries in Hin.
    assert (Hloc : loc = the_location line index /\
                   ((0 < decision_points line)%nat \/ else_line line = true)).
    { destruct (Nat.ltb_spec 0 (decision_points line));
        destruct (else_line line); simpl in Hin;
        intuition (subst; auto). }
    destruct Hloc as (-> & Hwhy). cbn [the_location loc_line].
    replace (index + 1 - (index + 1)) with 0 by lia.
    replace (index + 1 - 1) with index by lia. repeat split; (lia || assumption).
  - destruct (IH (index + 1) Hin) as (l & Hle & Hnth & Hloc & Hwhy).
    exists l. split; [lia|]. split; [|now split].
    replace (Z.to_nat (loc_line loc - (index + 1)))
      with (S (Z.to_nat (loc_line loc - (index + 1 + 1)))) by lia.
    exact Hnth.
Qed.

(** X8: every location of [calculateCyclomaticComplexity] points at a line
    of the text: its number is the 1-based number of a line, its code is
    the trimmed text of that line, it carries no depth, and that line has a
    decision point or fires the else rule. *)
Theorem complexity_location_points_at_line
    (sourceCode : jsstring) (loc : ComplexityLocation) :
  In loc (cc_locations (calculateCyclomaticComplexity sourceCode)) ->
  exists line,
    1 <= loc_line loc <= len (split_lines sourceCode) /\
    nth_error (split_lines sourceCode) (Z.to_nat (loc_line loc - 1)) = Some line /\
    loc_code loc = trim line /\
    loc_depth loc = None /\
    ((0 < decision_points line)%nat \/ else_line line = true).
Proof.
  rewrite complexity_locations. intros Hin.
  destruct (entries_in _ _ _ Hin) as (line & Hle & Hnth & Hloc & Hwhy).
  exists line. simpl in Hle, Hnth.
  assert (Hlt : (Z.to_nat (loc_line loc - 1) < length (split_lines sourceCode))%nat)
    by (apply nth_error_Some; congruence).
  split; [unfold len; lia|]. split; [exact Hnth|].
  rewrite Hloc. cbn [the_location loc_code loc_depth]. now repeat split.
Qed.

Lemma complexity_location_points_at_line_witness :
  exists loc line,
    In loc (cc_locations (calculateCyclomaticComplexity (str "if (a && b)"))) /\
    nth_error (split_lines (str "if (a && b)")) (Z.to_nat (loc_line loc - 1))
      = Some line /\
    loc_code loc = trim line.
Proof.
  eexists. 
  assert (Hin : In (the_location (str "if (a && b)") 0)
                   (cc_locations (calculateCyclomaticComplexity (str "if (a && b)"))))
    by (vm_compute; left; reflexivity).
  destruct (complexity_location_points_at_line _ _ Hin)
    as (line & _ & Hnth & Hcode & _).
  exists line. split; [exact Hin|]. now split.
Defined.

(** ** More on the nesting depth *)

Lemma opening_line_at_app (lines more : list jsstring) (number : Z) (code : jsstring) :
  opening_line_at lines number code -> opening_line_at (lines ++ more) number code.
Proof.
  intros ((H1 & H2) & line & Hnth & Hrest). split.
  - rewrite len_app. pose proof (len_nonneg more). lia.
  - exists line. split; [|exact Hrest].
    rewrite nth_error_app1; [exact Hnth|]. apply nth_error_Some. congruence.
Qed.

Lemma frames_ok_app (lines more : list jsstring) (frames : list Frame) :
  frames_ok lines frames -> frames_ok (lines ++ more) frames.
Proof.
  intros (Hall & Hs). split; [|exact Hs].
  eapply Forall_impl; [|exact Hall]. intros fr. apply opening_line_at_app.
Qed.

Lemma in_firstn {A : Type} (x : A) (n : nat) (l : list A) :
  In x (firstn n l) -> In x l.
Proof.
  intros H. rewrite <- (firstn_skipn n l). apply in_or_app. now left.
Qed.

Lemma frames_ok_firstn (lines : list jsstring) (frames : list Frame) (n : nat) :
  frames_ok lines frames -> frames_ok lines (firstn n frames).
Proof.
  intros (Hall & Hs). split.
  - apply Forall_forall. intros fr Hfr. rewrite Forall_forall in Hall.
    apply Hall. eapply in_firstn; exact Hfr.
  - revert n. induction frames as [|fr frames IH]; intros n.
    + rewrite firstn_nil. constructor.
    + destruct n; [constructor|]. cbn [firstn map].
      inversion Hs as [|? ? Hs' Hlt]; subst. inversion Hall; subst.
      constructor; [now apply IH|].
      apply Forall_forall. intros x Hx. rewrite Forall_forall in Hlt. apply Hlt.
      apply in_map_iff in Hx. destruct Hx as (f & <- & Hf).
      apply in_map. eapply in_firstn; exact Hf.
Qed.

Lemma frames_ok_push (lines : list jsstring) (line : jsstring) (frames : list Frame) :
  frames_ok lines frames -> opens (trim line) = true ->
  frames_ok (lines ++ [line])
            (frames ++ [{| fr_line := len lines + 1; fr_code := trim line |}]).
Proof.
  intros Hok Hopen. pose proof (frames_ok_app lines [line] frames Hok) as (Hall & Hs).
  pose proof (len_nonneg lines) as Hn. split.
  - apply Forall_app. split; [exact Hall|]. constructor; [|constructor].
    cbn [fr_line fr_code]. split.
    + rewrite len_app. change (len [line]) with 1. lia.
    + exists line. replace (Z.to_nat (len lines + 1 - 1)) with (length lines)
        by (unfold len; lia).
      rewrite nth_error_app2, Nat.sub_diag by lia. now repeat split.
  - rewrite map_app. apply sorted_snoc; [exact Hs|].
    destruct Hok as (Hall0 & _). apply Forall_forall. intros x Hx.
    apply in_map_iff in Hx. destruct Hx as (fr & <- & Hfr).
    rewrite Forall_forall in Hall0. destruct (Hall0 fr Hfr) as ((_ & Hle) & _).
    cbn [map fr_line]. lia.
Qed.

Lemma opening_lines_snoc (lines : list jsstring) (line : jsstring) :
  len (opening_lines (lines ++ [line])) =
  len (opening_lines lines) + (if opens (trim line) then 1 else 0).
Proof.
  unfold opening_lines. rewrite filter_app, len_app. cbn [filter].
  destruct (opens (trim line)); reflexivity.
Qed.

Lemma nd_iter_close_keeps (n : nat) (st : ndState) :
  maxDepth (Nat.iter n nd_close st) = maxDepth st /\
  deepest (Nat.iter n nd_close st) = deepest st.
Proof. induction n as [|n IH]; [now split | exact IH]. Qed.

Lemma nd_line_frames (lines : list jsstring) (line : jsstring) (st : ndState) :
  nd_frames lines st -> nd_frames (lines ++ [line]) (nd_line st line (len lines)).
Proof.
  intros (Hinv & Hstack & (frames & Hdeep & Hframes) & Hmax).
  assert (Hopen : nd_frames (lines ++ [line]) (nd_open st (trim line) (len lines))).
  { split; [auto with nesting|]. unfold nd_open.
    rewrite opening_lines_snoc. destruct Hinv as (_ & _ & Hle).
    destruct (opens (trim line)) eqn:Ho.
    - pose proof (frames_ok_push lines line (stack st) Hstack Ho) as Hpush.
      destruct (Z.gtb_spec (currentDepth st + 1) (maxDepth st)); cbn.
      + split; [exact Hpush|]. split; [|lia]. eexists. split; [reflexivity | exact Hpush].
      + split; [exact Hpush|]. split; [|lia].
        exists frames. split; [exact Hdeep | now apply frames_ok_app].
    - split; [now apply frames_ok_app|]. split; [|lia].
      exists frames. split; [exact Hdeep | now apply frames_ok_app]. }
  destruct Hopen as (Hinv' & Hstack' & Hdeep' & Hmax').
  unfold nd_line. set (opened := nd_open st (trim line) (len lines)) in *.
  set (n := closeBraces (trim line)).
  destruct (nd_iter_close n opened Hinv') as (_ & Hs).
  destruct (nd_iter_close_keeps n opened) as (Hm & Hd).
  split; [auto with nesting|]. rewrite Hs, Hm, Hd.
  split; [now apply frames_ok_firstn|]. now split.
Qed.

Lemma forEach_nd_frames (rest : list jsstring) :
  forall lines st,
    nd_frames lines st ->
    nd_frames (lines ++ rest) (forEach nd_line rest (len lines) st).
Proof.
  induction rest as [|line rest IH]; intros lines st H.
  - now rewrite app_nil_r.
  - cbn [forEach]. replace (lines ++ line :: rest) with ((lines ++ [line]) ++ rest)
      by now rewrite <- app_assoc.
    replace (len lines + 1) with (len (lines ++ [line]))
      by (rewrite len_app; reflexivity).
    apply IH. now apply nd_line_frames.
Qed.

Lemma nesting_frames (lines : list jsstring) :
  nd_frames lines (forEach nd_line lines 0 nd_init).
Proof.
  apply (forEach_nd_frames lines [] nd_init).
  split; [apply nd_init_inv|]. split; [split; constructor|].
  split; [|cbn; lia]. exists []. split; [reflexivity | split; constructor].
Qed.

Lemma snapshot_lines (frames : list Frame) :
  map loc_line (snapshot frames) = map fr_line frames /\
  map loc_code (snapshot frames) = map fr_code frames.
Proof.
  unfold snapshot. generalize 0.
  induction frames as [|fr frames IH]; intros i; [now split|].
  cbn [mapi map loc_line loc_code]. destruct (IH (i + 1)) as (-> & ->). now split.
Qed.

Lemma snapshot_in (frames : list Frame) (loc : ComplexityLocation) :
  In loc (snapshot frames) ->
  exists fr, In fr frames /\ loc_line loc = fr_line fr /\ loc_code loc = fr_code fr.
Proof.
  unfold snapshot. generalize 0.
  induction frames as [|fr frames IH]; intros i Hin; [contradiction|].
  cbn [mapi] in Hin. destruct Hin as [<- | Hin].
  - exists fr. repeat split. now left.
  - destruct (IH _ Hin) as (fr' & Hfr & H). exists fr'. split; [now right | exact H].
Qed.

(** X9: the maximum that [calculateMaxNestingDepth] reports is at most the
    number of lines on which the opening rule fires, hence at most the
    number of lines, and it is 0 when the rule fires on no line. *)
Theorem nesting_max_bounded_by_openers (lines : list jsstring) :
  let r := calculateMaxNestingDepth lines in
  nd_max r <= len (opening_lines lines) /\
  len (opening_lines lines) <= len lines /\
  (opening_lines lines = [] -> nd_max r = 0 /\ nd_locations r = []).
Proof.
  intros r. destruct (nesting_frames lines) as (Hinv & _ & _ & Hmax).
  destruct (nesting_result_shape lines) as (Hnn & Hlen & _). fold r in Hnn, Hlen.
  split; [exact Hmax|]. split.
  - unfold opening_lines, len. pose proof (filter_length_le (fun l => opens (trim l)) lines).
    lia.
  - intros Hnil. unfold r, calculateMaxNestingDepth in *. cbn in *.
    rewrite Hnil in Hmax. change (len []) with 0 in Hmax.
    assert (Hz : maxDepth (forEach nd_line lines 0 nd_init) = 0) by lia.
    split; [exact Hz|]. rewrite Hz in Hlen.
    destruct (deepest (forEach nd_line lines 0 nd_init)); [reflexivity|].
    rewrite len_cons in Hlen. pose proof (len_nonneg l). lia.
Qed.

Lemma nesting_max_bounded_by_openers_witness :
  nd_max (calculateMaxNestingDepth [str "const x = 1;"; str "}"; str "}"]) = 0.
Proof.
  apply (nesting_max_bounded_by_openers [str "const x = 1;"; str "}"; str "}"]).
  vm_compute. reflexivity.
Defined.

(** X10: the locations of [calculateMaxNestingDepth] are lines of the
    input on which the opening rule fires, each with the trimmed text of its
    line as code, and their line numbers strictly grow with the depth. *)
Theorem nesting_locations_are_opening_lines (lines : list jsstring) :
  let r := calculateMaxNestingDepth lines in
  StronglySorted Z.lt (map loc_line (nd_locations r)) /\
  Forall (fun loc =>
            1 <= loc_line loc <= len lines /\
            exists line,
              nth_error lines (Z.to_nat (loc_line loc - 1)) = Some line /\
              loc_code loc = trim line /\ opens (trim line) = true)
         (nd_locations r).
Proof.
  intros r. destruct (nesting_frames lines) as (_ & _ & (frames & Hdeep & Hall & Hs) & _).
  unfold r, calculateMaxNestingDepth. cbn. rewrite Hdeep.
  destruct (snapshot_lines frames) as (Hl & _). rewrite Hl. split; [exact Hs|].
  apply Forall_forall. intros loc Hloc.
  destruct (snapshot_in frames loc Hloc) as (fr & Hfr & -> & ->).
  rewrite Forall_forall in Hall. exact (Hall fr Hfr).
Qed.

Lemma nd_open_grows (st : ndState) (t : jsstring) (index : Z) :
  maxDepth st <= maxDepth (nd_open st t index) /\
  (maxDepth (nd_open st t index) = maxDepth st ->
   deepest (nd_open st t index) = deepest st).
Proof.
  unfold nd_open. destruct (opens t); [|split; [lia | reflexivity]].
  destruct (Z.gtb_spec (currentDepth st + 1) (maxDepth st)); cbn;
    split; (lia || reflexivity).
Qed.

Lemma nd_line_grows (st : ndState) (line : jsstring) (index : Z) :
  maxDepth st <= maxDepth (nd_line st line index) /\
  (maxDepth (nd_line st line index) = maxDepth st ->
   deepest (nd_line st line index) = deepest st).
Proof.
  unfold nd_line.
  destruct (nd_iter_close_keeps (closeBraces (trim line))
              (nd_open st (trim line) index)) as (-> & ->).
  apply nd_open_grows.
Qed.

Lemma forEach_nd_grows (lines : list jsstring) :
  forall index st,
    maxDepth st <= maxDepth (forEach nd_line lines index st) /\
    (maxDepth (forEach nd_line lines index st) = maxDepth st ->
     deepest (forEach nd_line lines index st) = deepest st).
Proof.
  induction lines as [|line rest IH]; intros index st; cbn [forEach];
    [split; [lia | reflexivity]|].
  destruct (IH (index + 1) (nd_line st line index)) as (Hle & Hsame).
  destruct (nd_line_grows st line index) as (Hle1 & Hsame1).
  split; [lia|]. intros Heq.
  rewrite Hsame by lia. apply Hsame1. lia.
Qed.

(** X11: more lines never lower the nesting depth: the maximum on a text
    continued by further lines is at least the maximum on the text, and when
    it is the same the locations are the same too. *)
Theorem nesting_grows_with_more_lines (lines more : list jsstring) :
  let r := calculateMaxNestingDepth lines in
  let r' := calculateMaxNestingDepth (lines ++ more) in
  nd_max r <= nd_max r' /\
  (nd_max r' = nd_max r -> nd_locations r' = nd_locations r).
Proof.
  unfold calculateMaxNestingDepth. cbn. rewrite forEach_app.
  apply forEach_nd_grows.
Qed.

Lemma nesting_grows_with_more_lines_witness :
  nd_locations (calculateMaxNestingDepth
                  ([str "if (a) {"; str "}"] ++ [str "while (b) {"; str "}"])) =
  nd_locations (calculateMaxNestingDepth [str "if (a) {"; str "}"]).
Proof.
  apply (nesting_grows_with_more_lines [str "if (a) {"; str "}"]
           [str "while (b) {"; str "}"]).
  vm_compute. reflexivity.
Defined.

(** ** More on the documentation coverage *)

Lemma documented_pairs_comments (rest : list jsstring) :
  forall line,
    len (documented_pairs (line :: rest)) <= len (comment_lines (line :: rest)).
Proof.
  induction rest as [|next rest IH]; intros line.
  - change (documented_pairs [line]) with (@nil (jsstring * jsstring)).
    change (len (@nil (jsstring * jsstring))) with 0. apply len_nonneg.
  - specialize (IH next). unfold documented_pairs, comment_lines in *.
    cbn [tl combine filter fst snd] in *.
    destruct (isComment (trim line)); cbn [andb].
    + destruct (isComplex (trim next)); rewrite ?len_cons; rewrite ?len_cons in IH; lia.
    + lia.
Qed.

(** X12: [analyzeDocumentation] never counts more documented lines than
    the text has comment lines; without a comment line nothing is
    documented, and the coverage is then 0 as soon as there is a complex
    line. *)
Theorem documented_needs_comment_lines (lines : list jsstring) :
  let r := analyzeDocumentation lines in
  documentedComplexLines r <= len (comment_lines lines) /\
  (comment_lines lines = [] ->
   documentedComplexLines r = 0 /\
   (totalComplexLines r <> 0 -> percentage r = number_of_Z 0)).
Proof.
  intros r.
  destruct (analyzeDocumentation_spec lines) as (Ht & Hd & Hle & _).
  pose proof (analyzeDocumentation_percentage lines) as Hp. cbv zeta in Hp.
  fold r in Ht, Hd, Hle, Hp.
  assert (Hbound : documentedComplexLines r <= len (comment_lines lines)).
  { rewrite Hd. destruct lines as [|line rest]; [cbn; lia|].
    apply documented_pairs_comments. }
  split; [exact Hbound|]. intros Hnil. rewrite Hnil in Hbound.
  change (len []) with 0 in Hbound.
  assert (Hz : documentedComplexLines r = 0) by lia.
  split; [exact Hz|]. intros Hnz.
  apply Z.eqb_neq in Hnz as Hb. rewrite Hp, Hb, Hz.
  apply percent_zero. lia.
Qed.

Lemma documented_needs_comment_lines_witness :
  let r := analyzeDocumentation [str "if (x) { }"] in
  documentedComplexLines r = 0 /\ percentage r = number_of_Z 0.
Proof.
  intros r.
  destruct (proj2 (documented_needs_comment_lines [str "if (x) { }"]) eq_refl)
    as (Hz & Hp).
  split; [exact Hz|]. apply Hp. vm_compute. discriminate.
Defined.

(** ** The first version: nesting by braces *)

Lemma scan_one_char (a : char) (s : jsstring) :
  forall prev, length (scan (Lit [a]) prev s 0) = length (filter (N.eqb a) s).
Proof.
  induction s as [|c s IH]; intros prev; [reflexivity|].
  cbn [scan filter]. unfold match_here. cbn [rmatch lit].
  rewrite (N.eqb_sym a c). destruct (c =? a)%N.
  - replace (length (c :: s) - length s)%nat with 1%nat by (cbn [length]; lia).
    cbn [length Nat.sub]. now rewrite IH.
  - apply IH.
Qed.

Lemma matches_one_char (a : char) (line : jsstring) :
  IndexTs.matches (Lit [a]) line = count_char a line.
Proof.
  unfold IndexTs.matches, match_global, count_char, len.
  rewrite <- (scan_one_char a line None).
  now destruct (scan (Lit [a]) None line 0).
Qed.

Lemma depth_line_balance (st : IndexTs.depthState) (line : jsstring) :
  IndexTs.depth_line st line =
  {| IndexTs.maxDepth :=
       Z.max (IndexTs.maxDepth st)
             (IndexTs.currentDepth st
              + (count_char (chr "{") line - count_char (chr "}") line));
     IndexTs.currentDepth :=
       IndexTs.currentDepth st
       + (count_char (chr "{") line - count_char (chr "}") line) |}.
Proof.
  unfold IndexTs.depth_line.
  change IndexTs.openRe with (Lit [chr "{"]). change closeRe with (Lit [chr "}"]).
  now rewrite !matches_one_char.
Qed.

Lemma brace_balance_snoc (lines : list jsstring) (line : jsstring) :
  brace_balance (lines ++ [line]) =
  brace_balance lines + (count_char (chr "{") line - count_char (chr "}") line).
Proof. unfold brace_balance. rewrite map_app, sumZ_app. simpl. lia. Qed.

Lemma firstn_snoc {A : Type} (n : nat) (l : list A) (a : A) :
  firstn n (l ++ [a]) = if (n <=? length l)%nat then firstn n l else l ++ [a].
Proof.
  destruct (Nat.leb_spec n (length l)).
  - rewrite firstn_app. replace (n - length l)%nat with O by lia.
    simpl. now rewrite app_nil_r.
  - apply firstn_all2. rewrite length_app. simpl. lia.
Qed.

(** The scan by braces keeps the running balance and its greatest value
    over the prefixes read. *)
Lemma depth_scan (lines : list jsstring) :
  let st := fold_left IndexTs.depth_line lines
              {| IndexTs.maxDepth := 0; IndexTs.currentDepth := 0 |} in
  IndexTs.currentDepth st = brace_balance lines /\
  (forall n, brace_balance (firstn n lines) <= IndexTs.maxDepth st) /\
  (exists n, (n <= length lines)%nat /\
             IndexTs.maxDepth st = brace_balance (firstn n lines)).
Proof.
  induction lines as [|line lines IH] using rev_ind.
  - cbn. split; [reflexivity|]. split.
    + intros n. rewrite firstn_nil. cbn. lia.
    + exists O. now split.
  - cbn zeta in *. rewrite fold_left_app. cbn [fold_left].
    rewrite depth_line_balance. cbn [IndexTs.maxDepth IndexTs.currentDepth].
    destruct IH as (Hc & Hall & n0 & Hn0 & Hmax). rewrite Hc, <- brace_balance_snoc.
    split; [reflexivity|]. split.
    + intros n. rewrite firstn_snoc. destruct (n <=? length lines)%nat.
      * specialize (Hall n). lia.
      * lia.
    + destruct (Z.max_spec (IndexTs.maxDepth
                  (fold_left IndexTs.depth_line lines
                     {| IndexTs.maxDepth := 0; IndexTs.currentDepth := 0 |}))
                  (brace_balance (lines ++ [line]))) as [(Hlt & ->) | (Hge & ->)].
      * exists (length (lines ++ [line])). split; [lia|]. now rewrite firstn_all.
      * exists n0. split; [rewrite length_app; lia|].
        rewrite firstn_snoc. destruct (Nat.leb_spec n0 (length lines)); [exact Hmax | lia].
Qed.

Lemma count_char_nonneg (c : char) (line : jsstring) : 0 <= count_char c line.
Proof. apply len_nonneg. Qed.

Lemma brace_balance_bound (lines : list jsstring) (n : nat) :
  brace_balance (firstn n lines) <= sumZ (map (count_char (chr "{")) lines).
Proof.
  revert n. induction lines as [|line lines IH]; intros n.
  - rewrite firstn_nil. cbn. lia.
  - destruct n as [|n].
    + cbn [firstn]. change (brace_balance []) with 0.
      apply sumZ_nonneg, Forall_forall. intros x Hx. apply in_map_iff in Hx.
      destruct Hx as (l & <- & _). apply count_char_nonneg.
    + cbn [firstn]. unfold brace_balance in *. cbn [map sumZ fold_right].
      fold (sumZ (map (fun l => count_char (chr "{") l - count_char (chr "}") l)
                      (firstn n lines))).
      fold (sumZ (map (count_char (chr "{")) lines)).
      specialize (IH n). pose proof (count_char_nonneg (chr "}") line). lia.
Qed.

(** X13: the nesting depth of the first version is the greatest balance
    of opened less closed braces over the beginnings of the text, the empty
    beginning included: it is reached after some number of lines and exceeded
    after none, so it is never negative, and it is at most the number of
    opening braces of the text. *)
Theorem first_version_depth_is_greatest_balance (lines : list jsstring) :
  let d := IndexTs.calculateMaxNestingDepth lines in
  (forall n, brace_balance (firstn n lines) <= d) /\
  (exists n, (n <= length lines)%nat /\ d = brace_balance (firstn n lines)) /\
  0 <= d <= sumZ (map (count_char (chr "{")) lines).
Proof.
  intros d. destruct (depth_scan lines) as (_ & Hall & n & Hn & Hmax).
  fold (IndexTs.calculateMaxNestingDepth lines) in Hall, Hmax. fold d in Hall, Hmax.
  split; [exact Hall|]. split; [now exists n|]. split.
  - apply (Hall O).
  - rewrite Hmax. apply brace_balance_bound.
Qed.

(** ** The first version: complexity pattern by pattern *)

Lemma count_where_skip (f : option char -> jsstring -> bool) (rest : jsstring)
    (u : jsstring) :
  forall prev,
    (forall u1 u2, u = u1 ++ u2 -> u2 <> [] ->
                   f (last_opt u1 prev) (u2 ++ rest) = false) ->
    count_where f prev (u ++ rest) = count_where f (last_opt u prev) rest.
Proof.
  induction u as [|c u IH]; intros prev Hin; [reflexivity|].
  cbn [app count_where last_opt].
  assert (H0 : f prev (c :: u ++ rest) = false)
    by (apply (Hin [] (c :: u) eq_refl); discriminate).
  rewrite H0. cbn [Nat.add].
  apply IH. intros u1 u2 Hu Hne. apply (Hin (c :: u1) u2); [now rewrite Hu | exact Hne].
Qed.

(** A [g] pattern decided at each position by [f], whose matches hold no
    other position where [f] holds, matches as many times as there are
    positions where [f] holds. *)
Lemma scan_count_where (r : regex) (f : option char -> jsstring -> bool)
    (g : option char -> jsstring -> jsstring) :
  (forall prev s, match_here r prev s = if f prev s then Some (g prev s) else None) ->
  (forall prev, f prev [] = false) ->
  (forall prev s, f prev s = true ->
     exists u, u <> [] /\ s = u ++ g prev s /\
       forall u1 u2, u1 <> [] -> u2 <> [] -> u = u1 ++ u2 ->
                     f (last_opt u1 prev) (u2 ++ g prev s) = false) ->
  forall (n : nat) s prev,
    (length s <= n)%nat -> length (scan r prev s 0) = count_where f prev s.
Proof.
  intros Hm Hnil Hin. induction n as [|n IH]; intros s prev Hlen.
  - destruct s; [|simpl in Hlen; lia]. cbn [scan]. now rewrite Hm, Hnil.
  - destruct s as [|c s]; [cbn [scan]; now rewrite Hm, Hnil|].
    destruct (f prev (c :: s)) eqn:Hf.
    + destruct (Hin prev (c :: s) Hf) as (u & Hne & Heq & Hinside).
      set (rest := g prev (c :: s)) in *.
      destruct u as [|a u]; [contradiction|].
      assert (a = c) by (simpl in Heq; congruence). subst a.
      assert (Hs : s = u ++ rest) by (simpl in Heq; congruence).
      rewrite Hs. rewrite scan_match
        by (rewrite <- Hs, Hm, Hf; reflexivity).
      cbn [length count_where]. rewrite <- Hs, Hf, Hs. cbn [Nat.add]. f_equal.
      rewrite scan_skip, count_where_skip.
      * apply IH. rewrite Hs in Hlen. simpl in Hlen. rewrite length_app in Hlen. lia.
      * intros u1 u2 Hu Hu2. apply (Hinside (c :: u1) u2);
          [discriminate | exact Hu2 | now rewrite Hu].
    + rewrite scan_no_match by (now rewrite Hm, Hf).
      cbn [count_where]. rewrite Hf. apply IH. simpl in Hlen. lia.
Qed.

Lemma matches_count_where (r : regex) (f : option char -> jsstring -> bool)
    (g : option char -> jsstring -> jsstring) (s : jsstring) :
  (forall prev s, match_here r prev s = if f prev s then Some (g prev s) else None) ->
  (forall prev, f prev [] = false) ->
  (forall prev s, f prev s = true ->
     exists u, u <> [] /\ s = u ++ g prev s /\
       forall u1 u2, u1 <> [] -> u2 <> [] -> u = u1 ++ u2 ->
                     f (last_opt u1 prev) (u2 ++ g prev s) = false) ->
  IndexTs.matches r s = Z.of_nat (count_where f None s).
Proof.
  intros Hm Hnil Hin. unfold IndexTs.matches, match_global, len.
  rewrite <- (scan_count_where r f g Hm Hnil Hin (length s) s None (Nat.le_refl _)).
  now destruct (scan r None s 0).
Qed.

Lemma last_opt_in (u : jsstring) :
  forall prev, u <> [] -> exists c, last_opt u prev = Some c /\ In c u.
Proof.
  induction u as [|a u IH]; intros prev Hne; [contradiction|].
  destruct u as [|b u].
  - exists a. split; [reflexivity | now left].
  - destruct (IH (Some a)) as (c & Hc & Hin); [discriminate|].
    exists c. split; [exact Hc | now right].
Qed.

Lemma count_where_whole_word (w s : jsstring) :
  forall prev, count_where (whole_word_at w) prev s = count_whole_word_from w prev s.
Proof. induction s as [|c s IH]; intros prev; simpl; [|rewrite IH]; reflexivity. Qed.

(** [/\bw\b/g] for a word of word characters. *)
Lemma matches_word_re (w s : jsstring) :
  w <> [] -> forallb is_word_char w = true ->
  IndexTs.matches (word_re w) s = Z.of_nat (count_whole_word w s).
Proof.
  intros Hne Hall.
  assert (Hw : is_word w = true).
  { unfold is_word. destruct w as [|a w]; [contradiction|].
    destruct (last_opt_in (a :: w) None) as (c & Hc & Hin); [discriminate|].
    rewrite Hc. cbn [hd_error is_word_opt]. rewrite forallb_forall in Hall.
    rewrite (Hall a) by now left. now rewrite (Hall c). }
  unfold count_whole_word. rewrite <- count_where_whole_word.
  apply matches_count_where with (g := fun _ s' => skipn (length w) s').
  - intros prev s'. now apply match_here_word_re.
  - intros prev. unfold whole_word_at. destruct w; [contradiction|].
    cbn [startsWith]. now rewrite andb_false_r.
  - intros prev s' Hf. exists w. split; [exact Hne|].
    unfold whole_word_at in Hf. apply andb_true_iff in Hf. destruct Hf as [Hf _].
    apply andb_true_iff in Hf. destruct Hf as [_ Hs].
    split; [now apply startsWith_skipn|].
    intros u1 u2 Hu1 _ Hu. destruct (last_opt_in u1 prev Hu1) as (c & Hc & Hin).
    unfold whole_word_at. rewrite Hc. cbn [is_word_opt].
    rewrite forallb_forall in Hall. rewrite (Hall c); [reflexivity|].
    rewrite Hu. apply in_or_app. now left.
Qed.

Lemma match_here_between_words (op : jsstring) (prev : option char) (s : jsstring) :
  op <> [] -> forallb (fun c => negb (is_word_char c)) op = true ->
  match_here (seqs [WordB; Lit op; WordB]) prev s =
  if between_words_at op prev s then Some (skipn (length op) s) else None.
Proof.
  intros Hne Hall. unfold match_here, between_words_at. cbn [seqs rmatch].
  rewrite lit_spec. unfold word_boundary.
  assert (Hnot : forall c, In c op -> is_word_char c = false).
  { intros c Hc. rewrite forallb_forall in Hall. specialize (Hall c Hc).
    now apply negb_true_iff in Hall. }
  destruct (startsWith s op) eqn:Hs.
  - rewrite (startsWith_hd s op Hne Hs).
    destruct op as [|a op]; [contradiction|]. cbn [hd_error is_word_opt].
    rewrite (Hnot a) by now left.
    destruct (last_opt_in (a :: op) prev) as (c & Hc & Hin); [discriminate|].
    rewrite Hc. cbn [is_word_opt]. rewrite (Hnot c Hin).
    destruct (is_word_opt prev); cbn [xorb andb]; [|reflexivity].
    now destruct (is_word_opt (hd_error (skipn (length (a :: op)) s))).
  - rewrite andb_false_r. simpl.
    now destruct (xorb (is_word_opt prev) (is_word_opt (hd_error s))).
Qed.

(** [/\bop\b/g] for an operator without word characters. *)
Lemma matches_between_words (op s : jsstring) :
  op <> [] -> forallb (fun c => negb (is_word_char c)) op = true ->
  IndexTs.matches (seqs [WordB; Lit op; WordB]) s =
  Z.of_nat (count_where (between_words_at op) None s).
Proof.
  intros Hne Hall.
  apply matches_count_where with (g := fun _ s' => skipn (length op) s').
  - intros prev s'. now apply match_here_between_words.
  - intros prev. unfold between_words_at. destruct op; [contradiction|].
    cbn [startsWith]. now rewrite andb_false_r.
  - intros prev s' Hf. exists op. split; [exact Hne|].
    unfold between_words_at in Hf. apply andb_true_iff in Hf. destruct Hf as [Hf _].
    apply andb_true_iff in Hf. destruct Hf as [_ Hs].
    split; [now apply startsWith_skipn|].
    intros u1 u2 Hu1 _ Hu. destruct (last_opt_in u1 prev Hu1) as (c & Hc & Hin).
    unfold between_words_at. rewrite Hc. cbn [is_word_opt].
    rewrite forallb_forall in Hall.
    assert (Hc' : negb (is_word_char c) = true)
      by (apply Hall; rewrite Hu; apply in_or_app; now left).
    apply negb_true_iff in Hc'. now rewrite Hc'.
Qed.

Lemma space_is_not_e (c : char) : is_space c = true -> c <> N_of_ascii "e".
Proof. intros H ->. vm_compute in H. discriminate. Qed.

Lemma else_if_at_inside (sp rest u1 u2 : jsstring) (prev : option char) :
  forallb is_space sp = true ->
  u1 <> [] -> u2 <> [] ->
  str "else" ++ sp ++ str "if" = u1 ++ u2 ->
  else_if_at (last_opt u1 prev) (u2 ++ rest) = false.
Proof.
  intros Hsp Hu1 Hu2 Heq.
  assert (Htail : forall t, t ++ u2 = sp ++ str "if" ->
                  startsWith (u2 ++ rest) (str "else") = false).
  { intros t Ht.
    assert (Hall : Forall (fun c => c <> N_of_ascii "e") (t ++ u2)).
    { rewrite Ht. apply Forall_app. split.
      - apply Forall_forall. intros c Hc. apply space_is_not_e.
        rewrite forallb_forall in Hsp. now apply Hsp.
      - repeat constructor; discriminate. }
    apply Forall_app in Hall. destruct Hall as [_ Hall].
    destruct u2 as [|c u2]; [contradiction|]. inversion Hall as [|? ? Hc _]; subst.
    cbn. destruct (N.eqb_spec c 101); [contradiction | reflexivity]. }
  cbn [str map list_ascii_of_string app] in Heq.
  destruct u1 as [|c1 [|c2 [|c3 [|c4 t]]]]; try contradiction;
    cbn [app] in Heq; injection Heq as <-; intros;
    try (subst; cbn [last_opt]; unfold else_if_at; reflexivity).
  unfold else_if_at. rewrite (Htail t) by (symmetry; assumption).
  now rewrite andb_false_r.
Qed.

(** [/\belse\s+if\b/g] *)
Lemma matches_elseIfRe (s : jsstring) :
  IndexTs.matches elseIfRe s = Z.of_nat (count_where else_if_at None s).
Proof.
  apply matches_count_where
    with (g := fun _ s' => skipn 2 (trimStart (skipn 4 s'))).
  - apply match_here_elseIfRe.
  - intros prev. unfold else_if_at. cbn. now rewrite andb_false_r.
  - intros prev s' Hf. unfold else_if_at in Hf.
    apply andb_true_iff in Hf. destruct Hf as [Hf Hif].
    apply andb_true_iff in Hf. destruct Hf as [_ Hs].
    apply startsWith_skipn in Hs. change (length (str "else")) with 4%nat in Hs.
    unfold if_follows, tail_free in Hif.
    apply andb_true_iff in Hif. destruct Hif as [_ Hif].
    apply andb_true_iff in Hif. destruct Hif as [Hif _].
    apply startsWith_skipn in Hif. change (length (str "if")) with 2%nat in Hif.
    destruct (drop_while_split is_space (skipn 4 s')) as (sp & Hsp & Hall).
    fold (trimStart (skipn 4 s')) in Hsp.
    exists (str "else" ++ sp ++ str "if"). split; [discriminate|]. split.
    + rewrite Hs at 1. rewrite Hsp at 1. rewrite Hif at 1.
      now rewrite <- !app_assoc.
    + intros u1 u2 Hu1 Hu2 Hu. now apply (else_if_at_inside sp).
Qed.

(** X14: the complexity of the first version is 1 plus, over the whole
    text, the whole-word occurrences of [if], [while], [for], [case] and
    [catch], the occurrences of [else], spaces and [if] (so an [else if]
    counts twice, as an [if] too), the [&&] and [||] that stand between two
    word characters, and the [?]; an [&&] or [||] with a space or any other
    non-word character on a side is not counted. *)
Theorem first_version_complexity (sourceCode : jsstring) :
  IndexTs.calculateCyclomaticComplexity sourceCode =
    1 + Z.of_nat (count_whole_word (str "if") sourceCode)
      + Z.of_nat (count_where else_if_at None sourceCode)
      + Z.of_nat (count_whole_word (str "while") sourceCode)
      + Z.of_nat (count_whole_word (str "for") sourceCode)
      + Z.of_nat (count_whole_word (str "case") sourceCode)
      + Z.of_nat (count_whole_word (str "catch") sourceCode)
      + Z.of_nat (count_where (between_words_at (str "&&")) None sourceCode)
      + Z.of_nat (count_where (between_words_at (str "||")) None sourceCode)
      + count_char (chr "?") sourceCode /\
  1 <= IndexTs.calculateCyclomaticComplexity sourceCode /\
  IndexTs.calculateCyclomaticComplexity (str "if (a && b) {} else if (c&&d) {}") = 5.
Proof.
  assert (H : IndexTs.calculateCyclomaticComplexity sourceCode =
    1 + Z.of_nat (count_whole_word (str "if") sourceCode)
      + Z.of_nat (count_where else_if_at None sourceCode)
      + Z.of_nat (count_whole_word (str "while") sourceCode)
      + Z.of_nat (count_whole_word (str "for") sourceCode)
      + Z.of_nat (count_whole_word (str "case") sourceCode)
      + Z.of_nat (count_whole_word (str "catch") sourceCode)
      + Z.of_nat (count_where (between_words_at (str "&&")) None sourceCode)
      + Z.of_nat (count_where (between_words_at (str "||")) None sourceCode)
      + count_char (chr "?") sourceCode).
  { unfold IndexTs.calculateCyclomaticComplexity, IndexTs.decisionPatterns.
    cbn [fold_left].
    rewrite !matches_word_re by (discriminate || reflexivity).
    rewrite matches_elseIfRe.
    change (kw "&&") with (Lit (str "&&")). change (kw "||") with (Lit (str "||")).
    rewrite !matches_between_words by (discriminate || reflexivity).
    change (kw "?") with (Lit [chr "?"]). now rewrite matches_one_char. }
  split; [exact H|]. split; [|vm_compute; reflexivity].
  rewrite H. pose proof (count_char_nonneg (chr "?") sourceCode). lia.
Qed.

(** ** The limit on the arguments of a call *)

Lemma engine_nd_open (maxArguments : N) (st : ndState) (t : jsstring) (index : Z) :
  nd_inv st -> maxDepth st <= Z.of_N maxArguments ->
  Engine.nd_open maxArguments st t index =
    if maxDepth (nd_open st t index) <=? Z.of_N maxArguments
    then Some (nd_open st t index) else None.
Proof.
  intros (Hs & Hd & Hle) HL.
  unfold Engine.nd_open, nd_open, Engine.push_spread.
  destruct (opens t).
  - destruct (Z.gtb_spec (currentDepth st + 1) (maxDepth st)) as [Hgt | Hgt].
    + cbn [maxDepth app]. rewrite snapshot_len, len_app, Hs.
      change (len [{| fr_line := index + 1; fr_code := t |}]) with 1.
      destruct (Z.gtb_spec (currentDepth st + 1) (Z.of_N maxArguments)),
        (Z.leb_spec (currentDepth st + 1) (Z.of_N maxArguments));
        try lia; reflexivity.
    + cbn [maxDepth].
      destruct (Z.leb_spec (maxDepth st) (Z.of_N maxArguments)); [reflexivity | lia].
  - destruct (Z.leb_spec (maxDepth st) (Z.of_N maxArguments)); [reflexivity | lia].
Qed.

Lemma engine_nd_line (maxArguments : N) (st : ndState) (line : jsstring) (index : Z) :
  nd_inv st -> maxDepth st <= Z.of_N maxArguments ->
  Engine.nd_line maxArguments st line index =
    if maxDepth (nd_line st line index) <=? Z.of_N maxArguments
    then Some (nd_line st line index) else None.
Proof.
  intros Hinv HL. unfold Engine.nd_line, nd_line.
  rewrite engine_nd_open by assumption.
  destruct (nd_iter_close_keeps (closeBraces (trim line))
              (nd_open st (trim line) index)) as [Hm _].
  rewrite Hm.
  now destruct (maxDepth (nd_open st (trim line) index) <=? Z.of_N maxArguments).
Qed.

Lemma engine_forEach (maxArguments : N) (lines : list jsstring) :
  forall index st,
    nd_inv st -> maxDepth st <= Z.of_N maxArguments ->
    Engine.forEach (Engine.nd_line maxArguments) lines index st =
      if maxDepth (forEach nd_line lines index st) <=? Z.of_N maxArguments
      then Some (forEach nd_line lines index st) else None.
Proof.
  induction lines as [|line rest IH]; intros index st Hinv HL;
    cbn [Engine.forEach forEach].
  - destruct (Z.leb_spec (maxDepth st) (Z.of_N maxArguments)); [reflexivity | lia].
  - rewrite engine_nd_line by assumption.
    destruct (Z.leb_spec (maxDepth (nd_line st line index)) (Z.of_N maxArguments))
      as [Hok | Hover].
    + apply IH; [auto with nesting | exact Hok].
    + destruct (forEach_nd_grows rest (index + 1) (nd_line st line index)) as [Hg _].
      destruct (Z.leb_spec
                  (maxDepth (forEach nd_line rest (index + 1) (nd_line st line index)))
                  (Z.of_N maxArguments)); [lia | reflexivity].
Qed.

(** The function returns the result of the scan, and throws exactly when
    the scan gets deeper than the engine takes arguments. *)
Lemma engine_calculateMaxNestingDepth (maxArguments : N) (lines : list jsstring) :
  Engine.calculateMaxNestingDepth maxArguments lines =
    if nd_max (calculateMaxNestingDepth lines) <=? Z.of_N maxArguments
    then Some (calculateMaxNestingDepth lines) else None.
Proof.
  unfold Engine.calculateMaxNestingDepth, calculateMaxNestingDepth.
  rewrite engine_forEach; [| apply nd_init_inv | cbn; lia].
  cbn [nd_max].
  now destruct (maxDepth (forEach nd_line lines 0 nd_init) <=? Z.of_N maxArguments).
Qed.

Lemma nested_scan (n : nat) :
  forall index st,
    currentDepth st = maxDepth st ->
    let st' := forEach nd_line (repeat (str "if (x) {") n) index st in
    currentDepth st' = maxDepth st' /\ maxDepth st' = maxDepth st + Z.of_nat n.
Proof.
  induction n as [|n IH]; intros index st Heq; cbn [repeat forEach].
  - split; [exact Heq | lia].
  - set (st1 := nd_line st (str "if (x) {") index).
    assert (H1 : currentDepth st1 = maxDepth st1 /\ maxDepth st1 = maxDepth st + 1).
    { unfold st1, nd_line, nd_open.
      change (closeBraces (trim (str "if (x) {"))) with 0%nat.
      change (opens (trim (str "if (x) {"))) with true.
      cbn [Nat.iter]. cbv beta iota zeta.
      destruct (Z.gtb_spec (currentDepth st + 1) (maxDepth st)); [|lia].
      unfold Nat.iter. cbn [nat_rect currentDepth maxDepth]. lia. }
    destruct (IH (index + 1) st1 (proj1 H1)) as [Ha Hb].
    split; [exact Ha | lia].
Qed.

Lemma nested_text_lines (n : nat) :
  split_lines (nested_text (S n)) = repeat (str "if (x) {") (S n).
Proof.
  unfold nested_text. apply split_join_lines; [discriminate|].
  apply Forall_forall. intros line Hin.
  apply repeat_spec in Hin. subst line.
  intros H. vm_compute in H. intuition discriminate.
Qed.

Lemma nested_text_depth (n : nat) :
  nd_max (calculateMaxNestingDepth (split_lines (nested_text (S n)))) = Z.of_nat (S n).
Proof.
  rewrite nested_text_lines. unfold calculateMaxNestingDepth. cbn [nd_max].
  now destruct (nested_scan (S n) 0 nd_init eq_refl) as [_ ->].
Qed.

(** C1: [analyzeCode] does not return a report for every text.  Line 95
    spreads the stack of open blocks into the arguments of one call, and an
    engine that takes [maxArguments] arguments throws there on the text of
    [maxArguments + 1] conditionals opened one inside the other.  The
    function returns exactly when the nesting found by the scan is at most
    [maxArguments]: then the report holds the results of the four
    analyzers, its nesting being the result of the scan, and meets the
    invariants of the data model (for an array of fewer than [2 ^ 53]
    lines, as every array is); otherwise it throws.  For the empty text it returns the neutral report: complexity 1
    without locations, nesting 0 without locations, no duplicate, no
    complex line and 100 percent. *)
Theorem analyzeCode_throws_beyond_argument_limit (maxArguments : N) :
  (forall sourceCode : jsstring,
     let lines := split_lines sourceCode in
     let nesting := calculateMaxNestingDepth lines in
     (nd_max nesting <= Z.of_N maxArguments ->
      exists r,
        analyzeCode maxArguments sourceCode = Some r /\
        cyclomaticComplexity r = calculateCyclomaticComplexity sourceCode /\
        maxNestingDepth r = nesting /\
        findDuplicatedCode lines = Some (duplicatedCodeBlocks r) /\
        documentationCoverage r = analyzeDocumentation lines /\
        (len lines < 2 ^ 53 -> well_formed r)) /\
     (Z.of_N maxArguments < nd_max nesting ->
      analyzeCode maxArguments sourceCode = None)) /\
  analyzeCode maxArguments (str "") =
    Some {| cyclomaticComplexity := {| cc_total := 1; cc_locations := [] |};
            maxNestingDepth := {| nd_max := 0; nd_locations := [] |};
            duplicatedCodeBlocks := [];
            documentationCoverage :=
              {| totalComplexLines := 0; documentedComplexLines := 0;
                 percentage := number_of_Z 100 |} |} /\
  nd_max (calculateMaxNestingDepth
            (split_lines (nested_text (S (N.to_nat maxArguments))))) =
    Z.of_N maxArguments + 1 /\
  analyzeCode maxArguments (nested_text (S (N.to_nat maxArguments))) = None.
Proof.
  assert (Hthrow : forall sourceCode,
            Z.of_N maxArguments
              < nd_max (calculateMaxNestingDepth (split_lines sourceCode)) ->
            analyzeCode maxArguments sourceCode = None).
  { intros sourceCode Hdeep. unfold analyzeCode.
    rewrite engine_calculateMaxNestingDepth.
    destruct (Z.leb_spec
                (nd_max (calculateMaxNestingDepth (split_lines sourceCode)))
                (Z.of_N maxArguments)); [lia | reflexivity]. }
  assert (Hdepth : nd_max (calculateMaxNestingDepth
                     (split_lines (nested_text (S (N.to_nat maxArguments))))) =
                   Z.of_N maxArguments + 1).
  { rewrite nested_text_depth. lia. }
  split; [| split; [| split; [exact Hdepth | apply Hthrow; lia]]].
  - intros sourceCode lines nesting. split; [| apply Hthrow].
    intros Hfits. unfold analyzeCode. fold lines.
    rewrite engine_calculateMaxNestingDepth. fold nesting.
    destruct (Z.leb_spec (nd_max nesting) (Z.of_N maxArguments)); [|lia].
    destruct (findDuplicatedCode_spec lines) as (blocks & -> & _ & Hblocks).
    eexists. split; [reflexivity|]. do 4 (split; [reflexivity|]).
    intros Hlen. unfold well_formed. simpl.
    split; [apply complexity_at_least_one|].
    split; [apply nesting_result_shape|].
    destruct (analyzeDocumentation_spec lines) as (_ & _ & Hle & _).
    split; [|split; [assumption | now apply percentage_in_range]].
    apply Forall_forall. intros b Hb.
    destruct (Hblocks b Hb) as (_ & Hocc & Hlen' & Hlocs & _).
    repeat split; try assumption. rewrite Hlocs. apply line_numbers_sorted.
  - unfold analyzeCode. rewrite engine_calculateMaxNestingDepth.
    change (nd_max (calculateMaxNestingDepth (split_lines (str "")))) with 0.
    destruct (Z.leb_spec 0 (Z.of_N maxArguments)); [|lia].
    vm_compute. reflexivity.
Qed.

Lemma analyzeCode_throws_beyond_argument_limit_witness :
  (exists r, analyzeCode 65535 (join_lines nested_example) = Some r /\ well_formed r) /\
  analyzeCode 2 (nested_text 3) = None.
Proof.
  split.
  - destruct (proj1 (proj1 (analyzeCode_throws_beyond_argument_limit 65535)
                       (join_lines nested_example)))
      as (r & Hr & _ & _ & _ & _ & Hwf); [vm_compute; discriminate|].
    exists r. split; [exact Hr|]. apply Hwf. vm_compute. reflexivity.
  - exact (proj2 (proj2 (proj2 (analyzeCode_throws_beyond_argument_limit 2)))).
Defined.
